(** * Navigation graph of mapillary-js: a shallow embedding

    The development follows the TypeScript sources:
    - [Spatial.wrap] (angle wrapping),
    - [NewGraph] (fetch / fill life cycle with its change stream),
    - [Graph] (tile ingestion, worthiness, edge caching, navigation),
    - [SequenceDOMRenderer] (the sequence controls drawn from the cached
      edges of a node).

    The [number]s of [Spatial.wrap], which are subtracted and added in a
    loop, are IEEE 754 binary64 values with their rounding, overflow and
    NaN.  The [number]s of [Graph] are coordinates that are stored,
    compared and shifted by half the width of the search box: they are
    read as rationals ([Q]).  JavaScript objects used as dictionaries are
    finite maps, arrays are lists, and [Node] objects live in a store
    addressed by locations so that the graph and the spatial index share
    them the way the source does. *)

From Stdlib Require Import QArith Qround ZArith Lia Lqa Floats.SpecFloat.
From stdpp Require Import gmap strings list fin_maps pretty.

Set Default Proof Using "Type".

(** ** Results of calls *)

(** A call either returns or throws [new Error(msg)]. *)
Inductive outcome (A : Type) : Type :=
| Ret (a : A)
| Throw (msg : string).
Arguments Ret {A} a.
Arguments Throw {A} msg.

(** [outcome] is the error monad; sequencing is written [x ← m; k]. *)
#[global] Instance outcome_bind : MBind outcome := λ A B k m,
  match m with
  | Ret a => k a
  | Throw msg => Throw msg
  end.

#[global] Instance outcome_ret : MRet outcome := λ A a, Ret a.

Definition is_throw {A : Type} (m : outcome A) : Prop :=
  match m with Throw _ => True | Ret _ => False end.

(** ** Numbers of [Graph] *)

(** Latitudes, longitudes, angles and distances. *)
Definition number : Type := Q.

(** [a < b] on numbers, as a boolean. *)
Definition Qltb (a b : Q) : bool := negb (Qle_bool b a).

(** ** Numbers of [Spatial]: IEEE 754 binary64 *)

(** [Spatial.wrap] subtracts and adds in a loop, so rounding, overflow and
    NaN decide what it does: its numbers are binary64 values with the
    arithmetic and the comparisons of IEEE 754 (round to nearest, ties to
    even), as JavaScript has them. *)
Module float64.

Definition prec : Z := 53.
Definition emax : Z := 1024.

(** The number [m * 2^e], rounded. *)
Definition make (m e : Z) : spec_float := binary_normalize prec emax m e false.
Definition of_Z (z : Z) : spec_float := make z 0.


Definition add : spec_float → spec_float → spec_float := SFadd prec emax.
Definition sub : spec_float → spec_float → spec_float := SFsub prec emax.

(** [a < b] and [a <= b]; [a > b] is [ltb b a].  Both are [false] as soon as
    one side is NaN. *)
Definition ltb : spec_float → spec_float → bool := SFltb.

Definition is_nan (x : spec_float) : bool :=
  match x with S754_nan => true | _ => false end.

End float64.

(** ** Spatial *)

Module Spatial.
Import float64.

(** The [while] loop of [wrap]; [None] when the fuel runs out. *)
Fixpoint wrap_loop (fuel : nat) (value min max interval : spec_float) : option spec_float :=
  match fuel with
  | O => None
  | S fuel' =>
      if ltb max value || ltb value min then
        if ltb max value then
          wrap_loop fuel' (sub value interval) min max interval
        else if ltb value min then
          wrap_loop fuel' (add value interval) min max interval
        else
          wrap_loop fuel' value min max interval
      else Some value
  end.

Definition wrap (fuel : nat) (value min max : spec_float) : option (outcome spec_float) :=
  if ltb max min then
    Some (Throw "Invalid arguments: max must be larger than min.")
  else
    Ret <$> wrap_loop fuel value min max (sub max min).

End Spatial.

(** ** NewGraph: fetch / fill life cycle *)

Module NewGraph.

(** Modelled from the spec: the API payloads [IFullNode] / [IFillNode]
    (declared in "../API", absent from the sources).  A full node carries
    the key and the supplemental attributes, kept as a JSON dictionary. *)
Definition IFillNode : Type := gmap string string.

Record IFullNode : Type := { fn_key : string; fn_fill : IFillNode }.

(** Modelled from the spec: [NewNode] (declared in "../Graph", absent from
    the sources): a key and the nullable [fill] attribute set by
    [makeFull]. *)
Record NewNode : Type := { nn_key : string; nn_fill : option IFillNode }.

Definition new_NewNode (fn : IFullNode) : NewNode :=
  {| nn_key := fn_key fn; nn_fill := None |}.

Definition makeFull (f : IFillNode) (node : NewNode) : NewNode :=
  {| nn_key := nn_key node; nn_fill := Some f |}.

(** The fields of the class that the methods below read and write. *)
Record t : Type := {
  _graph : gmap string nat;          (* key -> location of the node object *)
  _fetching : gmap string bool;
  _filling : gmap string bool
}.

(** A request handed to the API whose promise has not settled yet,
    together with what its [then] callback captured. *)
Inductive request : Type :=
| ImageByKeyFull (key : string)
| ImageByKeyFill (key : string) (node : nat).

(** How a promise settles. *)
Inductive settlement : Type :=
| Fulfilled (imageByKey : gmap string IFullNode)
| Rejected (reason : string).

(** The object together with its surroundings: the node objects it points
    to, the promises in flight and what [_changed$] has emitted so far
    (each emission carries [this], recorded as it is at that moment). *)
Record world : Type := {
  this : t;
  heap : list NewNode;
  requests : list request;
  changed : list t
}.

Definition empty : world :=
  {| this := {| _graph := ∅; _fetching := ∅; _filling := ∅ |};
     heap := []; requests := []; changed := [] |}.

Definition hasNode (key : string) (w : world) : bool :=
  bool_decide (is_Some (_graph (this w) !! key)).

Definition getNode (key : string) (w : world) : option nat :=
  _graph (this w) !! key.

Definition fetching (key : string) (w : world) : bool :=
  bool_decide (is_Some (_fetching (this w) !! key)).

Definition filling (key : string) (w : world) : bool :=
  bool_decide (is_Some (_filling (this w) !! key)).

Definition fetch (key : string) (w : world) : outcome world :=
  if fetching key w then Throw ("Already fetching (" +:+ key +:+ ").")
  else if hasNode key w then
    Throw ("Cannot fetch node that already exist in graph (" +:+ key +:+ ").")
  else
    Ret {| this := {| _graph := _graph (this w);
                      _fetching := <[key := true]> (_fetching (this w));
                      _filling := _filling (this w) |};
           heap := heap w;
           requests := requests w ++ [ImageByKeyFull key];
           changed := changed w |}.

(** The callback of [fetch], run when its promise is fulfilled.  A response
    without an entry for [key] makes the callback fail inside the promise
    before it changes anything. *)
Definition fetch_then (key0 : string) (imageByKey : gmap string IFullNode)
    (w : world) : world :=
  match imageByKey !! key0 with
  | None => w
  | Some fn =>
      let node := makeFull (fn_fill fn) (new_NewNode fn) in
      let loc := length (heap w) in
      let this' := {| _graph := <[nn_key node := loc]> (_graph (this w));
                      _fetching := delete key0 (_fetching (this w));
                      _filling := _filling (this w) |} in
      {| this := this';
         heap := heap w ++ [node];
         requests := requests w;
         changed := changed w ++ [this'] |}
  end.

Definition fill (key0 : string) (w : world) : outcome world :=
  if fetching key0 w then
    Throw ("Cannot fill node while fetching (" +:+ key0 +:+ ").")
  else if filling key0 w then Throw ("Already filling (" +:+ key0 +:+ ").")
  else
    match getNode key0 w with
    | None =>
        Throw ("Cannot fill node that does not exist in graph (" +:+ key0 +:+ ").")
    | Some loc =>
        match nn_fill <$> heap w !! loc with
        | Some (Some _) =>
            Throw ("Cannot fill node that is already filled (" +:+ key0 +:+ ").")
        | _ =>
            Ret {| this := {| _graph := _graph (this w);
                              _fetching := _fetching (this w);
                              _filling := <[key0 := true]> (_filling (this w)) |};
                   heap := heap w;
                   requests := requests w ++ [ImageByKeyFill key0 loc];
                   changed := changed w |}
        end
    end.

(** What [makeFull] does when it is handed [undefined] is decided by the
    class [NewNode], which is not part of these sources: it may throw, or
    return with the node changed in some way. *)
Class NewNodeLib : Type := {
  makeFull_undefined : NewNode → outcome NewNode
}.

Section callbacks.
Context {lib : NewNodeLib}.

(** The callback of [fill], run when its promise is fulfilled: it clears
    the mark, returns if the node has been filled meanwhile, and otherwise
    hands [res.json.imageByKey[key]] to [makeFull], without testing it,
    and notifies.  When [makeFull] throws the callback ends there, the
    mark cleared. *)
Definition fill_then (key0 : string) (loc : nat)
    (imageByKey : gmap string IFullNode) (w : world) : world :=
  let this' := {| _graph := _graph (this w);
                  _fetching := _fetching (this w);
                  _filling := delete key0 (_filling (this w)) |} in
  let cleared := {| this := this'; heap := heap w;
                    requests := requests w; changed := changed w |} in
  match heap w !! loc with
  | None => cleared
  | Some node =>
      match nn_fill node with
      | Some _ => cleared
      | None =>
          let made :=
            match imageByKey !! key0 with
            | Some fn => Ret (makeFull (fn_fill fn) node)
            | None => makeFull_undefined node
            end in
          match made with
          | Throw _ => cleared
          | Ret node' =>
              {| this := this';
                 heap := <[loc := node']> (heap w);
                 requests := requests w;
                 changed := changed w ++ [this'] |}
          end
      end
  end.

(** The [i]-th promise in flight settles.  Both methods register a
    fulfilment callback only ([.then(f)] with one argument): on rejection
    no code of the class runs. *)
Definition settle (i : nat) (s : settlement) (w : world) : world :=
  match requests w !! i with
  | None => w
  | Some r =>
      let w' := {| this := this w; heap := heap w;
                   requests := take i (requests w) ++ drop (S i) (requests w);
                   changed := changed w |} in
      match s, r with
      | Rejected _, _ => w'
      | Fulfilled res, ImageByKeyFull key => fetch_then key res w'
      | Fulfilled res, ImageByKeyFill key loc => fill_then key loc res w'
      end
  end.

End callbacks.

End NewGraph.

(** ** Data exchanged with the tile API and the edge calculator *)

Record ILatLon : Type := { lat : number; lon : number }.

(** [geohash.IBounds] *)
Record IBounds : Type := { sw : ILatLon; ne : ILatLon }.

Module GeoHashDirections.
Definition n : string := "n".
Definition nw : string := "nw".
Definition w : string := "w".
Definition sw : string := "sw".
Definition s : string := "s".
Definition se : string := "se".
Definition e : string := "e".
Definition ne : string := "ne".
End GeoHashDirections.

(** An image of a tile payload ([IAPINavImIm]); the fields the graph reads.
    The corrected values and the rotation may be absent. *)
Record IAPINavImIm : Type := {
  im_key : string;
  im_lat : number;
  im_lon : number;
  im_ca : number;
  im_clat : option number;
  im_clon : option number;
  im_cca : option number;
  im_calt : option number;
  im_rotation : option (list number);
  im_orientation : number
}.

(** A sequence of a tile payload ([IAPINavImS]). *)
Record IAPINavImS : Type := { s_key : string; s_keys : list string }.

(** A tile payload ([IAPINavIm]). *)
Record IAPINavIm : Type := {
  data_hs : list string;
  data_ims : list IAPINavImIm;
  data_ss : list IAPINavImS
}.

(** Modelled from the spec: [Sequence] (declared in "../Graph", absent from
    the sources): its key and the ordered list of member node keys. *)
Record Sequence : Type := { sequence_key : string; sequence_keys : list string }.

Definition new_Sequence (s : IAPINavImS) : Sequence :=
  {| sequence_key := s_key s; sequence_keys := s_keys s |}.

Abbreviation SequenceHash := (gmap string Sequence).

(** [EdgeDirection] is a numeric enumeration. *)
Definition EdgeDirection : Type := N.

(** Modelled from the spec: [IEdgeData] (declared in "../Edge", absent from
    the sources); the graph itself reads only [direction]. *)
Record IEdgeData : Type := { direction : EdgeDirection; worldMotionAzimuth : number }.

Record IEdge : Type := { data : IEdgeData; from : string; to : string }.

(** [IPotentialEdge], with the fields the test helper fills in. *)
Record IPotentialEdge : Type := {
  distance : number;
  motionChange : number;
  verticalMotion : number;
  directionChange : number;
  verticalDirectionChange : number;
  rotation : number;
  pe_worldMotionAzimuth : number;
  sameSequence : bool;
  sameMergeCc : bool;
  fullPano : bool;
  pe_key : string
}.

(** Modelled from the spec: [Node] (declared in "../Graph", absent from the
    sources), with the attributes its constructor call
    [new Node(ca, latLon, worthy, sequence, apiNavImIm, hs)] passes and the
    cached outgoing edges, null until [cacheEdges] runs. *)
Record Node : Type := {
  ca : number;
  latLon : ILatLon;
  worthy : bool;
  sequence : option Sequence;
  apiNavImIm : IAPINavImIm;
  hs : list string;
  edges : option (list IEdge)
}.

Definition new_Node (ca0 : number) (latLon0 : ILatLon) (worthy0 : bool)
    (sequence0 : option Sequence) (im : IAPINavImIm) (hs0 : list string) : Node :=
  {| ca := ca0; latLon := latLon0; worthy := worthy0; sequence := sequence0;
     apiNavImIm := im; hs := hs0; edges := None |}.

Definition key (node : Node) : string := im_key (apiNavImIm node).

Definition makeWorthy (node : Node) : Node :=
  {| ca := ca node; latLon := latLon node; worthy := true;
     sequence := sequence node; apiNavImIm := apiNavImIm node; hs := hs node;
     edges := edges node |}.

Definition cacheEdges (es : list IEdge) (node : Node) : Node :=
  {| ca := ca node; latLon := latLon node; worthy := worthy node;
     sequence := sequence node; apiNavImIm := apiNavImIm node; hs := hs node;
     edges := Some es |}.

(** Position of [k] in a list of keys. *)
Fixpoint indexOf (k : string) (ks : list string) : option nat :=
  match ks with
  | [] => None
  | k' :: rest => if decide (k' = k) then Some O else S <$> indexOf k rest
  end.

(** Modelled from the spec: the previous / next key of a node in the ordered
    key list of its sequence, null at the ends or without a sequence. *)
Definition findPrevKeyInSequence (node : Node) : option string :=
  s ← sequence node;
  i ← indexOf (key node) (sequence_keys s);
  match i with
  | O => None
  | S j => sequence_keys s !! j
  end.

Definition findNextKeyInSequence (node : Node) : option string :=
  s ← sequence node;
  i ← indexOf (key node) (sequence_keys s);
  sequence_keys s !! S i.

(** ** Collaborators of the graph that are not part of these sources *)

(** latlon-geohash, [GeoCoords.geodeticToEnu] and the THREE-based
    [_computeRotation] (trigonometry on matrices) are taken as given.
    [geohash_neighbours h] is the dictionary from a direction to the
    geohash of the adjacent tile. *)
Class GeoLib : Type := {
  geohash_bounds : string → IBounds;
  geohash_neighbours : string → string → string;
  geodeticToEnu :
    number → number → number → number → number → number → number * number * number;
  _computeRotation : number → number → list number
}.

(** [EdgeCalculator] (declared in "../Edge"). *)
Class EdgeCalculator : Type := {
  computeSequenceEdges : Node → list IEdge;
  getPotentialEdges : Node → list Node → list string → list IPotentialEdge;
  computeStepEdges :
    Node → list IPotentialEdge → option string → option string → list IEdge;
  computeTurnEdges : Node → list IPotentialEdge → list IEdge;
  computePanoEdges : Node → list IPotentialEdge → list IEdge;
  computePerspectiveToPanoEdges : Node → list IPotentialEdge → list IEdge;
  computeSimilarEdges : Node → list IPotentialEdge → list IEdge
}.

(** ** graphlib and rbush, as far as the graph uses them *)

Module graphlib.

(** An edge object [{v, w, name}]; a multigraph identifies an edge by all
    three. *)
Record Edge : Type := { v : string; w : string; name : string }.

#[global] Instance Edge_eq_dec : EqDecision Edge.
Proof. solve_decision. Defined.

(** Node labels by key (a node made by [setEdge] alone has the label
    [undefined], here [None]) and edge labels in insertion order. *)
Record Graph : Type := {
  _nodes : gmap string (option nat);
  _edgeLabels : list (Edge * IEdgeData)
}.

Definition empty : Graph := {| _nodes := ∅; _edgeLabels := [] |}.

Definition hasNode (k : string) (g : Graph) : bool :=
  bool_decide (is_Some (_nodes g !! k)).

Definition node (k : string) (g : Graph) : option nat := mjoin (_nodes g !! k).

Definition nodeCount (g : Graph) : nat := size (_nodes g).

(** [setNode(k, value)] *)
Definition setNode (k : string) (value : nat) (g : Graph) : Graph :=
  {| _nodes := <[k := Some value]> (_nodes g); _edgeLabels := _edgeLabels g |}.

(** [setNode(k)]: creates the node with the default label when absent. *)
Definition setNode_default (k : string) (g : Graph) : Graph :=
  if hasNode k g then g
  else {| _nodes := <[k := None]> (_nodes g); _edgeLabels := _edgeLabels g |}.

(** [outEdges(v)]: [undefined] for a key that is not a node. *)
Definition outEdges (k : string) (g : Graph) : option (list Edge) :=
  if hasNode k g then
    Some (filter (λ e, v e = k) (fst <$> _edgeLabels g))
  else None.

(** [edge(e)] *)
Definition edge (e : Edge) (g : Graph) : option IEdgeData :=
  (λ x, snd (snd x)) <$> list_find (λ x, fst x = e) (_edgeLabels g).

Definition removeEdge (e : Edge) (g : Graph) : Graph :=
  {| _nodes := _nodes g;
     _edgeLabels := filter (λ x, fst x ≠ e) (_edgeLabels g) |}.

Definition relabel (e : Edge) (value : IEdgeData) (x : Edge * IEdgeData) :
    Edge * IEdgeData :=
  if decide (fst x = e) then (e, value) else x.

(** [setEdge(v, w, value, name)]: an existing edge only gets the new label;
    a new one is appended and its end points are created when absent. *)
Definition setEdge (v0 w0 : string) (value : IEdgeData) (name0 : string)
    (g : Graph) : Graph :=
  let e := {| v := v0; w := w0; name := name0 |} in
  if bool_decide (e ∈ (fst <$> _edgeLabels g)) then
    {| _nodes := _nodes g; _edgeLabels := relabel e value <$> _edgeLabels g |}
  else
    let g' := setNode_default w0 (setNode_default v0 g) in
    {| _nodes := _nodes g'; _edgeLabels := _edgeLabels g' ++ [(e, value)] |}.

End graphlib.

(** An entry of the spatial index; [item_node] is the location of the node
    object it shares with the graph. *)
Record ISpatialItem : Type := { item_lat : number; item_lon : number; item_node : nat }.

Module rbush.

Record BBox : Type := { maxX : number; maxY : number; minX : number; minY : number }.

(** The index as the list of its items; [search] returns the items whose
    point lies in the box, bounds included. *)
Definition RBush : Type := list ISpatialItem.

Definition insert (item : ISpatialItem) (tree : RBush) : RBush := tree ++ [item].

Definition inside (b : BBox) (item : ISpatialItem) : bool :=
  Qle_bool (minX b) (item_lon item) && Qle_bool (item_lon item) (maxX b)
  && Qle_bool (minY b) (item_lat item) && Qle_bool (item_lat item) (maxY b).

Definition search (b : BBox) (tree : RBush) : list ISpatialItem :=
  List.filter (inside b) tree.

End rbush.

(** ** Graph: tile ingestion, worthiness and edge caching *)

Module Graph.

(** The fields of the class, and the store of the [Node] objects that the
    graph, the spatial index and the callers share by reference. *)
Record t : Type := {
  _sequences : gmap string Sequence;
  _sequenceHashes : gmap string SequenceHash;
  _graph : graphlib.Graph;
  _nodeIndex : rbush.RBush;
  _unWorthyNodes : gmap string bool;
  heap : list Node
}.

Definition _boxWidth : number := 0.001%Q.
Definition _defaultAlt : number := 2%Q.

(** The state the constructor builds. *)
Definition empty : t :=
  {| _sequences := ∅; _sequenceHashes := ∅; _graph := graphlib.empty;
     _nodeIndex := []; _unWorthyNodes := ∅; heap := [] |}.

Definition set_graph (gr : graphlib.Graph) (g : t) : t :=
  {| _sequences := _sequences g; _sequenceHashes := _sequenceHashes g;
     _graph := gr; _nodeIndex := _nodeIndex g;
     _unWorthyNodes := _unWorthyNodes g; heap := heap g |}.

Definition set_heap (h : list Node) (g : t) : t :=
  {| _sequences := _sequences g; _sequenceHashes := _sequenceHashes g;
     _graph := _graph g; _nodeIndex := _nodeIndex g;
     _unWorthyNodes := _unWorthyNodes g; heap := h |}.

Definition set_unWorthyNodes (u : gmap string bool) (g : t) : t :=
  {| _sequences := _sequences g; _sequenceHashes := _sequenceHashes g;
     _graph := _graph g; _nodeIndex := _nodeIndex g;
     _unWorthyNodes := u; heap := heap g |}.

Section methods.
Context {geo : GeoLib} {calc : EdgeCalculator}.

Definition getNode (k : string) (g : t) : option nat :=
  graphlib.node k (_graph g).

(** *** Tile coverage *)

Definition _computeHs (latLon0 sw0 ne0 : ILatLon) (h : string)
    (neighbours : string → string) : list string :=
  let hs0 := [h] in
  let bl : number * number * number := (0%Q, 0%Q, 0%Q) in
  let tr := geodeticToEnu (lat ne0) (lon ne0) 0%Q (lat sw0) (lon sw0) 0%Q in
  let position :=
    geodeticToEnu (lat latLon0) (lon latLon0) 0%Q (lat sw0) (lon sw0) 0%Q in
  let left := (position.1.1 - bl.1.1)%Q in
  let right := (tr.1.1 - position.1.1)%Q in
  let bottom := (position.1.2 - bl.1.2)%Q in
  let top := (tr.1.2 - position.1.2)%Q in
  let l := Qltb left 20%Q in
  let r := Qltb right 20%Q in
  let b := Qltb bottom 20%Q in
  let t := Qltb top 20%Q in
  let hs1 := if t then hs0 ++ [neighbours GeoHashDirections.n] else hs0 in
  let hs2 := if t && l then hs1 ++ [neighbours GeoHashDirections.nw] else hs1 in
  let hs3 := if l then hs2 ++ [neighbours GeoHashDirections.w] else hs2 in
  let hs4 := if l && b then hs3 ++ [neighbours GeoHashDirections.sw] else hs3 in
  let hs5 := if b then hs4 ++ [neighbours GeoHashDirections.s] else hs4 in
  let hs6 := if b && r then hs5 ++ [neighbours GeoHashDirections.se] else hs5 in
  let hs7 := if r then hs6 ++ [neighbours GeoHashDirections.e] else hs6 in
  let hs8 := if r && t then hs7 ++ [neighbours GeoHashDirections.ne] else hs7 in
  hs8.

(** *** Insertion *)

Definition _insertNode (loc : nat) (g : t) : t :=
  match heap g !! loc with
  | None => g
  | Some node =>
      match getNode (key node) g with
      | Some _ => g
      | None =>
          {| _sequences := _sequences g;
             _sequenceHashes := _sequenceHashes g;
             _graph := graphlib.setNode (key node) loc (_graph g);
             _nodeIndex :=
               rbush.insert {| item_lat := lat (latLon node);
                               item_lon := lon (latLon node);
                               item_node := loc |} (_nodeIndex g);
             _unWorthyNodes := _unWorthyNodes g;
             heap := heap g |}
      end
  end.

Definition _insertNodes (nodes : list nat) (g : t) : t :=
  foldl (λ g loc, _insertNode loc g) g nodes.

(** *** Worthiness *)

(** The value of [worthy] after the [_.each] over the coverage set:
    [tiles[h]] must be true for every tile. *)
Definition all_loaded (tiles : gmap string bool) (hs0 : list string) : bool :=
  foldl (λ worthy0 h, worthy0 && default false (tiles !! h)) true hs0.

(** One round of the [for ... in] loop of [_makeNodesWorthy]. *)
Definition makeWorthy_round (tiles : gmap string bool)
    (st : t * list string) (k : string) : outcome (t * list string) :=
  let '(g, worthyKeys) := st in
  match _unWorthyNodes g !! k with
  | None => Ret st
  | Some false => Ret (g, worthyKeys ++ [k])
  | Some true =>
      match getNode k g with
      | None => Throw "TypeError: Cannot read property 'hs' of undefined"
      | Some loc =>
          match heap g !! loc with
          | None => Throw "TypeError: Cannot read property 'hs' of undefined"
          | Some node =>
              if all_loaded tiles (hs node) then
                Ret (set_unWorthyNodes (<[k := false]> (_unWorthyNodes g))
                       (set_heap (<[loc := makeWorthy node]> (heap g)) g),
                     worthyKeys ++ [k])
              else Ret st
          end
      end
  end.

Fixpoint makeWorthy_rounds (tiles : gmap string bool) (ks : list string)
    (st : t * list string) : outcome (t * list string) :=
  match ks with
  | [] => Ret st
  | k :: rest => st' ← makeWorthy_round tiles st k; makeWorthy_rounds tiles rest st'
  end.

(** [_makeNodesWorthy] when [for ... in] visits the keys in the order [ks]. *)
Definition _makeNodesWorthy_in (tiles : gmap string bool) (ks : list string)
    (g : t) : outcome t :=
  st ← makeWorthy_rounds tiles ks (g, []);
  Ret (set_unWorthyNodes
         (foldl (λ u k, delete k u) (_unWorthyNodes st.1) st.2) st.1).

(** The keys are visited in the order of the map; the result is the same
    for any other order. *)
Definition _makeNodesWorthy (tiles : gmap string bool) (g : t) : outcome t :=
  _makeNodesWorthy_in tiles (map_to_list (_unWorthyNodes g)).*1 g.

(** *** Ingestion *)

(** The loop over [data.ss]; an entry of [hSequenceHashes] is [None]
    when [_sequenceHashes] has nothing under the key. *)
Definition add_sequence (st : t * list (option SequenceHash)) (s : IAPINavImS) :
    t * list (option SequenceHash) :=
  let '(g, hSequenceHashes) := st in
  let skey := s_key s in
  if bool_decide (is_Some (_sequences g !! skey)) then
    (g, hSequenceHashes ++ [_sequenceHashes g !! skey])
  else
    let sequence0 := new_Sequence s in
    let sequenceHash : SequenceHash :=
      foldl (λ sh k, <[k := sequence0]> sh) ∅ (s_keys s) in
    ({| _sequences := <[skey := sequence0]> (_sequences g);
        _sequenceHashes := <[skey := sequenceHash]> (_sequenceHashes g);
        _graph := _graph g; _nodeIndex := _nodeIndex g;
        _unWorthyNodes := _unWorthyNodes g; heap := heap g |},
     hSequenceHashes ++ [Some sequenceHash]).

(** The search for the sequence of an image among the hashes of the
    tile. *)
Fixpoint find_sequence (k : string) (hSequenceHashes : list (option SequenceHash)) :
    outcome (option Sequence) :=
  match hSequenceHashes with
  | [] => Ret None
  | None :: _ => Throw "TypeError: Cannot use 'in' operator in undefined"
  | Some ts :: rest =>
      match ts !! k with
      | Some s => Ret (Some s)
      | None => find_sequence k rest
      end
  end.

(** The callback mapped over [data.ims]: builds the node object and
    tracks its key as unworthy. *)
Definition make_node (bounds : IBounds) (h : string) (neighbours : string → string)
    (hSequenceHashes : list (option SequenceHash))
    (st : t * list nat) (im : IAPINavImIm) : outcome (t * list nat) :=
  let '(g, nodes) := st in
  let lat0 := default (im_lat im) (im_clat im) in
  let lon0 := default (im_lon im) (im_clon im) in
  let ca0 := default (im_ca im) (im_cca im) in
  let calt := default _defaultAlt (im_calt im) in
  let latLon0 := {| lat := lat0; lon := lon0 |} in
  let rotation0 :=
    default (_computeRotation (im_ca im) (im_orientation im)) (im_rotation im) in
  let im' := {| im_key := im_key im; im_lat := im_lat im; im_lon := im_lon im;
                im_ca := im_ca im; im_clat := im_clat im; im_clon := im_clon im;
                im_cca := im_cca im; im_calt := Some calt;
                im_rotation := Some rotation0;
                im_orientation := im_orientation im |} in
  let hs0 := _computeHs latLon0 (sw bounds) (ne bounds) h neighbours in
  sequence0 ← find_sequence (im_key im) hSequenceHashes;
  let node := new_Node ca0 latLon0 false sequence0 im' hs0 in
  Ret (set_unWorthyNodes (<[im_key im := true]> (_unWorthyNodes g))
         (set_heap (heap g ++ [node]) g),
       nodes ++ [length (heap g)]).

Fixpoint make_nodes (bounds : IBounds) (h : string) (neighbours : string → string)
    (hSequenceHashes : list (option SequenceHash))
    (ims : list IAPINavImIm) (st : t * list nat) : outcome (t * list nat) :=
  match ims with
  | [] => Ret st
  | im :: rest =>
      st' ← make_node bounds h neighbours hSequenceHashes st im;
      make_nodes bounds h neighbours hSequenceHashes rest st'
  end.

(** [data] is [None] for [undefined]. *)
Definition addNodesFromAPI (data0 : option IAPINavIm) (tiles : gmap string bool)
    (g : t) : outcome t :=
  match data0 with
  | None => Ret g
  | Some d =>
      match data_hs d !! 0%nat with
      | None => Throw "TypeError: Cannot read property 'length' of undefined"
      | Some h =>
          let bounds := geohash_bounds h in
          let neighbours := geohash_neighbours h in
          let '(g1, hSequenceHashes) := foldl add_sequence (g, []) (data_ss d) in
          st ← make_nodes bounds h neighbours hSequenceHashes (data_ims d) (g1, []);
          _makeNodesWorthy tiles (_insertNodes st.2 st.1)
      end
  end.

(** *** Edges *)

Definition getEdges (node : Node) (g : t) : list IEdge :=
  omap (λ outEdge,
          data0 ← graphlib.edge outEdge (_graph g);
          Some {| data := data0; from := graphlib.v outEdge;
                  to := graphlib.w outEdge |})
       (default [] (graphlib.outEdges (key node) (_graph g))).

(** The name under which an edge of [node] is stored. *)
Definition edge_name (node : Node) (edge : IEdge) : string :=
  key node +:+ to edge +:+ pretty (direction (data edge)).

Definition _addEdgesToNode (node : Node) (edges0 : list IEdge) (g : t) : outcome t :=
  match graphlib.outEdges (key node) (_graph g) with
  | None => Throw "TypeError: Cannot read property 'length' of undefined"
  | Some outEdges =>
      let gr1 := foldl (λ gr outEdge, graphlib.removeEdge outEdge gr)
                       (_graph g) outEdges in
      let gr2 := foldl (λ gr edge,
                          graphlib.setEdge (key node) (to edge) (data edge)
                                           (edge_name node edge) gr)
                       gr1 edges0 in
      Ret (set_graph gr2 g)
  end.

(** The nodes the spatial index holds around [node]. *)
Definition nearby (node : Node) (g : t) : list Node :=
  let minLon := (lon (latLon node) - _boxWidth / 2)%Q in
  let minLat := (lat (latLon node) - _boxWidth / 2)%Q in
  let maxLon := (lon (latLon node) + _boxWidth / 2)%Q in
  let maxLat := (lat (latLon node) + _boxWidth / 2)%Q in
  omap (λ item, heap g !! item_node item)
       (rbush.search {| rbush.maxX := maxLon; rbush.maxY := maxLat;
                        rbush.minX := minLon; rbush.minY := minLat |}
                     (_nodeIndex g)).

(** The edge list [_computeEdges] hands to [_addEdgesToNode]. *)
Definition computed_edges (node : Node) (g : t) : list IEdge :=
  let edges0 := computeSequenceEdges node in
  let fallbackKeys := to <$> edges0 in
  let nodes := nearby node g in
  let potentialEdges := getPotentialEdges node nodes fallbackKeys in
  let edges1 :=
    edges0 ++ computeStepEdges node potentialEdges
                (findPrevKeyInSequence node) (findNextKeyInSequence node) in
  let edges2 := edges1 ++ computeTurnEdges node potentialEdges in
  let edges3 := edges2 ++ computePanoEdges node potentialEdges in
  let edges4 := edges3 ++ computePerspectiveToPanoEdges node potentialEdges in
  edges4 ++ computeSimilarEdges node potentialEdges.

Definition _computeEdges (node : Node) (g : t) : outcome (bool * t) :=
  if negb (worthy node) then Ret (false, g)
  else
    g' ← _addEdgesToNode node (computed_edges node g) g;
    Ret (true, g').

(** [cacheNode(node)], for the node object at [loc]. *)
Definition cacheNode (loc : nat) (g : t) : outcome t :=
  match heap g !! loc with
  | None => Ret g
  | Some node =>
      r ← _computeEdges node g;
      let '(computed, g') := (r : bool * t) in
      if computed then
        Ret (set_heap (<[loc := cacheEdges (getEdges node g') node]> (heap g')) g')
      else Ret g'
  end.

Definition nextKey (node : Node) (dir : EdgeDirection) (g : t) :
    outcome (option string) :=
  match graphlib.outEdges (key node) (_graph g) with
  | None => Throw "TypeError: Cannot read property 'length' of undefined"
  | Some outEdges =>
      Ret (graphlib.w <$>
             head (filter (λ outEdge,
                             direction <$> graphlib.edge outEdge (_graph g) = Some dir)
                          outEdges))
  end.

Definition nextNode (node : Node) (dir : EdgeDirection) (g : t) :
    outcome (option nat) :=
  k ← nextKey node dir g;
  Ret (k ≫= λ k, getNode k g).

End methods.
End Graph.

(** ** Proximity to the boundary of the home tile *)

(** What it means for a position to lie within the 20 meter threshold of a
    boundary of the tile with corners [sw0] and [ne0]: the distance to the
    boundary, measured in the frame anchored at [sw0], is below 20. *)
Section proximity.
Context {geo : GeoLib}.

Definition enu (p origin : ILatLon) : number * number * number :=
  geodeticToEnu (lat p) (lon p) 0%Q (lat origin) (lon origin) 0%Q.

Definition near_west (p sw0 : ILatLon) : Prop :=
  ((enu p sw0).1.1 - 0 < 20)%Q.

Definition near_east (p sw0 ne0 : ILatLon) : Prop :=
  ((enu ne0 sw0).1.1 - (enu p sw0).1.1 < 20)%Q.

Definition near_south (p sw0 : ILatLon) : Prop :=
  ((enu p sw0).1.2 - 0 < 20)%Q.

Definition near_north (p sw0 ne0 : ILatLon) : Prop :=
  ((enu ne0 sw0).1.2 - (enu p sw0).1.2 < 20)%Q.

End proximity.

(** ** Worthiness, in the words of the specification *)

(** A tile is loaded when the tile set marks it [true]. *)
Definition loaded (tiles : gmap string bool) (h : string) : Prop :=
  tiles !! h = Some true.

(** A node is covered when every tile of its coverage set is loaded. *)
Definition covered (tiles : gmap string bool) (node : Node) : Prop :=
  Forall (loaded tiles) (hs node).

(** A key is tracked as unworthy. *)
Definition tracked (k : string) (g : Graph.t) : Prop :=
  Graph._unWorthyNodes g !! k = Some true.

(** The invariant of the graph between calls: a tracked key has a node in
    the graph, a node of the graph is an object stored under its own key, a
    known sequence has its hash, and a worthy object is the node of its key
    in the graph. *)
Record wf (g : Graph.t) : Prop := {
  wf_tracked : ∀ k,
    is_Some (Graph._unWorthyNodes g !! k) → is_Some (Graph.getNode k g);
  wf_keyed : ∀ k loc,
    Graph.getNode k g = Some loc →
    ∃ node, Graph.heap g !! loc = Some node ∧ key node = k;
  wf_hashes : ∀ skey,
    is_Some (Graph._sequences g !! skey) → is_Some (Graph._sequenceHashes g !! skey);
  wf_worthy : ∀ loc node,
    Graph.heap g !! loc = Some node → worthy node = true →
    Graph.getNode (key node) g = Some loc
}.

(** ** The sweep in closed form *)

(** The object at [loc] is promoted by a sweep with [tiles]: it is the node
    of its key in the graph, its key is tracked and it is covered. *)
Definition promoted_by (tiles : gmap string bool) (g : Graph.t) (loc : nat)
    (node : Node) : bool :=
  bool_decide (Graph.getNode (key node) g = Some loc)
  && bool_decide (Graph._unWorthyNodes g !! key node = Some true)
  && Graph.all_loaded tiles (hs node).

Definition swept_heap (tiles : gmap string bool) (g : Graph.t) : list Node :=
  imap (λ loc node, if promoted_by tiles g loc node then makeWorthy node else node)
       (Graph.heap g).

(** A key stays tracked when its node is not covered. *)
Definition swept_unWorthyNodes (tiles : gmap string bool) (g : Graph.t) :
    gmap string bool :=
  map_imap (λ k (v : bool),
              if v then
                match Graph.getNode k g ≫= λ loc, Graph.heap g !! loc with
                | Some node => if Graph.all_loaded tiles (hs node) then None else Some true
                | None => Some true
                end
              else None)
           (Graph._unWorthyNodes g).

Definition swept (tiles : gmap string bool) (g : Graph.t) : Graph.t :=
  Graph.set_unWorthyNodes (swept_unWorthyNodes tiles g)
    (Graph.set_heap (swept_heap tiles g) g).

(** ** Reachable states *)

(** The states of a graph that starts empty and is driven through its
    public methods that change it. *)
Inductive reachable {geo : GeoLib} {calc : EdgeCalculator} : Graph.t → Prop :=
| reachable_empty : reachable Graph.empty
| reachable_addNodesFromAPI data0 tiles g g' :
    reachable g → Graph.addNodesFromAPI data0 tiles g = Ret g' → reachable g'
| reachable_cacheNode loc g g' :
    reachable g → Graph.cacheNode loc g = Ret g' → reachable g'.

(** ** Auxiliary invariants of the ingestion *)

(** While the sequences of a payload are read: a known sequence has its
    hash and no entry of the hashes of the tile is undefined. *)
Definition hashes_ok (st : Graph.t * list (option SequenceHash)) : Prop :=
  (∀ skey, is_Some (Graph._sequences st.1 !! skey) →
           is_Some (Graph._sequenceHashes st.1 !! skey)) ∧
  Forall is_Some st.2.

(** A node of the graph is an object stored under its own key. *)
Definition keyed (g : Graph.t) : Prop :=
  ∀ k loc, Graph.getNode k g = Some loc →
           ∃ node, Graph.heap g !! loc = Some node ∧ key node = k.

(** Only nodes of the graph are worthy. *)
Definition worthy_in_graph (g : Graph.t) : Prop :=
  ∀ loc node, Graph.heap g !! loc = Some node → worthy node = true →
              Graph.getNode (key node) g = Some loc.

(** What the sweep of [_makeNodesWorthy] relies on and maintains. *)
Definition sweep_inv (g : Graph.t) : Prop :=
  (∀ k, is_Some (Graph._unWorthyNodes g !! k) → is_Some (Graph.getNode k g)) ∧
  keyed g.

(** What rounds for the keys [ks] may change between two states. *)
Record sweep_frame (ks : list string) (st st' : Graph.t * list string) : Prop := {
  sf_graph : Graph._graph st'.1 = Graph._graph st.1;
  sf_index : Graph._nodeIndex st'.1 = Graph._nodeIndex st.1;
  sf_sequences : Graph._sequences st'.1 = Graph._sequences st.1;
  sf_hashes : Graph._sequenceHashes st'.1 = Graph._sequenceHashes st.1;
  sf_inv : sweep_inv st'.1;
  sf_other : ∀ k0, k0 ∉ ks →
    Graph._unWorthyNodes st'.1 !! k0 = Graph._unWorthyNodes st.1 !! k0 ∧
    (k0 ∈ st'.2 ↔ k0 ∈ st.2) ∧
    ∀ loc0, Graph.getNode k0 st.1 = Some loc0 →
            Graph.heap st'.1 !! loc0 = Graph.heap st.1 !! loc0;
  sf_grow : ∀ k0, k0 ∈ st.2 → k0 ∈ st'.2;
  sf_heap : ∀ loc node, Graph.heap st.1 !! loc = Some node →
    Graph.heap st'.1 !! loc = Some node ∨
    Graph.heap st'.1 !! loc = Some (makeWorthy node)
}.

(** ** Edge calculators that do not read the cache *)

Definition forget_cache (node : Node) : Node :=
  {| ca := ca node; latLon := latLon node; worthy := worthy node;
     sequence := sequence node; apiNavImIm := apiNavImIm node; hs := hs node;
     edges := None |}.

(** The results of the calculator do not depend on the edges cached in the
    nodes it is given. *)
Record cache_blind (C : EdgeCalculator) : Prop := {
  blind_sequence : ∀ n, computeSequenceEdges n = computeSequenceEdges (forget_cache n);
  blind_potential : ∀ n ns fb,
    getPotentialEdges n ns fb =
      getPotentialEdges (forget_cache n) (forget_cache <$> ns) fb;
  blind_step : ∀ n pes p q,
    computeStepEdges n pes p q = computeStepEdges (forget_cache n) pes p q;
  blind_turn : ∀ n pes, computeTurnEdges n pes = computeTurnEdges (forget_cache n) pes;
  blind_pano : ∀ n pes, computePanoEdges n pes = computePanoEdges (forget_cache n) pes;
  blind_perspective : ∀ n pes,
    computePerspectiveToPanoEdges n pes =
      computePerspectiveToPanoEdges (forget_cache n) pes;
  blind_similar : ∀ n pes,
    computeSimilarEdges n pes = computeSimilarEdges (forget_cache n) pes
}.

(** ** Calls and the change stream *)

(** [Subject.next] is called in two places of the sources, both of them
    fulfilment callbacks of [NewGraph], on [NewGraph._changed$], the only
    stream there is.  [Graph] declares no stream among its fields and its
    methods are handed none. *)
Module Calls.

(** An instance of one of the two classes. *)
Inductive receiver : Type :=
| AGraph (g : Graph.t)
| ANewGraph (w : NewGraph.world).


(** What the stream of the receiver has emitted so far. *)
Definition changed (o : receiver) : list NewGraph.t :=
  match o with
  | AGraph _ => []
  | ANewGraph w => NewGraph.changed w
  end.


End Calls.

(** ** Concrete collaborators and payloads for the examples *)

(** A flat projection: one degree is 100000 meters in both directions, and
    the tile of any geohash is the square from (0, 0) to (0.001, 0.001). *)
Definition flat_geo : GeoLib :=
  {| geohash_bounds := λ _,
       {| sw := {| lat := 0%Q; lon := 0%Q |};
          ne := {| lat := 0.001%Q; lon := 0.001%Q |} |};
     geohash_neighbours := λ h dir, h +:+ "/" +:+ dir;
     geodeticToEnu := λ lat0 lon0 alt0 rlat rlon ralt,
       (((lon0 - rlon) * 100000)%Q, ((lat0 - rlat) * 100000)%Q, (alt0 - ralt)%Q);
     _computeRotation := λ _ _, [0%Q; 0%Q; 0%Q] |}.

Definition image (k : string) (lat0 lon0 : number) : IAPINavImIm :=
  {| im_key := k; im_lat := lat0; im_lon := lon0; im_ca := 0%Q;
     im_clat := None; im_clon := None; im_cca := None; im_calt := None;
     im_rotation := None; im_orientation := 1%Q |}.

(** A tile with one image in its middle and one 10 meters from its western
    boundary, both in the sequence "s". *)
Definition tile_payload : IAPINavIm :=
  {| data_hs := ["t"];
     data_ims := [image "a" 0.0005%Q 0.0005%Q; image "b" 0.0005%Q 0.0001%Q];
     data_ss := [{| s_key := "s"; s_keys := ["a"; "b"] |}] |}.

Definition home_loaded : gmap string bool := {[ "t" := true ]}.

(** An edge calculator for the examples: sequence edges to the next
    (direction 0) and previous (direction 1) key, and an edge of direction 2
    to every node the spatial index returns. *)
Definition example_edge (dir : EdgeDirection) (node : Node) (k : string) : IEdge :=
  {| data := {| direction := dir; worldMotionAzimuth := 0%Q |};
     from := key node; to := k |}.

Definition example_potential (k : string) : IPotentialEdge :=
  {| distance := 0%Q; motionChange := 0%Q; verticalMotion := 0%Q;
     directionChange := 0%Q; verticalDirectionChange := 0%Q; rotation := 0%Q;
     pe_worldMotionAzimuth := 0%Q; sameSequence := false; sameMergeCc := false;
     fullPano := false; pe_key := k |}.

Definition example_calculator : EdgeCalculator :=
  {| computeSequenceEdges := λ node,
       (example_edge 0%N node <$> option_list (findNextKeyInSequence node)) ++
       (example_edge 1%N node <$> option_list (findPrevKeyInSequence node));
     getPotentialEdges := λ _ nodes _, (λ c, example_potential (key c)) <$> nodes;
     computeStepEdges := λ _ _ _ _, [];
     computeTurnEdges := λ _ _, [];
     computePanoEdges := λ _ _, [];
     computePerspectiveToPanoEdges := λ _ _, [];
     computeSimilarEdges := λ node pes, (λ pe, example_edge 2%N node (pe_key pe)) <$> pes |}.

(** The graph after the example tile has been ingested with only the home
    tile loaded. *)
Definition ingested : Graph.t :=
  match Graph.addNodesFromAPI (geo := flat_geo) (Some tile_payload) home_loaded
          Graph.empty with
  | Ret g => g
  | Throw _ => Graph.empty
  end.

(** Both tiles of the coverage set of the image "b" of the example. *)
Definition both_loaded : gmap string bool := {[ "t" := true; "t/w" := true ]}.

(** ** The life of a NewGraph *)

(** A [NewNode] for the examples: its [makeFull] refuses [undefined]. *)
Definition refusing_nodes : NewGraph.NewNodeLib :=
  {| NewGraph.makeFull_undefined := λ _, Throw "Fill can not be null." |}.

(** The state the constructor builds around the graph it is given (the
    empty one by default): nothing in flight, nothing emitted. *)
Definition constructed (w : NewGraph.world) : Prop :=
  NewGraph._fetching (NewGraph.this w) = ∅ ∧
  NewGraph._filling (NewGraph.this w) = ∅ ∧
  NewGraph.requests w = [] ∧ NewGraph.changed w = [].

(** The states reached from [w0] by calls of [fetch] and [fill] that return
    and by promises that settle. *)
Inductive ng_reachable {lib : NewGraph.NewNodeLib} (w0 : NewGraph.world) :
    NewGraph.world → Prop :=
| ng_start : ng_reachable w0 w0
| ng_fetch key0 w w' :
    ng_reachable w0 w → NewGraph.fetch key0 w = Ret w' → ng_reachable w0 w'
| ng_fill key0 w w' :
    ng_reachable w0 w → NewGraph.fill key0 w = Ret w' → ng_reachable w0 w'
| ng_settle i s w :
    ng_reachable w0 w → ng_reachable w0 (NewGraph.settle i s w).

(** What a request in flight is about: its kind ([true] for a fetch) and
    its key. *)
Definition request_id (r : NewGraph.request) : bool * string :=
  match r with
  | NewGraph.ImageByKeyFull k => (true, k)
  | NewGraph.ImageByKeyFill k _ => (false, k)
  end.

(** The key of a request in flight is marked in the dictionary of its
    kind. *)
Definition marked (w : NewGraph.world) (r : NewGraph.request) : Prop :=
  match r with
  | NewGraph.ImageByKeyFull k => NewGraph.fetching k w = true
  | NewGraph.ImageByKeyFill k _ => NewGraph.filling k w = true
  end.

(** What the two dictionaries guarantee about the requests in flight:
    each request has its key marked, no key has two requests of the same
    kind, a key being filled has a node, and no key is in both
    dictionaries. *)
Record in_flight_ok (w : NewGraph.world) : Prop := {
  ifo_marked : Forall (marked w) (NewGraph.requests w);
  ifo_once : NoDup (request_id <$> NewGraph.requests w);
  ifo_node : ∀ k, NewGraph.filling k w = true → NewGraph.hasNode k w = true;
  ifo_exclusive : ∀ k, ¬ (NewGraph.fetching k w = true ∧ NewGraph.filling k w = true)
}.

(** Every node of the graph is an object that has been made full. *)
Definition all_full (w : NewGraph.world) : Prop :=
  ∀ k loc, NewGraph.getNode k w = Some loc →
    ∃ node f, NewGraph.heap w !! loc = Some node ∧ NewGraph.nn_fill node = Some f.

(** ** Identities of the edges stored for a node *)

(** The identity under which [_addEdgesToNode] stores an edge of [node]. *)
Definition edge_id (node : Node) (c : IEdge) : graphlib.Edge :=
  {| graphlib.v := key node; graphlib.w := to c;
     graphlib.name := Graph.edge_name node c |}.

(** The edge identities of a multigraph after one more [setEdge]. *)
Definition add_id (l : list graphlib.Edge) (e : graphlib.Edge) : list graphlib.Edge :=
  if bool_decide (e ∈ l) then l else l ++ [e].

(** What distinguishes the out-edges of one node: destination and
    direction. *)
Definition edge_slot (e : IEdge) : string * EdgeDirection :=
  (to e, direction (data e)).

(** ** What a tile payload makes of an image *)

(** The node object built for the image [im] of the tile [h], when
    [hsh] are the sequence hashes of the tile. *)
Definition image_node {geo : GeoLib} (h : string) (hsh : list (option SequenceHash))
    (im : IAPINavImIm) (node : Node) : Prop :=
  key node = im_key im ∧ worthy node = false ∧ edges node = None ∧
  latLon node = {| lat := default (im_lat im) (im_clat im);
                   lon := default (im_lon im) (im_clon im) |} ∧
  ca node = default (im_ca im) (im_cca im) ∧
  im_calt (apiNavImIm node) = Some (default Graph._defaultAlt (im_calt im)) ∧
  im_rotation (apiNavImIm node) =
    Some (default (_computeRotation (im_ca im) (im_orientation im)) (im_rotation im)) ∧
  hs node = Graph._computeHs (latLon node) (sw (geohash_bounds h))
              (ne (geohash_bounds h)) h (geohash_neighbours h) ∧
  Graph.find_sequence (im_key im) hsh = Ret (sequence node).

(** One call of a method that changes the graph. *)
Inductive step {geo : GeoLib} {calc : EdgeCalculator} : Graph.t → Graph.t → Prop :=
| step_addNodesFromAPI data0 tiles g g' :
    Graph.addNodesFromAPI data0 tiles g = Ret g' → step g g'
| step_cacheNode loc g g' :
    Graph.cacheNode loc g = Ret g' → step g g'.

(** What stays of a node object for its whole life: everything but the
    cached edges, and [worthy] once it is set. *)
Definition same_identity (node node' : Node) : Prop :=
  apiNavImIm node' = apiNavImIm node ∧ latLon node' = latLon node ∧
  ca node' = ca node ∧ hs node' = hs node ∧ sequence node' = sequence node ∧
  (worthy node = true → worthy node' = true) ∧
  (worthy node' = false → edges node' = edges node).

(** The spatial index and the graph hold the same nodes: an entry of the
    index points to the node of its key, at the position of that node;
    every node of the graph has its entry; no object is entered twice. *)
Record index_ok (g : Graph.t) : Prop := {
  io_item : ∀ item, item ∈ Graph._nodeIndex g →
    ∃ node, Graph.heap g !! item_node item = Some node ∧
            Graph.getNode (key node) g = Some (item_node item) ∧
            item_lat item = lat (latLon node) ∧ item_lon item = lon (latLon node);
  io_node : ∀ k loc, Graph.getNode k g = Some loc →
    ∃ item, item ∈ Graph._nodeIndex g ∧ item_node item = loc;
  io_once : NoDup (item_node <$> Graph._nodeIndex g)
}.

(** Edges leave worthy nodes of the graph only, and an object that is not
    worthy has no cached edges. *)
Record edges_ok (g : Graph.t) : Prop := {
  eo_source : ∀ oe d, (oe, d) ∈ graphlib._edgeLabels (Graph._graph g) →
    ∃ loc node, Graph.getNode (graphlib.v oe) g = Some loc ∧
                Graph.heap g !! loc = Some node ∧ worthy node = true;
  eo_uncached : ∀ loc node, Graph.heap g !! loc = Some node →
    worthy node = false → edges node = None
}.

(** The sequences, their hashes and the sequences of the nodes agree. *)
Record seq_ok (g : Graph.t) : Prop := {
  so_hash : ∀ skey sh, Graph._sequenceHashes g !! skey = Some sh →
    ∃ s, Graph._sequences g !! skey = Some s ∧
         ∀ k s', sh !! k = Some s' → s' = s ∧ k ∈ sequence_keys s;
  so_key : ∀ skey s, Graph._sequences g !! skey = Some s → sequence_key s = skey;
  so_node : ∀ loc node s, Graph.heap g !! loc = Some node → sequence node = Some s →
    key node ∈ sequence_keys s ∧ Graph._sequences g !! sequence_key s = Some s
}.

(** While the sequences of a payload are read: every hash of the tile is
    a hash of the graph. *)
Definition hashes_known (st : Graph.t * list (option SequenceHash)) : Prop :=
  Forall (λ o, ∃ sh skey, o = Some sh ∧ Graph._sequenceHashes st.1 !! skey = Some sh)
         st.2.

(** ** SequenceDOMRenderer: the sequence controls *)

Module SequenceDOMRenderer.

(** What a callback installed on a virtual node does when the browser
    calls it; the callbacks of the source are closures over the component,
    the interaction and the navigator. *)
Inductive handler : Type :=
| ComponentStop
| ComponentPlay
| NavigatorMoveDir (dir : EdgeDirection)
| MouseEnterDirection (dir : EdgeDirection)
| MouseLeaveDirection (dir : EdgeDirection).

(** The properties object handed to [vd.h]; a field is [None] when the
    object lacks it or holds [null]. *)
Record createProperties : Type := {
  onclick : option handler;
  onmouseenter : option handler;
  onmouseleave : option handler;
  style : option (list (string * string));
  textContent : option string
}.

Definition no_properties : createProperties :=
  {| onclick := None; onmouseenter := None; onmouseleave := None;
     style := None; textContent := None |}.

(** A virtual node as [vd.h(selector, properties, children)] builds it. *)
#[local] Unset Elimination Schemes.
Inductive VNode : Type :=
| h (selector : string) (properties : createProperties) (children : list VNode).
#[local] Set Elimination Schemes.

Definition selector_of (n : VNode) : string := let 'h s _ _ := n in s.
Definition properties_of (n : VNode) : createProperties := let 'h _ p _ := n in p.
Definition children_of (n : VNode) : list VNode := let 'h _ _ c := n in c.

(** Modelled from the spec: [ISequenceConfiguration] (declared in
    "../../Component", absent from the sources), as far as the renderer
    reads it; an [undefined] field is [None], and [playing] is read for its
    truth value only. *)
Record ISequenceConfiguration : Type := {
  visible : option bool;
  config_direction : option EdgeDirection;
  playing : bool;
  highlightKey : option string
}.

Section renderer.
(** The members [Next] and [Prev] of the enumeration [EdgeDirection]
    (declared in "../../Edge", absent from the sources). *)
Variables Next Prev : EdgeDirection.

Definition _getStepClassName (direction0 : EdgeDirection) (key0 : option string)
    (highlightKey0 : option string) : string :=
  let className :=
    if decide (direction0 = Next) then "SequenceStepNext" else "SequenceStepPrev" in
  match key0 with
  | None => className +:+ "Disabled"
  | Some k =>
      if bool_decide (highlightKey0 = Some k) then className +:+ "Highlight"
      else className
  end.

Definition _createPlayingButton (nextKey prevKey : option string)
    (configuration : ISequenceConfiguration) : VNode :=
  let canPlay :=
    bool_decide (config_direction configuration = Some Next)
      && bool_decide (is_Some nextKey)
    || bool_decide (config_direction configuration = Some Prev)
      && bool_decide (is_Some prevKey) in
  let onclick0 :=
    if playing configuration then Some ComponentStop
    else if canPlay then Some ComponentPlay else None in
  let buttonProperties :=
    {| onclick := onclick0; onmouseenter := None; onmouseleave := None;
       style := Some []; textContent := None |} in
  let buttonClass := if canPlay then "SequencePlay" else "SequencePlayDisabled" in
  let icon :=
    h "span"
      {| onclick := None; onmouseenter := None; onmouseleave := None; style := None;
         textContent := Some (if playing configuration then "s" else "p") |} [] in
  h ("div." +:+ buttonClass) buttonProperties [icon].

Definition _createSequenceArrows (nextKey prevKey : option string)
    (configuration : ISequenceConfiguration) : list VNode :=
  let nextProperties :=
    {| onclick := if bool_decide (is_Some nextKey) then Some (NavigatorMoveDir Next)
                  else None;
       onmouseenter := Some (MouseEnterDirection Next);
       onmouseleave := Some (MouseLeaveDirection Next);
       style := Some []; textContent := None |} in
  let prevProperties :=
    {| onclick := if bool_decide (is_Some prevKey) then Some (NavigatorMoveDir Prev)
                  else None;
       onmouseenter := Some (MouseEnterDirection Prev);
       onmouseleave := Some (MouseLeaveDirection Prev);
       style := Some []; textContent := None |} in
  let nextClass := _getStepClassName Next nextKey (highlightKey configuration) in
  let prevClass := _getStepClassName Prev prevKey (highlightKey configuration) in
  let nextIcon :=
    h "span" {| onclick := None; onmouseenter := None; onmouseleave := None;
                style := None; textContent := Some "n" |} [] in
  let prevIcon :=
    h "span" {| onclick := None; onmouseenter := None; onmouseleave := None;
                style := None; textContent := Some "p" |} [] in
  [h ("div." +:+ nextClass) nextProperties [nextIcon];
   h ("div." +:+ prevClass) prevProperties [prevIcon]].

(** The loop of [render] over the cached edges of the node. *)
Definition scan_edges (es : list IEdge) : option string * option string :=
  foldl (λ keys edge,
           (if decide (direction (data edge) = Next) then Some (to edge) else keys.1,
            if decide (direction (data edge) = Prev) then Some (to edge) else keys.2))
        (None, None) es.

Definition render (node : Node) (configuration : ISequenceConfiguration) :
    outcome VNode :=
  if bool_decide (visible configuration = Some false) then
    Ret (h "div.SequenceContainer" no_properties [])
  else
    match edges node with
    | None => Throw "TypeError: Cannot read property 'length' of null"
    | Some es =>
        let '(nextKey, prevKey) := scan_edges es in
        let playingButton := _createPlayingButton nextKey prevKey configuration in
        let arrows := _createSequenceArrows nextKey prevKey configuration in
        let containerProperties :=
          {| onclick := None; onmouseenter := None; onmouseleave := None;
             style := Some [("height", "30px"); ("width", "117px")];
             textContent := None |} in
        Ret (h "div.SequenceContainer" containerProperties (arrows ++ [playingButton]))
    end.

End renderer.
End SequenceDOMRenderer.

(** The graph after the example tile has been ingested while no tile was
    marked as loaded: both keys are tracked as unworthy. *)
Definition unswept : Graph.t :=
  match Graph.addNodesFromAPI (geo := flat_geo) (Some tile_payload) ∅ Graph.empty with
  | Ret g => g
  | Throw _ => Graph.empty
  end.

(** A node that has cached an edge of direction 0 to "b", and a
    configuration that plays in that direction; 0 and 1 stand for the
    members [Next] and [Prev] of [EdgeDirection]. *)
Definition cached_node : Node :=
  let node := new_Node 0%Q {| lat := 0%Q; lon := 0%Q |} true None
                (image "a" 0%Q 0%Q) ["t"] in
  cacheEdges [example_edge 0%N node "b"] node.

Definition forward : SequenceDOMRenderer.ISequenceConfiguration :=
  {| SequenceDOMRenderer.visible := Some true;
     SequenceDOMRenderer.config_direction := Some 0%N;
     SequenceDOMRenderer.playing := false;
     SequenceDOMRenderer.highlightKey := Some "b" |}.

(** Between calls the tracking dictionary holds [true] only, and it holds
    the key of every node of the graph that is not worthy yet. *)
Record tracking_ok (g : Graph.t) : Prop := {
  to_true : ∀ k v, Graph._unWorthyNodes g !! k = Some v → v = true;
  to_tracked : ∀ k loc node,
    Graph.getNode k g = Some loc → Graph.heap g !! loc = Some node →
    worthy node = false → tracked k g
}.

(** * Properties *)

(** ** Numbers *)

Lemma Qltb_lt (a b : Q) : Qltb a b = true ↔ (a < b)%Q.
Proof.
  unfold Qltb. rewrite negb_true_iff. split.
  - intros Hb. apply Qnot_le_lt. intros Hle.
    apply Qle_bool_iff in Hle. congruence.
  - intros Hlt. destruct (Qle_bool b a) eqn:E; [|done].
    apply Qle_bool_iff in E. exfalso. exact (Qlt_not_le _ _ Hlt E).
Qed.

Lemma Qltb_ge (a b : Q) : Qltb a b = false ↔ (b <= a)%Q.
Proof. unfold Qltb. rewrite negb_false_iff. apply Qle_bool_iff. Qed.

(** ** binary64 comparisons *)

Lemma SFcompare_refl (x : spec_float) :
  SFcompare x x = if float64.is_nan x then None else Some Eq.
Proof.
  destruct x as [s|s| |s m e]; simpl; try done.
  - by destruct s.
  - rewrite Z.compare_refl, Pos.compare_cont_refl. by destruct s.
Qed.


Lemma ltb_irrefl (x : spec_float) : float64.ltb x x = false.
Proof.
  unfold float64.ltb, SFltb. rewrite SFcompare_refl. by destruct (float64.is_nan x).
Qed.





(** ** Spatial.wrap *)

Section wrap_facts.
Import float64 Spatial.

Lemma wrap_loop_inside fuel value min max interval :
  ltb max value = false → ltb value min = false →
  wrap_loop (S fuel) value min max interval = Some value.
Proof. intros H1 H2. simpl. by rewrite H1, H2. Qed.

(** The loop is left only when both tests fail. *)
Lemma wrap_loop_range fuel : ∀ value min max interval v,
  wrap_loop fuel value min max interval = Some v →
  ltb max v = false ∧ ltb v min = false.
Proof.
  induction fuel as [|fuel IH]; intros value min max interval v; [done|].
  simpl. destruct (ltb max value) eqn:Habove; simpl.
  - apply IH.
  - destruct (ltb value min) eqn:Hbelow.
    + apply IH.
    + by intros [= <-].
Qed.

(** A value above [max] that the subtraction leaves as it is keeps the loop
    running for ever; so does a value below [min] that the addition leaves
    as it is. *)
Lemma wrap_loop_absorbed_above fuel value min max interval :
  ltb max value = true → sub value interval = value →
  wrap_loop fuel value min max interval = None.
Proof.
  intros Habove Hsub. induction fuel as [|fuel IH]; [done|].
  simpl. by rewrite Habove, Hsub.
Qed.

Lemma wrap_loop_absorbed_below fuel value min max interval :
  ltb max value = false → ltb value min = true → add value interval = value →
  wrap_loop fuel value min max interval = None.
Proof.
  intros Habove Hbelow Hadd. induction fuel as [|fuel IH]; [done|].
  simpl. by rewrite Habove, Hbelow, Hadd.
Qed.

Lemma wrap_returns fuel value min max v :
  wrap fuel value min max = Some (Ret v) →
  ltb max min = false ∧ wrap_loop fuel value min max (sub max min) = Some v.
Proof.
  unfold wrap. destruct (ltb max min); [done|].
  destruct (wrap_loop _ _ _ _ _) as [v'|]; [|done].
  by intros [= <-].
Qed.

Lemma wrap_absorbed_above fuel value min max :
  ltb max min = false → ltb max value = true → sub value (sub max min) = value →
  wrap fuel value min max = None.
Proof.
  intros Hguard Habove Hsub. unfold wrap. rewrite Hguard.
  by rewrite wrap_loop_absorbed_above.
Qed.

End wrap_facts.




(** C9: with [max = min] the guard [max < min] does not fire: [wrap(0, 0, 0)]
    returns 0, and no call with equal bounds throws. *)
Theorem wrap_equal_bounds_not_rejected :
  Spatial.wrap 1 (float64.of_Z 0) (float64.of_Z 0) (float64.of_Z 0) =
    Some (Ret (float64.of_Z 0)) ∧
  ∀ fuel value bound msg, Spatial.wrap fuel value bound bound ≠ Some (Throw msg).
Proof.
  split; [vm_compute; reflexivity|].
  intros fuel value bound msg. unfold Spatial.wrap.
  rewrite ltb_irrefl. by destruct (Spatial.wrap_loop _ _ _ _ _).
Qed.

(** With [max = min] the interval is 0 and a value off the bound stays
    where it is: [wrap(1, 0, 0)] never returns, whatever the fuel. *)
Lemma wrap_equal_bounds_diverges (fuel : nat) :
  Spatial.wrap fuel (float64.of_Z 1) (float64.of_Z 0) (float64.of_Z 0) = None.
Proof. apply wrap_absorbed_above; vm_compute; reflexivity. Qed.

(** With [max < min] the call throws, whatever the value. *)
Lemma wrap_reversed_bounds_throw fuel value min max :
  float64.ltb max min = true →
  Spatial.wrap fuel value min max =
    Some (Throw "Invalid arguments: max must be larger than min.").
Proof. intros Hlt. unfold Spatial.wrap. by rewrite Hlt. Qed.

(** ** NewGraph.fetch *)

(** What a call of [fetch] that returns has found and done. *)
Lemma fetch_returns (key0 : string) (w w' : NewGraph.world) :
  NewGraph.fetch key0 w = Ret w' →
  NewGraph.fetching key0 w = false ∧ NewGraph.hasNode key0 w = false ∧
  w' = {| NewGraph.this :=
            {| NewGraph._graph := NewGraph._graph (NewGraph.this w);
               NewGraph._fetching :=
                 <[key0 := true]> (NewGraph._fetching (NewGraph.this w));
               NewGraph._filling := NewGraph._filling (NewGraph.this w) |};
          NewGraph.heap := NewGraph.heap w;
          NewGraph.requests := NewGraph.requests w ++ [NewGraph.ImageByKeyFull key0];
          NewGraph.changed := NewGraph.changed w |}.
Proof.
  unfold NewGraph.fetch.
  destruct (NewGraph.fetching key0 w); [done|].
  destruct (NewGraph.hasNode key0 w); [done|].
  by intros [= <-].
Qed.

Lemma fetch_marks_fetching (key0 : string) (w w' : NewGraph.world) :
  NewGraph.fetch key0 w = Ret w' → NewGraph.fetching key0 w' = true.
Proof.
  intros (_ & _ & ->)%fetch_returns. unfold NewGraph.fetching. simpl.
  apply bool_decide_eq_true. rewrite lookup_insert_eq. by eexists.
Qed.

Lemma fetch_while_fetching (key0 : string) (w : NewGraph.world) :
  NewGraph.fetching key0 w = true → is_throw (NewGraph.fetch key0 w).
Proof. intros Hf. unfold NewGraph.fetch. by rewrite Hf. Qed.

(** C4: [fetch(key)] throws exactly when [key] is being fetched or a node
    with that key is in the graph; a call that returns marks the key as
    fetching, so a second call before completion throws. *)
Theorem fetch_throws_iff (key0 : string) (w : NewGraph.world) :
  (is_throw (NewGraph.fetch key0 w) ↔
     NewGraph.fetching key0 w = true ∨ NewGraph.hasNode key0 w = true) ∧
  (∀ w', NewGraph.fetch key0 w = Ret w' →
     NewGraph.fetching key0 w' = true ∧ is_throw (NewGraph.fetch key0 w')).
Proof.
  split.
  - unfold NewGraph.fetch.
    destruct (NewGraph.fetching key0 w), (NewGraph.hasNode key0 w); simpl;
      intuition congruence.
  - intros w' Hw'. pose proof (fetch_marks_fetching _ _ _ Hw') as Hf.
    split; [exact Hf|]. by apply fetch_while_fetching.
Qed.

(** The rejection of the promise of a request runs no callback. *)
Lemma settle_rejected {lib : NewGraph.NewNodeLib} (i : nat) (reason : string)
    (r : NewGraph.request) (w : NewGraph.world) :
  NewGraph.requests w !! i = Some r →
  NewGraph.settle i (NewGraph.Rejected reason) w =
    {| NewGraph.this := NewGraph.this w; NewGraph.heap := NewGraph.heap w;
       NewGraph.requests :=
         take i (NewGraph.requests w) ++ drop (S i) (NewGraph.requests w);
       NewGraph.changed := NewGraph.changed w |}.
Proof. intros Hr. unfold NewGraph.settle. by rewrite Hr. Qed.

(** C5, as stated, fails: after [fetch("k")] on a fresh graph and the
    rejection of its request, "k" is still fetching and cannot be fetched
    again. *)
Lemma fetch_rejected_counterexample :
  ∃ w1, NewGraph.fetch "k" NewGraph.empty = Ret w1 ∧
        NewGraph.requests w1 !! 0%nat = Some (NewGraph.ImageByKeyFull "k") ∧
        let w2 := NewGraph.settle (lib := refusing_nodes) 0
                    (NewGraph.Rejected "timeout") w1 in
        NewGraph.fetching "k" w2 = true ∧ is_throw (NewGraph.fetch "k" w2).
Proof. eexists. split; [reflexivity|]. split; [reflexivity|]. by vm_compute. Qed.

(** C5 (amended): when the request of [fetch(key)] is rejected, nothing of
    the graph changes and nothing is emitted: [key] stays fetching and a
    further [fetch(key)] throws. *)
Theorem fetch_rejected_keeps_fetching {lib : NewGraph.NewNodeLib} (key0 : string)
    (w w1 : NewGraph.world) (i : nat) (reason : string) :
  NewGraph.fetch key0 w = Ret w1 →
  NewGraph.requests w1 !! i = Some (NewGraph.ImageByKeyFull key0) →
  let w2 := NewGraph.settle i (NewGraph.Rejected reason) w1 in
  NewGraph.this w2 = NewGraph.this w1 ∧
  NewGraph.heap w2 = NewGraph.heap w1 ∧
  NewGraph.changed w2 = NewGraph.changed w ∧
  NewGraph.fetching key0 w2 = true ∧
  is_throw (NewGraph.fetch key0 w2).
Proof.
  intros Hfetch Hreq w2. subst w2. rewrite (settle_rejected _ _ _ _ Hreq).
  pose proof (fetch_marks_fetching _ _ _ Hfetch) as Hfetching.
  apply fetch_returns in Hfetch as (_ & _ & Hw1).
  assert (Hc : NewGraph.changed w1 = NewGraph.changed w) by (by subst w1).
  simpl. split; [done|]. split; [done|]. split; [done|]. split.
  - exact Hfetching.
  - by apply fetch_while_fetching.
Qed.

Lemma fetch_rejected_keeps_fetching_witness :
  ∃ w1, NewGraph.fetch "k" NewGraph.empty = Ret w1 ∧
        NewGraph.fetching "k"
          (NewGraph.settle (lib := refusing_nodes) 0 (NewGraph.Rejected "timeout") w1) = true.
Proof.
  eexists. split; [reflexivity|].
  refine (proj1 (proj2 (proj2 (proj2
    (fetch_rejected_keeps_fetching (lib := refusing_nodes) "k" NewGraph.empty _ 0
       "timeout" _ _))))).
  - reflexivity.
  - reflexivity.
Defined.

(** ** Graph._computeHs *)

Section coverage_facts.
Context {geo : GeoLib}.

(** The coverage set as a function of the four proximity tests. *)
Lemma _computeHs_unfold (p sw0 ne0 : ILatLon) (h : string) (nb : string → string) :
  let l := Qltb ((enu p sw0).1.1 - 0) 20 in
  let r := Qltb ((enu ne0 sw0).1.1 - (enu p sw0).1.1) 20 in
  let b := Qltb ((enu p sw0).1.2 - 0) 20 in
  let t := Qltb ((enu ne0 sw0).1.2 - (enu p sw0).1.2) 20 in
  Graph._computeHs p sw0 ne0 h nb =
    [h] ++ (if t then [nb "n"] else []) ++ (if t && l then [nb "nw"] else [])
        ++ (if l then [nb "w"] else []) ++ (if l && b then [nb "sw"] else [])
        ++ (if b then [nb "s"] else []) ++ (if b && r then [nb "se"] else [])
        ++ (if r then [nb "e"] else []) ++ (if r && t then [nb "ne"] else []).
Proof.
  intros l r b t. subst l r b t. unfold Graph._computeHs, enu. cbn [fst snd].
  repeat match goal with
         | |- context [Qltb ?x ?y] => destruct (Qltb x y)
         end; reflexivity.
Qed.

Lemma elem_of_optional (x y : string) (c : bool) :
  x ∈ (if c then [y] else []) ↔ c = true ∧ x = y.
Proof.
  destruct c.
  - rewrite list_elem_of_singleton. intuition.
  - split; [by intros ?%elem_of_nil | by intros [? _]].
Qed.

(** Membership in the coverage set, tile by tile. *)
Lemma elem_of_computeHs (x : string) (p sw0 ne0 : ILatLon) (h : string)
    (nb : string → string) :
  x ∈ Graph._computeHs p sw0 ne0 h nb ↔
    x = h ∨
    (near_north p sw0 ne0 ∧ x = nb "n") ∨
    ((near_north p sw0 ne0 ∧ near_west p sw0) ∧ x = nb "nw") ∨
    (near_west p sw0 ∧ x = nb "w") ∨
    ((near_west p sw0 ∧ near_south p sw0) ∧ x = nb "sw") ∨
    (near_south p sw0 ∧ x = nb "s") ∨
    ((near_south p sw0 ∧ near_east p sw0 ne0) ∧ x = nb "se") ∨
    (near_east p sw0 ne0 ∧ x = nb "e") ∨
    ((near_east p sw0 ne0 ∧ near_north p sw0 ne0) ∧ x = nb "ne").
Proof.
  rewrite _computeHs_unfold.
  rewrite !elem_of_app, !elem_of_optional, list_elem_of_singleton.
  rewrite !andb_true_iff.
  unfold near_north, near_west, near_south, near_east.
  by rewrite !Qltb_lt.
Qed.

End coverage_facts.

(** C7: the coverage set contains the home tile; it contains the neighbour
    across each boundary the position is within the threshold of; and, the
    nine tiles being distinct, it contains a neighbour exactly when the
    position is near that boundary, a diagonal neighbour exactly when it is
    near both boundaries of that corner. *)
Theorem computeHs_coverage {geo : GeoLib} (p sw0 ne0 : ILatLon) (h : string)
    (nb : string → string) :
  let hs0 := Graph._computeHs p sw0 ne0 h nb in
  h ∈ hs0 ∧
  (near_north p sw0 ne0 → nb "n" ∈ hs0) ∧
  (near_west p sw0 → nb "w" ∈ hs0) ∧
  (near_south p sw0 → nb "s" ∈ hs0) ∧
  (near_east p sw0 ne0 → nb "e" ∈ hs0) ∧
  (NoDup [h; nb "n"; nb "nw"; nb "w"; nb "sw"; nb "s"; nb "se"; nb "e"; nb "ne"] →
   (nb "n" ∈ hs0 ↔ near_north p sw0 ne0) ∧
   (nb "w" ∈ hs0 ↔ near_west p sw0) ∧
   (nb "s" ∈ hs0 ↔ near_south p sw0) ∧
   (nb "e" ∈ hs0 ↔ near_east p sw0 ne0) ∧
   (nb "nw" ∈ hs0 ↔ near_north p sw0 ne0 ∧ near_west p sw0) ∧
   (nb "sw" ∈ hs0 ↔ near_south p sw0 ∧ near_west p sw0) ∧
   (nb "se" ∈ hs0 ↔ near_south p sw0 ∧ near_east p sw0 ne0) ∧
   (nb "ne" ∈ hs0 ↔ near_north p sw0 ne0 ∧ near_east p sw0 ne0)).
Proof.
  intros hs0. subst hs0. rewrite !elem_of_computeHs.
  split; [by left|].
  do 4 (split; [tauto|]).
  intros Hd. rewrite !NoDup_cons, !not_elem_of_cons in Hd. destruct_and!.
  repeat split; intros; destruct_or?; destruct_and?; solve [done | tauto].
Qed.

Lemma computeHs_coverage_witness :
  let p := {| lat := 0.0005%Q; lon := 0.0001%Q |} in
  let b := geohash_bounds (GeoLib := flat_geo) "t" in
  let nb := geohash_neighbours (GeoLib := flat_geo) "t" in
  NoDup ["t"; nb "n"; nb "nw"; nb "w"; nb "sw"; nb "s"; nb "se"; nb "e"; nb "ne"] ∧
  (nb "w" ∈ Graph._computeHs (geo := flat_geo) p (sw b) (ne b) "t" nb ↔
     near_west (geo := flat_geo) p (sw b)).
Proof.
  intros p b nb.
  assert (Hd : NoDup ["t"; nb "n"; nb "nw"; nb "w"; nb "sw"; nb "s"; nb "se";
                      nb "e"; nb "ne"]) by (apply (bool_decide_unpack _); vm_compute; exact I).
  split; [exact Hd|].
  destruct (computeHs_coverage (geo := flat_geo) p (sw b) (ne b) "t" nb)
    as (_ & _ & _ & _ & _ & Hiff).
  destruct (Hiff Hd) as (_ & Hw & _). exact Hw.
Defined.

(** ** Ingestion, phase by phase *)

Section ingestion_facts.
Context {geo : GeoLib}.

Lemma all_loaded_covered (tiles : gmap string bool) (hs0 : list string) :
  Graph.all_loaded tiles hs0 = true ↔ Forall (loaded tiles) hs0.
Proof.
  unfold Graph.all_loaded.
  assert (Hgen : ∀ acc,
    foldl (λ worthy0 h, worthy0 && default false (tiles !! h)) acc hs0 = true
    ↔ acc = true ∧ Forall (loaded tiles) hs0).
  { induction hs0 as [|h hs0 IH]; intros acc; simpl.
    - split; [intros ->; by split | by intros [-> _]].
    - rewrite IH, andb_true_iff, Forall_cons. unfold loaded.
      destruct (tiles !! h) as [[]|]; simpl; intuition congruence. }
  rewrite Hgen. intuition.
Qed.

(** *** Sequences *)

Lemma add_sequence_frame st s :
  Graph._graph (Graph.add_sequence st s).1 = Graph._graph st.1 ∧
  Graph._nodeIndex (Graph.add_sequence st s).1 = Graph._nodeIndex st.1 ∧
  Graph._unWorthyNodes (Graph.add_sequence st s).1 = Graph._unWorthyNodes st.1 ∧
  Graph.heap (Graph.add_sequence st s).1 = Graph.heap st.1.
Proof. destruct st as [g l]. unfold Graph.add_sequence. by case_bool_decide. Qed.

Lemma add_sequence_hashes st s : hashes_ok st → hashes_ok (Graph.add_sequence st s).
Proof.
  destruct st as [g l]. intros [Hh Hl]. unfold Graph.add_sequence.
  case_bool_decide as Hs; split; simpl.
  - done.
  - apply Forall_app. split; [done|]. apply Forall_singleton. by apply Hh.
  - intros skey. destruct (decide (s_key s = skey)) as [->|Hne].
    + by rewrite !lookup_insert_eq.
    + rewrite !lookup_insert_ne by done. apply Hh.
  - apply Forall_app. split; [done|]. by apply Forall_singleton.
Qed.

Lemma add_sequences_spec ss : ∀ st,
  hashes_ok st →
  let st' := foldl Graph.add_sequence st ss in
  hashes_ok st' ∧
  Graph._graph st'.1 = Graph._graph st.1 ∧
  Graph._nodeIndex st'.1 = Graph._nodeIndex st.1 ∧
  Graph._unWorthyNodes st'.1 = Graph._unWorthyNodes st.1 ∧
  Graph.heap st'.1 = Graph.heap st.1.
Proof.
  induction ss as [|s ss IH]; intros st Hok; simpl; [done|].
  destruct (IH (Graph.add_sequence st s) (add_sequence_hashes _ _ Hok))
    as (Hok' & Hg & Hi & Hu & Hh).
  destruct (add_sequence_frame st s) as (Hg0 & Hi0 & Hu0 & Hh0).
  split; [done|]. by rewrite Hg, Hi, Hu, Hh.
Qed.

Lemma find_sequence_returns k hSequenceHashes :
  Forall is_Some hSequenceHashes → ∃ s, Graph.find_sequence k hSequenceHashes = Ret s.
Proof.
  induction 1 as [|o l [ts ->] _ IH]; simpl; [by eexists|].
  destruct (ts !! k); [by eexists|done].
Qed.

(** *** Node objects *)

Lemma make_node_spec bounds h nb hsh g nodes im :
  Forall is_Some hsh →
  ∃ node,
    Graph.make_node bounds h nb hsh (g, nodes) im =
      Ret (Graph.set_unWorthyNodes (<[im_key im := true]> (Graph._unWorthyNodes g))
             (Graph.set_heap (Graph.heap g ++ [node]) g),
           nodes ++ [length (Graph.heap g)]) ∧
    key node = im_key im ∧ worthy node = false.
Proof.
  intros Hh. unfold Graph.make_node.
  destruct (find_sequence_returns (im_key im) _ Hh) as [s ->]. simpl.
  by eexists.
Qed.

Lemma make_nodes_spec bounds h nb hsh ims : ∀ g nodes,
  Forall is_Some hsh →
  ∃ g2 news,
    Graph.make_nodes bounds h nb hsh ims (g, nodes) =
      Ret (g2, nodes ++ seq (length (Graph.heap g)) (length ims)) ∧
    Graph._sequences g2 = Graph._sequences g ∧
    Graph._sequenceHashes g2 = Graph._sequenceHashes g ∧
    Graph._graph g2 = Graph._graph g ∧
    Graph._nodeIndex g2 = Graph._nodeIndex g ∧
    Graph.heap g2 = Graph.heap g ++ news ∧
    Forall2 (λ im node, key node = im_key im ∧ worthy node = false) ims news ∧
    ∀ k, Graph._unWorthyNodes g2 !! k =
           if bool_decide (k ∈ im_key <$> ims) then Some true
           else Graph._unWorthyNodes g !! k.
Proof.
  induction ims as [|im ims IH]; intros g nodes Hh.
  - exists g, []. simpl. rewrite !app_nil_r. repeat split; done.
  - destruct (make_node_spec bounds h nb hsh g nodes im Hh) as (node & Hmk & Hk & Hw).
    cbn [Graph.make_nodes]. rewrite Hmk. cbn [mbind outcome_bind].
    set (g1 := Graph.set_unWorthyNodes _ _).
    destruct (IH g1 (nodes ++ [length (Graph.heap g)]) Hh)
      as (g2 & news & Hrun & Hs & Hsh & Hg & Hi & Hheap & Hnew & Hu).
    exists g2, (node :: news). rewrite Hrun.
    assert (Hh1 : Graph.heap g1 = Graph.heap g ++ [node]) by done.
    split.
    { rewrite Hh1, length_app, <- app_assoc. simpl.
      by rewrite Nat.add_1_r. }
    split; [done|]. split; [done|]. split; [done|]. split; [done|].
    split. { by rewrite Hheap, Hh1, <- app_assoc. }
    split. { by apply Forall2_cons. }
    intros k. rewrite Hu. subst g1.
    cbn [Graph.set_unWorthyNodes Graph._unWorthyNodes]. rewrite fmap_cons.
    destruct (decide (k = im_key im)) as [->|Hne].
    + rewrite lookup_insert_eq.
      rewrite (bool_decide_eq_true_2 (im_key im ∈ im_key im :: _)) by left.
      by case_bool_decide.
    + rewrite lookup_insert_ne by done.
      do 2 case_bool_decide; try done; exfalso;
        rewrite elem_of_cons in *; intuition.
Qed.

(** *** Insertion *)

Lemma node_setNode k k' loc gr :
  graphlib.node k (graphlib.setNode k' loc gr) =
    if decide (k' = k) then Some loc else graphlib.node k gr.
Proof.
  unfold graphlib.node, graphlib.setNode. simpl.
  case_decide as Hk; [subst; by rewrite lookup_insert_eq|].
  by rewrite lookup_insert_ne.
Qed.

Lemma insertNode_present loc node g :
  Graph.heap g !! loc = Some node → is_Some (Graph.getNode (key node) g) →
  Graph._insertNode loc g = g.
Proof. intros Hn [l Hl]. unfold Graph._insertNode. by rewrite Hn, Hl. Qed.

Lemma insertNode_frame loc g :
  Graph._sequences (Graph._insertNode loc g) = Graph._sequences g ∧
  Graph._sequenceHashes (Graph._insertNode loc g) = Graph._sequenceHashes g ∧
  Graph._unWorthyNodes (Graph._insertNode loc g) = Graph._unWorthyNodes g ∧
  Graph.heap (Graph._insertNode loc g) = Graph.heap g.
Proof.
  unfold Graph._insertNode. destruct (Graph.heap g !! loc); [|done].
  by destruct (Graph.getNode _ g).
Qed.

Lemma insertNode_getNode loc g k :
  Graph.getNode k (Graph._insertNode loc g) =
    match Graph.getNode k g with
    | Some l => Some l
    | None =>
        match Graph.heap g !! loc with
        | Some node => if decide (key node = k) then Some loc else None
        | None => None
        end
    end.
Proof.
  unfold Graph._insertNode. destruct (Graph.heap g !! loc) as [node|] eqn:Hn.
  - destruct (Graph.getNode (key node) g) as [l|] eqn:Hl.
    + destruct (Graph.getNode k g) eqn:Hk; [done|].
      case_decide; [congruence|done].
    + unfold Graph.getNode in *. simpl. rewrite node_setNode.
      case_decide as Hk; [subst; by rewrite Hl|].
      by destruct (graphlib.node k _).
  - by destruct (Graph.getNode k g).
Qed.

Lemma insertNodes_frame ns : ∀ g,
  Graph._sequences (Graph._insertNodes ns g) = Graph._sequences g ∧
  Graph._sequenceHashes (Graph._insertNodes ns g) = Graph._sequenceHashes g ∧
  Graph._unWorthyNodes (Graph._insertNodes ns g) = Graph._unWorthyNodes g ∧
  Graph.heap (Graph._insertNodes ns g) = Graph.heap g.
Proof.
  induction ns as [|loc ns IH]; intros g; [done|].
  unfold Graph._insertNodes in *. simpl.
  destruct (IH (Graph._insertNode loc g)) as (-> & -> & -> & ->).
  apply insertNode_frame.
Qed.

Lemma insertNodes_present ns : ∀ g,
  Forall (λ loc, ∃ node, Graph.heap g !! loc = Some node ∧
                         is_Some (Graph.getNode (key node) g)) ns →
  Graph._insertNodes ns g = g.
Proof.
  induction ns as [|loc ns IH]; intros g Hns; [done|].
  apply Forall_cons in Hns as [(node & Hn & Hk) Hns].
  unfold Graph._insertNodes in *. simpl.
  rewrite (insertNode_present _ _ _ Hn Hk). by apply IH.
Qed.

Lemma insertNodes_mono ns : ∀ g k l,
  Graph.getNode k g = Some l → Graph.getNode k (Graph._insertNodes ns g) = Some l.
Proof.
  induction ns as [|loc ns IH]; intros g k l Hk; [done|].
  unfold Graph._insertNodes in *. simpl. apply IH.
  by rewrite insertNode_getNode, Hk.
Qed.

Lemma insertNodes_in ns : ∀ g loc node,
  loc ∈ ns → Graph.heap g !! loc = Some node →
  is_Some (Graph.getNode (key node) (Graph._insertNodes ns g)).
Proof.
  induction ns as [|loc' ns IH]; intros g loc node Hin Hn.
  - by apply elem_of_nil in Hin.
  - unfold Graph._insertNodes in *. simpl.
    apply elem_of_cons in Hin as [->|Hin].
    + assert (Hk : is_Some (Graph.getNode (key node) (Graph._insertNode loc' g))).
      { rewrite insertNode_getNode, Hn.
        destruct (Graph.getNode (key node) g); [by eexists|].
        rewrite decide_True by done. by eexists. }
      destruct Hk as [l Hl]. exists l. by apply (insertNodes_mono ns).
    + apply (IH _ loc); [done|].
      by destruct (insertNode_frame loc' g) as (_ & _ & _ & ->).
Qed.

Lemma insertNode_keyed loc g : keyed g → keyed (Graph._insertNode loc g).
Proof.
  intros Hk k l. rewrite insertNode_getNode.
  destruct (insertNode_frame loc g) as (_ & _ & _ & ->).
  destruct (Graph.getNode k g) as [l'|] eqn:Hl.
  - intros [= <-]. by apply Hk.
  - destruct (Graph.heap g !! loc) as [node|] eqn:Hn; [|done].
    case_decide; [|done]. intros [= <-]. by exists node.
Qed.

Lemma insertNodes_keyed ns : ∀ g, keyed g → keyed (Graph._insertNodes ns g).
Proof.
  induction ns as [|loc ns IH]; intros g Hk; [done|].
  unfold Graph._insertNodes in *. simpl. by apply IH, insertNode_keyed.
Qed.

(** *** The sweep of [_makeNodesWorthy] *)

Lemma sweep_frame_refl ks st : sweep_inv st.1 → sweep_frame ks st st.
Proof. intros Hinv. split; auto. Qed.

Lemma sweep_frame_trans ks1 ks2 a b c :
  sweep_frame ks1 a b → sweep_frame ks2 b c → sweep_frame (ks1 ++ ks2) a c.
Proof.
  intros [] []. split.
  - congruence.
  - congruence.
  - congruence.
  - congruence.
  - done.
  - intros k0 Hk0. apply not_elem_of_app in Hk0 as [Hk1 Hk2].
    destruct (sf_other0 k0 Hk1) as (Hu1 & Hw1 & Hh1).
    destruct (sf_other1 k0 Hk2) as (Hu2 & Hw2 & Hh2).
    split; [congruence|]. split; [by rewrite Hw2|].
    intros loc0 Hloc. rewrite <- (Hh1 _ Hloc). apply Hh2.
    unfold Graph.getNode in *. by rewrite sf_graph0.
  - auto.
  - intros loc node Hn.
    destruct (sf_heap0 _ _ Hn) as [Hb|Hb]; destruct (sf_heap1 _ _ Hb) as [Hc|Hc]; auto.
Qed.

(** A single round: it returns, and what it does at its key. *)
Lemma makeWorthy_round_spec tiles g wk k :
  sweep_inv g →
  ∃ st', Graph.makeWorthy_round tiles (g, wk) k = Ret st' ∧
         sweep_frame [k] (g, wk) st' ∧
         ∀ loc node,
           Graph._unWorthyNodes g !! k = Some true →
           Graph.getNode k g = Some loc → Graph.heap g !! loc = Some node →
           if Graph.all_loaded tiles (hs node) then
             Graph.heap st'.1 !! loc = Some (makeWorthy node) ∧ k ∈ st'.2
           else
             st' = (g, wk).
Proof.
  intros Hinv. pose proof Hinv as [Htr Hkeyed]. unfold Graph.makeWorthy_round.
  destruct (Graph._unWorthyNodes g !! k) as [[]|] eqn:Hu.
  - destruct (Htr k) as [loc Hloc]; [by rewrite Hu|]. rewrite Hloc.
    destruct (Hkeyed _ _ Hloc) as (node & Hn & Hkey). rewrite Hn.
    destruct (Graph.all_loaded tiles (hs node)) eqn:Hall.
    + eexists. split; [done|]. split.
      * split; simpl; try done.
        -- split.
           ++ intros k1 Hk1. simpl in *. apply Htr.
              destruct (decide (k = k1)) as [<-|Hne]; [by rewrite Hu|].
              by rewrite lookup_insert_ne in Hk1.
           ++ intros k1 loc1 Hloc1. simpl in *. destruct (Hkeyed _ _ Hloc1) as (n1 & Hn1 & Hk1).
              destruct (decide (loc = loc1)) as [<-|Hne].
              ** exists (makeWorthy node). split.
                 { apply list_lookup_insert_eq. by eapply lookup_lt_Some. }
                 rewrite Hn in Hn1. injection Hn1 as <-. exact Hk1.
              ** exists n1. by rewrite list_lookup_insert_ne.
        -- intros k0 Hk0. apply not_elem_of_cons in Hk0 as [Hk0 _].
           split; [by rewrite lookup_insert_ne|].
           split.
           { rewrite elem_of_app, list_elem_of_singleton. intuition. }
           intros loc0 Hloc0. apply list_lookup_insert_ne. intros <-.
           destruct (Hkeyed _ _ Hloc0) as (n0 & Hn0 & Hkey0). congruence.
        -- intros k0 Hk0. apply elem_of_app. by left.
        -- intros loc1 n1 Hn1. destruct (decide (loc = loc1)) as [<-|Hne].
           ++ right. rewrite list_lookup_insert_eq by (by eapply lookup_lt_Some).
              congruence.
           ++ left. by rewrite list_lookup_insert_ne.
      * intros loc' node' _ [= <-] Hn'. rewrite Hn in Hn'. injection Hn' as <-.
        rewrite Hall. simpl. split.
        -- apply list_lookup_insert_eq. by eapply lookup_lt_Some.
        -- apply elem_of_app. right. by apply list_elem_of_singleton.
    + eexists. split; [done|]. split; [by apply sweep_frame_refl|].
      intros loc' node' _ [= <-] Hn'. rewrite Hn in Hn'. injection Hn' as <-.
      by rewrite Hall.
  - eexists. split; [done|]. split; [|done].
    split; simpl; try done; auto.
    + intros k0 Hk0. apply not_elem_of_cons in Hk0 as [Hk0 _].
      split; [done|]. split; [|done].
      rewrite elem_of_app, list_elem_of_singleton. intuition.
    + intros k0 Hk0. apply elem_of_app. by left.
  - eexists. split; [done|]. split; [by apply sweep_frame_refl|done].
Qed.

Lemma makeWorthy_rounds_app tiles ks1 ks2 st :
  Graph.makeWorthy_rounds tiles (ks1 ++ ks2) st =
    Graph.makeWorthy_rounds tiles ks1 st ≫= Graph.makeWorthy_rounds tiles ks2.
Proof.
  revert st. induction ks1 as [|k ks1 IH]; intros st; [done|]. simpl.
  destruct (Graph.makeWorthy_round tiles st k); [|done]. simpl. apply IH.
Qed.

(** The rounds return and leave alone what belongs to other keys. *)
Lemma makeWorthy_rounds_frame tiles ks : ∀ st,
  sweep_inv st.1 →
  ∃ st', Graph.makeWorthy_rounds tiles ks st = Ret st' ∧ sweep_frame ks st st'.
Proof.
  induction ks as [|k ks IH]; intros [g wk] Hinv.
  - exists (g, wk). split; [done|]. by apply sweep_frame_refl.
  - destruct (makeWorthy_round_spec tiles g wk k Hinv) as (st1 & Hrun1 & Hf1 & _).
    destruct (IH st1 (sf_inv _ _ _ Hf1)) as (st' & Hrun & Hf).
    exists st'. simpl in *. rewrite Hrun1. simpl. split; [done|].
    by apply (sweep_frame_trans [k] ks _ st1).
Qed.

(** What the rounds do at one of their keys. *)
Lemma makeWorthy_rounds_at tiles ks g k loc node :
  NoDup ks → k ∈ ks → sweep_inv g →
  Graph._unWorthyNodes g !! k = Some true →
  Graph.getNode k g = Some loc → Graph.heap g !! loc = Some node →
  ∃ st', Graph.makeWorthy_rounds tiles ks (g, []) = Ret st' ∧
         sweep_frame ks (g, []) st' ∧
         if Graph.all_loaded tiles (hs node) then
           Graph.heap st'.1 !! loc = Some (makeWorthy node) ∧ k ∈ st'.2
         else
           Graph.heap st'.1 !! loc = Some node ∧
           Graph._unWorthyNodes st'.1 !! k = Some true ∧ k ∉ st'.2.
Proof.
  intros Hnd Hin Hinv Hu Hloc Hn.
  apply list_elem_of_split in Hin as (ks1 & ks2 & ->).
  apply NoDup_app in Hnd as (_ & Hk1 & Hnd2).
  apply NoDup_cons in Hnd2 as [Hk2 _].
  assert (Hnot1 : k ∉ ks1) by (intros Hin; apply (Hk1 _ Hin); by left).
  destruct (makeWorthy_rounds_frame tiles ks1 (g, []) Hinv) as ([g1 wk1] & Hrun1 & Hf1).
  destruct (sf_other _ _ _ Hf1 k Hnot1) as (Hu1 & Hw1 & Hh1). simpl in *.
  assert (Hloc1 : Graph.getNode k g1 = Some loc).
  { pose proof (sf_graph _ _ _ Hf1) as Hg1. simpl in Hg1.
    unfold Graph.getNode. by rewrite Hg1. }
  destruct (makeWorthy_round_spec tiles g1 wk1 k (sf_inv _ _ _ Hf1))
    as (st2 & Hrun2 & Hf2 & Hat).
  destruct (makeWorthy_rounds_frame tiles ks2 st2 (sf_inv _ _ _ Hf2))
    as (st' & Hrun & Hf).
  exists st'. split.
  { rewrite makeWorthy_rounds_app, Hrun1.
    cbn [mbind outcome_bind Graph.makeWorthy_rounds]. rewrite Hrun2.
    exact Hrun. }
  split.
  { apply (sweep_frame_trans ks1 (k :: ks2) _ (g1, wk1)); [done|].
    by apply (sweep_frame_trans [k] ks2 _ st2). }
  destruct (sf_other _ _ _ Hf k Hk2) as (Hu' & Hw' & Hh').
  assert (Hloc2 : Graph.getNode k st2.1 = Some loc).
  { pose proof (sf_graph _ _ _ Hf2) as Hg2. simpl in Hg2.
    unfold Graph.getNode in *. by rewrite Hg2. }
  specialize (Hat loc node). rewrite Hu1, Hh1 in Hat by done.
  specialize (Hat Hu Hloc1 Hn). rewrite (Hh' _ Hloc2), Hu'.
  destruct (Graph.all_loaded tiles (hs node)).
  - destruct Hat as [Hheap Hwk]. split; [done|]. by apply Hw'.
  - subst st2. simpl in *.
    rewrite Hu1, Hh1 by done. split; [done|]. split; [done|].
    rewrite Hw', Hw1. by intros ?%elem_of_nil.
Qed.

(** The sweep promotes nodes of the graph only. *)
Lemma makeWorthy_round_worthy tiles g wk k st' :
  sweep_inv g → worthy_in_graph g →
  Graph.makeWorthy_round tiles (g, wk) k = Ret st' → worthy_in_graph st'.1.
Proof.
  intros [Htr Hkeyed] Hworthy. unfold Graph.makeWorthy_round.
  destruct (Graph._unWorthyNodes g !! k) as [[]|]; [|by intros [= <-]..].
  destruct (Graph.getNode k g) as [loc|] eqn:Hloc; [|done].
  destruct (Hkeyed _ _ Hloc) as (node & Hn & Hkey). rewrite Hn.
  destruct (Graph.all_loaded tiles (hs node)); [|by intros [= <-]].
  intros [= <-] loc1 node1. simpl.
  change (Graph.getNode (key node1) (Graph.set_unWorthyNodes _ (Graph.set_heap _ g)))
    with (Graph.getNode (key node1) g).
  destruct (decide (loc = loc1)) as [<-|Hne].
  - rewrite list_lookup_insert_eq by (by eapply lookup_lt_Some).
    intros [= <-] _. change (key (makeWorthy node)) with (key node). by rewrite Hkey.
  - rewrite list_lookup_insert_ne by done. apply Hworthy.
Qed.

Lemma makeWorthy_rounds_worthy tiles ks : ∀ st st',
  sweep_inv st.1 → worthy_in_graph st.1 →
  Graph.makeWorthy_rounds tiles ks st = Ret st' → worthy_in_graph st'.1.
Proof.
  induction ks as [|k ks IH]; intros [g wk] st' Hinv Hworthy; [by intros [= <-]|].
  cbn [Graph.makeWorthy_rounds].
  destruct (makeWorthy_round_spec tiles g wk k Hinv) as (st1 & Hrun1 & Hf1 & _).
  rewrite Hrun1. cbn [mbind outcome_bind]. apply IH.
  - exact (sf_inv _ _ _ Hf1).
  - exact (makeWorthy_round_worthy tiles g wk k st1 Hinv Hworthy Hrun1).
Qed.

Lemma lookup_foldl_delete (wk : list string) : ∀ (u : gmap string bool) k,
  foldl (λ u k, delete k u) u wk !! k =
    if bool_decide (k ∈ wk) then None else u !! k.
Proof.
  induction wk as [|k' wk IH]; intros u k; cbn [foldl].
  - by rewrite bool_decide_eq_false_2 by (by intros ?%elem_of_nil).
  - rewrite IH. destruct (decide (k = k')) as [->|Hne].
    + rewrite lookup_delete_eq.
      rewrite (bool_decide_eq_true_2 (k' ∈ k' :: wk)) by left.
      by case_bool_decide.
    + rewrite lookup_delete_ne by done.
      do 2 case_bool_decide; try done; exfalso;
        rewrite elem_of_cons in *; intuition.
Qed.

(** *** The whole call *)

Lemma makeNodesWorthy_run tiles g :
  sweep_inv g →
  ∃ st', Graph.makeWorthy_rounds tiles (map_to_list (Graph._unWorthyNodes g)).*1 (g, [])
           = Ret st' ∧
         sweep_frame (map_to_list (Graph._unWorthyNodes g)).*1 (g, []) st' ∧
         Graph._makeNodesWorthy tiles g =
           Ret (Graph.set_unWorthyNodes
                  (foldl (λ u k, delete k u) (Graph._unWorthyNodes st'.1) st'.2) st'.1).
Proof.
  intros Hinv.
  destruct (makeWorthy_rounds_frame tiles
              (map_to_list (Graph._unWorthyNodes g)).*1 (g, []) Hinv)
    as (st' & Hrun & Hf).
  exists st'. split; [done|]. split; [done|].
  unfold Graph._makeNodesWorthy, Graph._makeNodesWorthy_in. by rewrite Hrun.
Qed.

Lemma elem_of_keys (u : gmap string bool) k :
  k ∈ (map_to_list u).*1 ↔ is_Some (u !! k).
Proof.
  rewrite list_elem_of_fmap. split.
  - intros ([k' v] & -> & Hin). apply elem_of_map_to_list in Hin. by exists v.
  - intros [v Hv]. exists (k, v). split; [done|]. by apply elem_of_map_to_list.
Qed.

(** The state in which the sweep starts. *)
Lemma addNodesFromAPI_run d tiles g h :
  wf g → data_hs d !! 0%nat = Some h →
  ∃ g2 news,
    let g3 := Graph._insertNodes
                (seq (length (Graph.heap g)) (length (data_ims d))) g2 in
    Graph.addNodesFromAPI (Some d) tiles g = Graph._makeNodesWorthy tiles g3 ∧
    Graph._graph g2 = Graph._graph g ∧
    Graph._nodeIndex g2 = Graph._nodeIndex g ∧
    Graph.heap g2 = Graph.heap g ++ news ∧
    Forall2 (λ im node, key node = im_key im ∧ worthy node = false)
            (data_ims d) news ∧
    (∀ k, Graph._unWorthyNodes g2 !! k =
            if bool_decide (k ∈ im_key <$> data_ims d) then Some true
            else Graph._unWorthyNodes g !! k) ∧
    (∀ skey, is_Some (Graph._sequences g2 !! skey) →
             is_Some (Graph._sequenceHashes g2 !! skey)).
Proof.
  intros Hwf Hh. unfold Graph.addNodesFromAPI. rewrite Hh.
  assert (Hok : hashes_ok (g, [])) by (split; [apply Hwf|done]).
  destruct (add_sequences_spec (data_ss d) (g, []) Hok)
    as ([Hseq Hsome] & Hg1 & Hi1 & Hu1 & Hh1).
  destruct (foldl Graph.add_sequence (g, []) (data_ss d)) as [g1 hsh].
  simpl in *.
  destruct (make_nodes_spec (geohash_bounds h) h (geohash_neighbours h) hsh
              (data_ims d) g1 [] Hsome)
    as (g2 & news & Hrun & Hs2 & Hsh2 & Hg2 & Hi2 & Hheap2 & Hnew & Hu2).
  exists g2, news. rewrite Hrun. simpl. rewrite Hh1.
  split; [done|]. split; [congruence|]. split; [congruence|].
  split; [congruence|]. split; [done|].
  split. { intros k. by rewrite Hu2, Hu1. }
  intros skey. rewrite Hs2, Hsh2. apply Hseq.
Qed.

Lemma new_node_located (ims : list IAPINavImIm) (news old : list Node) k :
  Forall2 (λ im node, key node = im_key im ∧ worthy node = false) ims news →
  k ∈ im_key <$> ims →
  ∃ loc node, loc ∈ seq (length old) (length ims) ∧
              (old ++ news) !! loc = Some node ∧ key node = k.
Proof.
  intros Hnew Hk.
  apply list_elem_of_fmap in Hk as (im & -> & Him).
  apply list_elem_of_lookup in Him as [i Hi].
  destruct (Forall2_lookup_l _ _ _ _ _ Hnew Hi) as (node & Hnode & Hkey & _).
  exists (length old + i)%nat, node. split.
  - apply elem_of_seq. apply lookup_lt_Some in Hi. lia.
  - split; [|done]. rewrite lookup_app_r by lia.
    by replace (length old + i - length old)%nat with i by lia.
Qed.

Lemma sweep_inv_after_insert d g g2 news :
  wf g →
  Graph._graph g2 = Graph._graph g →
  Graph.heap g2 = Graph.heap g ++ news →
  Forall2 (λ im node, key node = im_key im ∧ worthy node = false)
          (data_ims d) news →
  (∀ k, Graph._unWorthyNodes g2 !! k =
          if bool_decide (k ∈ im_key <$> data_ims d) then Some true
          else Graph._unWorthyNodes g !! k) →
  sweep_inv (Graph._insertNodes
               (seq (length (Graph.heap g)) (length (data_ims d))) g2).
Proof.
  intros Hwf Hg2 Hheap Hnew Hu. split.
  - intros k. destruct (insertNodes_frame (seq (length (Graph.heap g))
                          (length (data_ims d))) g2) as (_ & _ & -> & _).
    rewrite Hu. case_bool_decide as Hk.
    + intros _.
      destruct (new_node_located _ _ (Graph.heap g) k Hnew Hk)
        as (loc & node & Hloc & Hnode & <-).
      apply (insertNodes_in _ _ loc); [done|]. by rewrite Hheap.
    + intros Hsome. destruct (wf_tracked _ Hwf k Hsome) as [l Hl].
      exists l. apply insertNodes_mono. unfold Graph.getNode in *. by rewrite Hg2.
  - apply insertNodes_keyed. intros k loc Hloc.
    unfold Graph.getNode in Hloc. rewrite Hg2 in Hloc.
    destruct (wf_keyed _ Hwf k loc Hloc) as (node & Hn & Hk).
    exists node. split; [|done]. rewrite Hheap. by apply lookup_app_l_Some.
Qed.

Lemma worthy_in_graph_after_insert d g g2 news :
  wf g →
  Graph._graph g2 = Graph._graph g →
  Graph.heap g2 = Graph.heap g ++ news →
  Forall2 (λ im node, key node = im_key im ∧ worthy node = false)
          (data_ims d) news →
  worthy_in_graph (Graph._insertNodes
                     (seq (length (Graph.heap g)) (length (data_ims d))) g2).
Proof.
  intros Hwf Hg2 Hheap Hnew loc node.
  destruct (insertNodes_frame (seq (length (Graph.heap g)) (length (data_ims d))) g2)
    as (_ & _ & _ & ->).
  rewrite Hheap. intros Hn Hw.
  apply lookup_app_Some in Hn as [Hn|[_ Hn]].
  - apply insertNodes_mono. unfold Graph.getNode. rewrite Hg2.
    by apply (wf_worthy _ Hwf).
  - destruct (Forall2_lookup_r _ _ _ _ _ Hnew Hn) as (im & _ & _ & Hw').
    congruence.
Qed.

(** The call returns, keeps the invariant, and settles every key tracked
    when the sweep starts. *)
Lemma addNodesFromAPI_spec d tiles g :
  wf g → data_hs d ≠ [] →
  ∃ g', Graph.addNodesFromAPI (Some d) tiles g = Ret g' ∧
    wf g' ∧
    ∀ k, tracked k g ∨ k ∈ im_key <$> data_ims d →
      ∃ loc node node',
        Graph.getNode k g' = Some loc ∧ Graph.heap g' !! loc = Some node' ∧
        (Graph.heap g !! loc = Some node ∨
         Graph.heap g !! loc = None ∧ worthy node = false) ∧
        if Graph.all_loaded tiles (hs node) then
          node' = makeWorthy node ∧ Graph._unWorthyNodes g' !! k = None
        else
          node' = node ∧ Graph._unWorthyNodes g' !! k = Some true.
Proof.
  intros Hwf Hhs.
  destruct (data_hs d) as [|h rest] eqn:Hd; [done|].
  destruct (addNodesFromAPI_run d tiles g h Hwf) as
    (g2 & news & Hrun & Hg2 & Hi2 & Hheap2 & Hnew & Hu2 & Hseq2);
    [by rewrite Hd|].
  pose proof (sweep_inv_after_insert d g g2 news Hwf Hg2 Hheap2 Hnew Hu2) as Hinv.
  cbv zeta in Hrun.
  set (g3 := Graph._insertNodes _ g2) in *.
  destruct (insertNodes_frame (seq (length (Graph.heap g)) (length (data_ims d))) g2)
    as (Hs3 & Hsh3 & Hu3 & Hheap3). fold g3 in Hs3, Hsh3, Hu3, Hheap3.
  destruct (makeNodesWorthy_run tiles g3 Hinv) as (st' & Hrounds & Hframe & Hsweep).
  eexists. split; [by rewrite Hrun, Hsweep|]. split.
  { destruct (sf_inv _ _ _ Hframe) as [Htr Hkeyed]. split; simpl.
    - intros k Hk. apply Htr. rewrite lookup_foldl_delete in Hk.
      by case_bool_decide.
    - exact Hkeyed.
    - rewrite (sf_sequences _ _ _ Hframe), (sf_hashes _ _ _ Hframe). simpl.
      rewrite Hs3, Hsh3. exact Hseq2.
    - apply (makeWorthy_rounds_worthy tiles
               (map_to_list (Graph._unWorthyNodes g3)).*1 (g3, []) st');
        [done| |done].
      exact (worthy_in_graph_after_insert d g g2 news Hwf Hg2 Hheap2 Hnew). }
  intros k Hk.
  assert (Hu : Graph._unWorthyNodes g3 !! k = Some true).
  { rewrite Hu3, Hu2. case_bool_decide; [done|]. by destruct Hk. }
  destruct Hinv as [Htr Hkeyed].
  destruct (Htr k) as [loc Hloc]; [by rewrite Hu|].
  destruct (Hkeyed _ _ Hloc) as (node & Hn & Hkey).
  destruct (makeWorthy_rounds_at tiles _ g3 k loc node
              (NoDup_fst_map_to_list (Graph._unWorthyNodes g3)))
    as (st'' & Hrounds' & _ & Hat);
    [by apply elem_of_keys; rewrite Hu|by split|done|done|done|].
  rewrite Hrounds in Hrounds'. injection Hrounds' as <-.
  assert (Hloc' : Graph.getNode k st'.1 = Some loc).
  { unfold Graph.getNode in *. by rewrite (sf_graph _ _ _ Hframe). }
  assert (Hold : Graph.heap g !! loc = Some node ∨
                 Graph.heap g !! loc = None ∧ worthy node = false).
  { rewrite Hheap3, Hheap2 in Hn.
    apply lookup_app_Some in Hn as [Hn|[Hge Hn]]; [by left|right].
    split; [by apply lookup_ge_None|].
    destruct (Forall2_lookup_r _ _ _ _ _ Hnew Hn) as (im & _ & _ & Hw). exact Hw. }
  exists loc, node. simpl.
  destruct (Graph.all_loaded tiles (hs node)).
  - destruct Hat as [Hheap' Hwk]. eexists. split; [done|]. split; [done|].
    split; [done|]. split; [done|].
    rewrite lookup_foldl_delete. by rewrite bool_decide_eq_true_2.
  - destruct Hat as (Hheap' & Hu' & Hwk). eexists. split; [done|].
    split; [done|]. split; [done|]. split; [done|].
    rewrite lookup_foldl_delete. by rewrite bool_decide_eq_false_2.
Qed.

(** Keys that already have a node keep it, whatever is ingested; when the
    payload brings no new key, the graph and the index stay as they are. *)
Lemma addNodesFromAPI_present d tiles g :
  wf g → data_hs d ≠ [] →
  ∃ g', Graph.addNodesFromAPI (Some d) tiles g = Ret g' ∧
    (∀ k loc node,
       Graph.getNode k g = Some loc → Graph.heap g !! loc = Some node →
       Graph.getNode k g' = Some loc ∧
       (Graph.heap g' !! loc = Some node ∨
        Graph.heap g' !! loc = Some (makeWorthy node))) ∧
    (Forall (λ im, is_Some (Graph.getNode (im_key im) g)) (data_ims d) →
     Graph._graph g' = Graph._graph g ∧ Graph._nodeIndex g' = Graph._nodeIndex g).
Proof.
  intros Hwf Hhs.
  destruct (data_hs d) as [|h rest] eqn:Hd; [done|].
  destruct (addNodesFromAPI_run d tiles g h Hwf) as
    (g2 & news & Hrun & Hg2 & Hi2 & Hheap2 & Hnew & Hu2 & Hseq2);
    [by rewrite Hd|].
  pose proof (sweep_inv_after_insert d g g2 news Hwf Hg2 Hheap2 Hnew Hu2) as Hinv.
  cbv zeta in Hrun.
  set (ns := seq (length (Graph.heap g)) (length (data_ims d))) in *.
  destruct (insertNodes_frame ns g2) as (_ & _ & _ & Hheap3).
  destruct (makeNodesWorthy_run tiles _ Hinv) as (st' & _ & Hframe & Hsweep).
  eexists. split; [by rewrite Hrun, Hsweep|]. simpl. split.
  - intros k loc node Hloc Hn. split.
    + change (Graph.getNode k st'.1 = Some loc).
      unfold Graph.getNode. rewrite (sf_graph _ _ _ Hframe).
      apply insertNodes_mono. unfold Graph.getNode in *. by rewrite Hg2.
    + apply (sf_heap _ _ _ Hframe). simpl. rewrite Hheap3, Hheap2.
      by apply lookup_app_l_Some.
  - intros Hall.
    assert (Hsame : Graph._insertNodes ns g2 = g2).
    { apply insertNodes_present. apply Forall_forall. intros loc Hloc.
      apply elem_of_seq in Hloc.
      destruct (lookup_lt_is_Some_2 (data_ims d) (loc - length (Graph.heap g)))
        as [im Him]; [lia|].
      destruct (Forall2_lookup_l _ _ _ _ _ Hnew Him) as (node & Hnode & Hkey & _).
      exists node. split.
      - rewrite Hheap2, lookup_app_r by lia. exact Hnode.
      - rewrite Hkey. unfold Graph.getNode. rewrite Hg2.
        apply (proj1 (Forall_forall _ _) Hall). by eapply list_elem_of_lookup_2. }
    rewrite (sf_graph _ _ _ Hframe), (sf_index _ _ _ Hframe). simpl.
    rewrite Hsame. by split.
Qed.

Lemma wf_empty : wf Graph.empty.
Proof.
  split.
  - intros k [v Hv]. simpl in Hv. by rewrite lookup_empty in Hv.
  - intros k loc Hloc. unfold Graph.getNode, graphlib.node in Hloc. simpl in Hloc.
    by rewrite lookup_empty in Hloc.
  - intros skey [v Hv]. simpl in Hv. by rewrite lookup_empty in Hv.
  - intros loc node Hn. simpl in Hn. by rewrite lookup_nil in Hn.
Qed.

End ingestion_facts.

(** ** The sweep does not depend on the order of the keys *)

Section sweep_order.

(** The three ways a round can end. *)
Lemma makeWorthy_round_inv tiles g wk k st' :
  Graph.makeWorthy_round tiles (g, wk) k = Ret st' →
  (st' = (g, wk) ∧ Graph._unWorthyNodes g !! k ≠ Some false) ∨
  (st' = (g, wk ++ [k]) ∧ Graph._unWorthyNodes g !! k = Some false) ∨
  (∃ loc node,
     Graph._unWorthyNodes g !! k = Some true ∧ Graph.getNode k g = Some loc ∧
     Graph.heap g !! loc = Some node ∧ Graph.all_loaded tiles (hs node) = true ∧
     st' = (Graph.set_unWorthyNodes (<[k := false]> (Graph._unWorthyNodes g))
              (Graph.set_heap (<[loc := makeWorthy node]> (Graph.heap g)) g),
            wk ++ [k])).
Proof.
  unfold Graph.makeWorthy_round.
  destruct (Graph._unWorthyNodes g !! k) as [[]|] eqn:Hu.
  - destruct (Graph.getNode k g) as [loc|]; [|done].
    destruct (Graph.heap g !! loc) as [node|] eqn:Hn; [|done].
    destruct (Graph.all_loaded tiles (hs node)) eqn:Hall; intros [= <-].
    + right. right. by exists loc, node.
    + left. by split.
  - intros [= <-]. right. left. by split.
  - intros [= <-]. left. by split.
Qed.

Lemma makeWorthy_rounds_length tiles ks : ∀ st st',
  Graph.makeWorthy_rounds tiles ks st = Ret st' →
  length (Graph.heap st'.1) = length (Graph.heap st.1).
Proof.
  induction ks as [|k ks IH]; intros [g wk] st'; [by intros [= <-]|].
  cbn [Graph.makeWorthy_rounds].
  destruct (Graph.makeWorthy_round tiles (g, wk) k) as [st1|] eqn:Hround; [|done].
  cbn [mbind outcome_bind]. intros Hrun. rewrite (IH _ _ Hrun).
  apply makeWorthy_round_inv in Hround
    as [[-> _]|[[-> _]|(loc & node & _ & _ & _ & _ & ->)]]; [done..|].
  simpl. by rewrite length_insert.
Qed.

(** A value [false] at one of the keys puts the key on the list. *)
Lemma makeWorthy_rounds_false tiles ks g k st' :
  k ∈ ks → sweep_inv g → Graph._unWorthyNodes g !! k = Some false →
  Graph.makeWorthy_rounds tiles ks (g, []) = Ret st' → k ∈ st'.2.
Proof.
  intros Hin Hinv Hu.
  apply list_elem_of_split_l in Hin as (ks1 & ks2 & -> & Hnot1).
  rewrite makeWorthy_rounds_app.
  destruct (makeWorthy_rounds_frame tiles ks1 (g, []) Hinv) as ([g1 wk1] & -> & Hf1).
  cbn [mbind outcome_bind Graph.makeWorthy_rounds].
  destruct (sf_other _ _ _ Hf1 k Hnot1) as (Hu1 & _ & _). simpl in Hu1.
  destruct (Graph.makeWorthy_round tiles (g1, wk1) k) as [st2|] eqn:Hround; [|done].
  cbn [mbind outcome_bind]. intros Hrun.
  destruct (makeWorthy_rounds_frame tiles ks2 st2) as (st'' & Hrun' & Hf2).
  { destruct (makeWorthy_round_spec tiles g1 wk1 k (sf_inv _ _ _ Hf1))
      as (st2' & Hround' & Hf & _).
    rewrite Hround in Hround'. injection Hround' as <-. exact (sf_inv _ _ _ Hf). }
  rewrite Hrun in Hrun'. injection Hrun' as <-.
  apply (sf_grow _ _ _ Hf2).
  apply makeWorthy_round_inv in Hround
    as [[-> Hne]|[[-> _]|(loc & node & Hu' & _)]].
  - rewrite Hu1, Hu in Hne. done.
  - simpl. apply elem_of_app. right. by apply list_elem_of_singleton.
  - rewrite Hu1, Hu in Hu'. done.
Qed.

(** An object that is not the node of a tracked key among [ks] is left
    alone. *)
Lemma makeWorthy_rounds_untouched tiles ks : ∀ st st' loc node,
  sweep_inv st.1 →
  Graph.makeWorthy_rounds tiles ks st = Ret st' →
  Graph.heap st.1 !! loc = Some node →
  ¬ (Graph.getNode (key node) st.1 = Some loc ∧
     Graph._unWorthyNodes st.1 !! key node = Some true ∧ key node ∈ ks) →
  Graph.heap st'.1 !! loc = Some node.
Proof.
  induction ks as [|k ks IH]; intros [g wk] st' loc node Hinv;
    [by intros [= <-]|].
  cbn [Graph.makeWorthy_rounds].
  destruct (makeWorthy_round_spec tiles g wk k Hinv) as (st1 & Hround & Hf & _).
  rewrite Hround. cbn [mbind outcome_bind]. intros Hrun Hn Hnot. simpl in *.
  apply (IH st1 st' loc node (sf_inv _ _ _ Hf) Hrun).
  - apply makeWorthy_round_inv in Hround
      as [[-> _]|[[-> _]|(loc' & node' & Hu' & Hloc' & Hn' & _ & ->)]]; [done..|].
    simpl. destruct (decide (loc' = loc)) as [->|Hne].
    + rewrite Hn in Hn'. injection Hn' as <-.
      destruct Hinv as [_ Hkeyed].
      destruct (Hkeyed _ _ Hloc') as (node'' & Hn'' & Hkey).
      rewrite Hn in Hn''. injection Hn'' as <-. destruct Hnot.
      rewrite Hkey. split; [done|]. split; [done|]. by left.
    + by rewrite list_lookup_insert_ne.
  - intros (Hloc & Hu & Hin). apply Hnot.
    pose proof (sf_graph _ _ _ Hf) as Hg. simpl in Hg.
    split; [unfold Graph.getNode in *; by rewrite <- Hg|].
    split; [|by right].
    destruct (decide (key node = k)) as [Hk|Hk].
    + apply makeWorthy_round_inv in Hround
        as [[-> _]|[[-> _]|(loc' & node' & Hu' & _ & _ & _ & ->)]]; [done..|].
      simpl in Hu. rewrite Hk, lookup_insert_eq in Hu. done.
    + destruct (sf_other _ _ _ Hf (key node)) as (Hu1 & _).
      { by intros ?%list_elem_of_singleton. }
      simpl in Hu1. by rewrite <- Hu1.
Qed.

Lemma graph_t_ext (g1 g2 : Graph.t) :
  Graph._sequences g1 = Graph._sequences g2 →
  Graph._sequenceHashes g1 = Graph._sequenceHashes g2 →
  Graph._graph g1 = Graph._graph g2 →
  Graph._nodeIndex g1 = Graph._nodeIndex g2 →
  Graph._unWorthyNodes g1 = Graph._unWorthyNodes g2 →
  Graph.heap g1 = Graph.heap g2 →
  g1 = g2.
Proof. destruct g1, g2. simpl. by intros -> -> -> -> -> ->. Qed.

(** Whatever the order in which the keys are visited, the sweep promotes
    the covered nodes of the tracked keys, untracks them, and leaves the
    rest alone. *)
Lemma makeNodesWorthy_in_swept tiles ks g :
  NoDup ks → (∀ k, k ∈ ks ↔ is_Some (Graph._unWorthyNodes g !! k)) →
  sweep_inv g →
  Graph._makeNodesWorthy_in tiles ks g = Ret (swept tiles g).
Proof.
  intros Hnd Hks Hinv. unfold Graph._makeNodesWorthy_in.
  destruct (makeWorthy_rounds_frame tiles ks (g, []) Hinv) as (st' & Hrun & Hf).
  rewrite Hrun. cbn [mbind outcome_bind]. f_equal.
  pose proof Hinv as [Htr Hkeyed].
  apply graph_t_ext; simpl.
  - exact (sf_sequences _ _ _ Hf).
  - exact (sf_hashes _ _ _ Hf).
  - exact (sf_graph _ _ _ Hf).
  - exact (sf_index _ _ _ Hf).
  - apply map_eq. intros k. rewrite lookup_foldl_delete.
    unfold swept_unWorthyNodes. rewrite map_lookup_imap.
    destruct (Graph._unWorthyNodes g !! k) as [[]|] eqn:Hu; simpl.
    + destruct (Htr k) as [loc Hloc]; [by rewrite Hu|].
      destruct (Hkeyed _ _ Hloc) as (node & Hn & Hkey).
      rewrite Hloc. simpl. rewrite Hn.
      destruct (makeWorthy_rounds_at tiles ks g k loc node Hnd)
        as (st'' & Hrun' & _ & Hat);
        [by apply Hks; rewrite Hu|done..|].
      rewrite Hrun in Hrun'. injection Hrun' as <-.
      destruct (Graph.all_loaded tiles (hs node)).
      * destruct Hat as [_ Hin]. by rewrite bool_decide_eq_true_2.
      * destruct Hat as (_ & Hu' & Hnot). by rewrite bool_decide_eq_false_2.
    + rewrite bool_decide_eq_true_2; [done|].
      apply (makeWorthy_rounds_false tiles ks g k st'); [|done..].
      apply Hks. by rewrite Hu.
    + destruct (sf_other _ _ _ Hf k) as (Hu' & Hwk & _).
      { rewrite Hks, Hu. by intros []. }
      simpl in *. rewrite Hu', Hu. by case_bool_decide.
  - apply list_eq. intros loc. unfold swept_heap. rewrite list_lookup_imap.
    destruct (Graph.heap g !! loc) as [node|] eqn:Hn; simpl.
    + unfold promoted_by.
      destruct (decide (Graph.getNode (key node) g = Some loc ∧
                        Graph._unWorthyNodes g !! key node = Some true))
        as [[Hloc Hu]|Hnot].
      * rewrite !bool_decide_eq_true_2 by done. simpl.
        destruct (makeWorthy_rounds_at tiles ks g (key node) loc node Hnd)
          as (st'' & Hrun' & _ & Hat);
          [by apply Hks; rewrite Hu|done..|].
        rewrite Hrun in Hrun'. injection Hrun' as <-.
        destruct (Graph.all_loaded tiles (hs node)); by destruct Hat as [-> _].
      * rewrite (makeWorthy_rounds_untouched tiles ks (g, []) st' loc node Hinv Hrun Hn)
          by (intros (? & ? & _); by apply Hnot).
        do 2 case_bool_decide; simpl; try done. by destruct Hnot.
    + apply lookup_ge_None. rewrite (makeWorthy_rounds_length _ _ _ _ Hrun). simpl.
      by apply lookup_ge_None.
Qed.

(** In particular the sweep of the model, which follows the order of the
    map, computes [swept]. *)
Lemma makeNodesWorthy_swept tiles g :
  sweep_inv g → Graph._makeNodesWorthy tiles g = Ret (swept tiles g).
Proof.
  intros Hinv. apply makeNodesWorthy_in_swept; [|by apply elem_of_keys|done].
  apply NoDup_fst_map_to_list.
Qed.

End sweep_order.

(** ** Graph.addNodesFromAPI *)

(** C10: with an undefined payload the call returns at once and the graph is
    what it was. *)
Theorem addNodesFromAPI_undefined {geo : GeoLib} (tiles : gmap string bool) (g : Graph.t) :
  Graph.addNodesFromAPI None tiles g = Ret g.
Proof. reflexivity. Qed.

(** C1, as stated, fails for a call with an undefined payload: "b" is
    tracked as unworthy in the example graph and both tiles of its coverage
    set are loaded in the tile set of the call, yet the call returns at once
    and "b" is neither promoted nor untracked. *)
Lemma worthy_iff_covered_counterexample :
  ∃ loc node,
    Graph.addNodesFromAPI (geo := flat_geo) None both_loaded ingested = Ret ingested ∧
    tracked "b" ingested ∧
    Graph.getNode "b" ingested = Some loc ∧
    Graph.heap ingested !! loc = Some node ∧
    covered both_loaded node ∧
    worthy node = false.
Proof.
  vm_compute. eexists _, _. split; [reflexivity|]. split; [reflexivity|].
  split; [reflexivity|]. split; [reflexivity|]. split; [|reflexivity].
  repeat constructor.
Qed.

(** C1 (amended): after [addNodesFromAPI] has run with a defined payload
    and a tile set, in a state that satisfies the invariant, every key that was
    tracked as unworthy when the sweep started (tracked before the call, or
    an image of the payload) has its node in the graph, and that node has
    been promoted (untracked and worthy) exactly when every tile of its
    coverage set is loaded in the tile set; with an unloaded tile the key
    stays tracked and the worthy flag of the node is what it was. *)
Theorem worthy_iff_covered {geo : GeoLib} (d : IAPINavIm) (tiles : gmap string bool)
    (g : Graph.t) :
  wf g → data_hs d ≠ [] →
  ∃ g', Graph.addNodesFromAPI (Some d) tiles g = Ret g' ∧
    ∀ k, tracked k g ∨ k ∈ im_key <$> data_ims d →
      ∃ loc node',
        Graph.getNode k g' = Some loc ∧ Graph.heap g' !! loc = Some node' ∧
        (covered tiles node' ↔
           Graph._unWorthyNodes g' !! k = None ∧ worthy node' = true) ∧
        (¬ covered tiles node' →
           tracked k g' ∧
           worthy node' = match Graph.heap g !! loc with
                          | Some node => worthy node
                          | None => false
                          end).
Proof.
  intros Hwf Hhs.
  destruct (addNodesFromAPI_spec d tiles g Hwf Hhs) as (g' & Hrun & _ & Hkeys).
  exists g'. split; [done|]. intros k Hk.
  destruct (Hkeys k Hk) as (loc & node & node' & Hloc & Hn' & Hold & Hcase).
  exists loc, node'. split; [done|]. split; [done|].
  unfold covered, tracked. rewrite <- all_loaded_covered.
  destruct (Graph.all_loaded tiles (hs node)) eqn:Hall.
  - destruct Hcase as [-> Hu]. simpl. rewrite Hall. by intuition.
  - destruct Hcase as [-> Hu]. rewrite Hall, Hu. split.
    + split; [done|]. by intros [? _].
    + intros _. split; [done|]. by destruct Hold as [->|[-> ?]].
Qed.

Lemma worthy_iff_covered_witness :
  wf Graph.empty ∧ data_hs tile_payload ≠ [] ∧
  ∃ g', Graph.addNodesFromAPI (geo := flat_geo) (Some tile_payload) home_loaded
          Graph.empty = Ret g' ∧
    ∀ k, tracked k Graph.empty ∨ k ∈ im_key <$> data_ims tile_payload →
      ∃ loc node',
        Graph.getNode k g' = Some loc ∧ Graph.heap g' !! loc = Some node' ∧
        (covered home_loaded node' ↔
           Graph._unWorthyNodes g' !! k = None ∧ worthy node' = true) ∧
        (¬ covered home_loaded node' →
           tracked k g' ∧
           worthy node' = match Graph.heap Graph.empty !! loc with
                          | Some node => worthy node
                          | None => false
                          end).
Proof.
  split; [exact wf_empty|]. split; [discriminate|].
  apply (worthy_iff_covered (geo := flat_geo) tile_payload home_loaded Graph.empty).
  - exact wf_empty.
  - discriminate.
Defined.

(** Every call of [addNodesFromAPI] that returns keeps the invariant. *)
Lemma addNodesFromAPI_wf {geo : GeoLib} data0 tiles g g' :
  wf g → Graph.addNodesFromAPI data0 tiles g = Ret g' → wf g'.
Proof.
  intros Hwf Hrun. destruct data0 as [d|]; [|by injection Hrun as <-].
  destruct (data_hs d) as [|h rest] eqn:Hhs.
  - unfold Graph.addNodesFromAPI in Hrun. by rewrite Hhs in Hrun.
  - destruct (addNodesFromAPI_spec d tiles g Hwf) as (g'' & Hrun' & Hwf' & _);
      [by rewrite Hhs|].
    rewrite Hrun in Hrun'. by injection Hrun' as ->.
Qed.

(** C2: a node object whose key already has a node is not inserted, and a
    payload whose images all have nodes leaves the node count, the spatial
    index and every node of the graph in place; the objects themselves are
    the same, up to a promotion to worthy by the sweep. *)
Theorem reingest_is_noop {geo : GeoLib} (d : IAPINavIm) (tiles : gmap string bool)
    (g : Graph.t) :
  wf g → data_hs d ≠ [] →
  Forall (λ im, is_Some (Graph.getNode (im_key im) g)) (data_ims d) →
  (∀ loc node, Graph.heap g !! loc = Some node →
               is_Some (Graph.getNode (key node) g) → Graph._insertNode loc g = g) ∧
  ∃ g', Graph.addNodesFromAPI (Some d) tiles g = Ret g' ∧
    Graph._graph g' = Graph._graph g ∧
    graphlib.nodeCount (Graph._graph g') = graphlib.nodeCount (Graph._graph g) ∧
    Graph._nodeIndex g' = Graph._nodeIndex g ∧
    ∀ k loc node,
      Graph.getNode k g = Some loc → Graph.heap g !! loc = Some node →
      Graph.getNode k g' = Some loc ∧
      (Graph.heap g' !! loc = Some node ∨
       Graph.heap g' !! loc = Some (makeWorthy node)).
Proof.
  intros Hwf Hhs Hall. split; [intros loc node; apply insertNode_present|].
  destruct (addNodesFromAPI_present d tiles g Hwf Hhs) as (g' & Hrun & Hkeep & Hsame).
  destruct (Hsame Hall) as [Hg Hi].
  exists g'. split; [done|]. split; [done|]. split; [by rewrite Hg|]. split; done.
Qed.

Lemma reingest_is_noop_witness :
  wf ingested ∧ data_hs tile_payload ≠ [] ∧
  Forall (λ im, is_Some (Graph.getNode (im_key im) ingested)) (data_ims tile_payload) ∧
  ∃ g', Graph.addNodesFromAPI (geo := flat_geo) (Some tile_payload) home_loaded ingested
          = Ret g' ∧
        Graph._nodeIndex g' = Graph._nodeIndex ingested.
Proof.
  assert (Hwf : wf ingested).
  { apply (addNodesFromAPI_wf (geo := flat_geo) (Some tile_payload) home_loaded
             Graph.empty); [exact wf_empty|vm_compute; reflexivity]. }
  assert (Hall : Forall (λ im, is_Some (Graph.getNode (im_key im) ingested))
                        (data_ims tile_payload)).
  { apply (bool_decide_unpack _). vm_compute. exact I. }
  split; [exact Hwf|]. split; [discriminate|]. split; [exact Hall|].
  destruct (reingest_is_noop (geo := flat_geo) tile_payload home_loaded ingested Hwf)
    as (_ & g' & Hrun & _ & _ & Hidx & _); [discriminate|exact Hall|].
  exists g'. by split.
Defined.

(** ** graphlib: replacing the out-edges of a node *)

Section graphlib_facts.

Lemma filter_ext_in {A} (P Q : A → Prop) `{!∀ x, Decision (P x), !∀ x, Decision (Q x)}
    (l : list A) :
  (∀ x, x ∈ l → P x ↔ Q x) → filter P l = filter Q l.
Proof.
  induction l as [|a l IH]; intros Hext; [done|].
  rewrite !filter_cons.
  rewrite IH by (intros x Hx; apply Hext; by right).
  apply decide_ext, Hext. by left.
Qed.

Lemma filter_all {A} (P : A → Prop) `{!∀ x, Decision (P x)} (l : list A) :
  (∀ x, x ∈ l → P x) → filter P l = l.
Proof.
  induction l as [|a l IH]; intros Hall; [done|].
  rewrite filter_cons_True by (apply Hall; by left).
  f_equal. apply IH. intros x Hx. apply Hall. by right.
Qed.

Lemma graph_eta (gr : graphlib.Graph) :
  {| graphlib._nodes := graphlib._nodes gr;
     graphlib._edgeLabels := graphlib._edgeLabels gr |} = gr.
Proof. by destruct gr. Qed.

(** Removing a list of edges keeps the nodes and filters the labels. *)
Lemma removeEdges_fold (L : list graphlib.Edge) : ∀ gr,
  foldl (λ gr e, graphlib.removeEdge e gr) gr L =
    {| graphlib._nodes := graphlib._nodes gr;
       graphlib._edgeLabels := filter (λ x, fst x ∉ L) (graphlib._edgeLabels gr) |}.
Proof.
  induction L as [|e L IH]; intros gr; simpl.
  - rewrite filter_all; [by rewrite graph_eta|].
    intros x _. by intros ?%elem_of_nil.
  - rewrite IH. unfold graphlib.removeEdge. simpl. f_equal.
    rewrite list_filter_filter. apply list_filter_iff.
    intros x. rewrite not_elem_of_cons. tauto.
Qed.

(** Removing all out-edges of [k] leaves exactly the edges of the others. *)
Lemma remove_outEdges k gr :
  foldl (λ gr e, graphlib.removeEdge e gr) gr
        (filter (λ e, graphlib.v e = k) (fst <$> graphlib._edgeLabels gr)) =
    {| graphlib._nodes := graphlib._nodes gr;
       graphlib._edgeLabels :=
         filter (λ x, graphlib.v (fst x) ≠ k) (graphlib._edgeLabels gr) |}.
Proof.
  rewrite removeEdges_fold. f_equal. apply filter_ext_in.
  intros x Hx. rewrite list_elem_of_filter, list_elem_of_fmap. split.
  - intros Hnot Hv. apply Hnot. split; [done|]. by exists x.
  - intros Hv [Hv' _]. done.
Qed.

Lemma setNode_default_nodes k gr :
  graphlib._nodes gr ⊆ graphlib._nodes (graphlib.setNode_default k gr) ∧
  is_Some (graphlib._nodes (graphlib.setNode_default k gr) !! k) ∧
  graphlib._edgeLabels (graphlib.setNode_default k gr) = graphlib._edgeLabels gr.
Proof.
  unfold graphlib.setNode_default, graphlib.hasNode.
  case_bool_decide as Hk; simpl.
  - done.
  - split; [|split; [by rewrite lookup_insert_eq|done]].
    apply insert_subseteq. by apply eq_None_not_Some.
Qed.

Lemma setNode_default_present k gr :
  is_Some (graphlib._nodes gr !! k) → graphlib.setNode_default k gr = gr.
Proof.
  intros Hk. unfold graphlib.setNode_default, graphlib.hasNode.
  by rewrite bool_decide_eq_true_2.
Qed.

Lemma setEdge_nodes_mono v0 w0 value name0 gr :
  graphlib._nodes gr ⊆ graphlib._nodes (graphlib.setEdge v0 w0 value name0 gr).
Proof.
  unfold graphlib.setEdge. case_bool_decide; simpl; [done|].
  destruct (setNode_default_nodes v0 gr) as (H1 & _ & _).
  destruct (setNode_default_nodes w0 (graphlib.setNode_default v0 gr)) as (H2 & _ & _).
  by etrans.
Qed.

Lemma setEdges_nodes_mono k (name_of : IEdge → string) (E : list IEdge) : ∀ gr,
  graphlib._nodes gr ⊆
    graphlib._nodes
      (foldl (λ gr edge, graphlib.setEdge k (to edge) (data edge) (name_of edge) gr)
             gr E).
Proof.
  induction E as [|edge E IH]; intros gr; simpl; [done|].
  etrans; [|apply IH]. apply setEdge_nodes_mono.
Qed.

Lemma relabel_filter_other k e value (l : list (graphlib.Edge * IEdgeData)) :
  graphlib.v e = k →
  filter (λ x, graphlib.v (fst x) ≠ k) (graphlib.relabel e value <$> l) =
    filter (λ x, graphlib.v (fst x) ≠ k) l.
Proof.
  intros Hv. induction l as [|x l IH]; [done|].
  rewrite fmap_cons, !filter_cons, IH. unfold graphlib.relabel.
  destruct (decide (x.1 = e)) as [Hx|Hx]; [|done]. simpl.
  rewrite !decide_False; [done|rewrite Hx|]; by intros [].
Qed.

(** [setEdge] from [k] does not touch the edges of other sources. *)
Lemma setEdge_filter_other k w0 value name0 gr :
  filter (λ x, graphlib.v (fst x) ≠ k)
         (graphlib._edgeLabels (graphlib.setEdge k w0 value name0 gr)) =
    filter (λ x, graphlib.v (fst x) ≠ k) (graphlib._edgeLabels gr).
Proof.
  unfold graphlib.setEdge. case_bool_decide; simpl.
  - by apply relabel_filter_other.
  - destruct (setNode_default_nodes w0 (graphlib.setNode_default k gr))
      as (_ & _ & ->).
    destruct (setNode_default_nodes k gr) as (_ & _ & ->).
    rewrite filter_app, filter_cons_False, filter_nil, app_nil_r; [done|].
    simpl. by intros [].
Qed.

Lemma setEdges_filter_other k (name_of : IEdge → string) (E : list IEdge) : ∀ gr,
  filter (λ x, graphlib.v (fst x) ≠ k)
    (graphlib._edgeLabels
       (foldl (λ gr edge, graphlib.setEdge k (to edge) (data edge) (name_of edge) gr)
              gr E)) =
    filter (λ x, graphlib.v (fst x) ≠ k) (graphlib._edgeLabels gr).
Proof.
  induction E as [|edge E IH]; intros gr; simpl; [done|].
  rewrite IH. apply setEdge_filter_other.
Qed.

(** On a graph that already has the nodes it would create, [setEdge]
    changes the edge labels only. *)
Lemma setEdge_with_nodes v0 w0 value name0 gr gr0 :
  graphlib._edgeLabels gr0 = graphlib._edgeLabels gr →
  graphlib._nodes (graphlib.setEdge v0 w0 value name0 gr) ⊆ graphlib._nodes gr0 →
  graphlib.setEdge v0 w0 value name0 gr0 =
    {| graphlib._nodes := graphlib._nodes gr0;
       graphlib._edgeLabels :=
         graphlib._edgeLabels (graphlib.setEdge v0 w0 value name0 gr) |}.
Proof.
  intros He Hsub. unfold graphlib.setEdge in *. rewrite He.
  case_bool_decide; simpl in *; [done|].
  destruct (setNode_default_nodes v0 gr) as (Hm1 & Hv & He1).
  destruct (setNode_default_nodes w0 (graphlib.setNode_default v0 gr))
    as (Hm2 & Hw & He2).
  assert (Hv0 : is_Some (graphlib._nodes gr0 !! v0)).
  { eapply lookup_weaken_is_Some; [|exact Hsub].
    eapply lookup_weaken_is_Some; [exact Hv|exact Hm2]. }
  assert (Hw0 : is_Some (graphlib._nodes gr0 !! w0)).
  { eapply lookup_weaken_is_Some; [exact Hw|exact Hsub]. }
  rewrite (setNode_default_present v0 gr0 Hv0).
  rewrite (setNode_default_present w0 gr0 Hw0).
  by rewrite He2, He1, He.
Qed.

Lemma setEdges_with_nodes k (name_of : IEdge → string) (E : list IEdge) : ∀ gr gr0,
  let set := λ gr edge,
    graphlib.setEdge k (to edge) (data edge) (name_of edge) gr in
  graphlib._edgeLabels gr0 = graphlib._edgeLabels gr →
  graphlib._nodes (foldl set gr E) ⊆ graphlib._nodes gr0 →
  foldl set gr0 E =
    {| graphlib._nodes := graphlib._nodes gr0;
       graphlib._edgeLabels := graphlib._edgeLabels (foldl set gr E) |}.
Proof.
  induction E as [|edge E IH]; intros gr gr0 set He Hsub; simpl in *.
  - by rewrite <- He, graph_eta.
  - assert (Hstep : graphlib._nodes (set gr edge) ⊆ graphlib._nodes gr0).
    { etrans; [|exact Hsub]. apply setEdges_nodes_mono. }
    subst set. cbv beta in *.
    rewrite (setEdge_with_nodes _ _ _ _ gr gr0 He Hstep).
    by rewrite (IH (graphlib.setEdge k (to edge) (data edge) (name_of edge) gr)).
Qed.

(** Every label in the graph after a series of [setEdge] was there before
    or is the label of one of the edges set. *)
Lemma setEdges_labels k (name_of : IEdge → string) (E : list IEdge)
    (P : graphlib.Edge * IEdgeData → Prop) :
  (∀ c, c ∈ E →
        P ({| graphlib.v := k; graphlib.w := to c; graphlib.name := name_of c |},
           data c)) →
  ∀ gr, Forall P (graphlib._edgeLabels gr) →
  Forall P (graphlib._edgeLabels
              (foldl (λ gr edge,
                        graphlib.setEdge k (to edge) (data edge) (name_of edge) gr)
                     gr E)).
Proof.
  induction E as [|edge E IH]; intros HE gr Hgr; simpl; [done|].
  apply IH; [intros c Hc; apply HE; by right|].
  assert (Hedge : P ({| graphlib.v := k; graphlib.w := to edge;
                        graphlib.name := name_of edge |}, data edge))
    by (apply HE; by left).
  unfold graphlib.setEdge. case_bool_decide; simpl.
  - apply Forall_fmap. eapply Forall_impl; [exact Hgr|].
    intros x Hx. unfold graphlib.relabel. simpl. by case_decide.
  - destruct (setNode_default_nodes (to edge) (graphlib.setNode_default k gr))
      as (_ & _ & ->).
    destruct (setNode_default_nodes k gr) as (_ & _ & ->).
    apply Forall_app. split; [done|]. by apply Forall_singleton.
Qed.

End graphlib_facts.

(** ** The invariant holds in every reachable state *)

Section invariant_facts.
Context {geo : GeoLib} {calc : EdgeCalculator}.

Lemma node_setNode_default k k' gr :
  graphlib.node k (graphlib.setNode_default k' gr) = graphlib.node k gr.
Proof.
  unfold graphlib.setNode_default, graphlib.hasNode, graphlib.node.
  case_bool_decide as Hk; [done|]. simpl.
  destruct (decide (k' = k)) as [->|Hne].
  - rewrite lookup_insert_eq. apply eq_None_not_Some in Hk. by rewrite Hk.
  - by rewrite lookup_insert_ne.
Qed.

Lemma node_setEdge k v0 w0 value name0 gr :
  graphlib.node k (graphlib.setEdge v0 w0 value name0 gr) = graphlib.node k gr.
Proof.
  unfold graphlib.setEdge. case_bool_decide; [done|].
  change (graphlib.node k (graphlib.setNode_default w0 (graphlib.setNode_default v0 gr))
          = graphlib.node k gr).
  by rewrite !node_setNode_default.
Qed.

Lemma addEdgesToNode_frame node E g g' :
  Graph._addEdgesToNode node E g = Ret g' →
  (∀ k, Graph.getNode k g' = Graph.getNode k g) ∧
  Graph._sequences g' = Graph._sequences g ∧
  Graph._sequenceHashes g' = Graph._sequenceHashes g ∧
  Graph._nodeIndex g' = Graph._nodeIndex g ∧
  Graph._unWorthyNodes g' = Graph._unWorthyNodes g ∧
  Graph.heap g' = Graph.heap g.
Proof.
  unfold Graph._addEdgesToNode. destruct (graphlib.outEdges _ _) as [O|]; [|done].
  intros [= <-]. split; [|done]. intros k. unfold Graph.getNode. simpl.
  rewrite removeEdges_fold.
  set (gr := {| graphlib._nodes := _; graphlib._edgeLabels := _ |}).
  change (graphlib.node k (Graph._graph g)) with (graphlib.node k gr).
  generalize gr. clear gr.
  induction E as [|edge E IH]; intros gr; simpl; [done|].
  by rewrite IH, node_setEdge.
Qed.

Lemma cacheNode_wf loc g g' : wf g → Graph.cacheNode loc g = Ret g' → wf g'.
Proof.
  intros Hwf. unfold Graph.cacheNode, Graph._computeEdges.
  destruct (Graph.heap g !! loc) as [node|] eqn:Hn; [|by intros [= <-]].
  destruct (worthy node); simpl; [|by intros [= <-]].
  destruct (Graph._addEdgesToNode node _ g) as [g1|] eqn:Hadd; [|done]. simpl.
  intros [= <-].
  destruct (addEdgesToNode_frame _ _ _ _ Hadd) as (Hget & Hs & Hsh & Hi & Hu & Hh).
  split.
  - intros k Hk. change (is_Some (Graph.getNode k g1)). rewrite Hget.
    apply (wf_tracked _ Hwf). simpl in Hk. by rewrite <- Hu.
  - intros k loc0 Hloc0. change (Graph.getNode k g1 = Some loc0) in Hloc0.
    rewrite Hget in Hloc0.
    destruct (wf_keyed _ Hwf _ _ Hloc0) as (node0 & Hn0 & Hk0). simpl. rewrite Hh.
    destruct (decide (loc0 = loc)) as [->|Hne].
    + rewrite Hn in Hn0. injection Hn0 as <-.
      eexists. split; [apply list_lookup_insert_eq; by eapply lookup_lt_Some|done].
    + exists node0. by rewrite list_lookup_insert_ne.
  - simpl. rewrite Hs, Hsh. apply (wf_hashes _ Hwf).
  - intros loc0 node0. simpl. rewrite Hh.
    change (Graph.getNode (key node0) (Graph.set_heap _ g1))
      with (Graph.getNode (key node0) g1).
    rewrite Hget. destruct (decide (loc0 = loc)) as [->|Hne].
    + rewrite list_lookup_insert_eq by (by eapply lookup_lt_Some).
      intros [= <-] Hw. exact (wf_worthy _ Hwf loc node Hn Hw).
    + rewrite list_lookup_insert_ne by done. apply (wf_worthy _ Hwf).
Qed.

Lemma reachable_wf g : reachable g → wf g.
Proof.
  induction 1 as [|data0 tiles g g' _ IH Hrun|loc g g' _ IH Hrun].
  - exact wf_empty.
  - by apply (addNodesFromAPI_wf data0 tiles g g').
  - by apply (cacheNode_wf loc g g').
Qed.

End invariant_facts.

(** ** Graph.cacheNode *)

Section caching_facts.
Context {calc : EdgeCalculator}.

(** Storing the same edges a second time changes nothing. *)
Lemma addEdgesToNode_again node node' E g g1 g1' :
  Graph._addEdgesToNode node E g = Ret g1 →
  key node' = key node → Graph._graph g1' = Graph._graph g1 →
  Graph._addEdgesToNode node' E g1' = Ret g1'.
Proof.
  unfold Graph._addEdgesToNode, Graph.edge_name, graphlib.outEdges.
  intros Hrun Hkey Hgraph.
  destruct (graphlib.hasNode (key node) (Graph._graph g)) eqn:Hhas; [|done].
  rewrite remove_outEdges in Hrun. injection Hrun as <-.
  rewrite Hkey, Hgraph. simpl in *.
  set (name_of := λ edge : IEdge, key node +:+ to edge +:+ pretty (direction (data edge))).
  set (gr_mid := {| graphlib._nodes := graphlib._nodes (Graph._graph g);
                    graphlib._edgeLabels := _ |}).
  set (gr2 := foldl _ gr_mid E) in *.
  assert (Hmono : graphlib._nodes (Graph._graph g) ⊆ graphlib._nodes gr2)
    by apply (setEdges_nodes_mono (key node) name_of E gr_mid).
  assert (Hhas2 : graphlib.hasNode (key node) gr2 = true).
  { apply bool_decide_eq_true. apply bool_decide_eq_true in Hhas.
    by eapply lookup_weaken_is_Some. }
  rewrite Hhas2, remove_outEdges.
  assert (Hmid : filter (λ x, graphlib.v (fst x) ≠ key node) (graphlib._edgeLabels gr2)
                 = graphlib._edgeLabels gr_mid).
  { etrans; [exact (setEdges_filter_other (key node) name_of E gr_mid)|].
    simpl. by apply list_filter_filter_l. }
  rewrite Hmid.
  pose proof (setEdges_with_nodes (key node) name_of E gr_mid
                {| graphlib._nodes := graphlib._nodes gr2;
                   graphlib._edgeLabels := graphlib._edgeLabels gr_mid |}
                eq_refl (reflexivity _)) as Hre.
  apply (f_equal Ret). transitivity (Graph.set_graph gr2 g1').
  - apply (f_equal (λ gr, Graph.set_graph gr g1')).
    etrans; [exact Hre|]. exact (graph_eta gr2).
  - destruct g1'. simpl in *. by subst.
Qed.

Lemma nearby_forget n n' g g' :
  latLon n' = latLon n → Graph._nodeIndex g' = Graph._nodeIndex g →
  (∀ i, forget_cache <$> Graph.heap g' !! i = forget_cache <$> Graph.heap g !! i) →
  forget_cache <$> Graph.nearby n' g' = forget_cache <$> Graph.nearby n g.
Proof.
  intros Hll Hidx Hheap. unfold Graph.nearby. rewrite Hll, Hidx.
  induction (rbush.search _ _) as [|item items IH]; [done|].
  cbn [omap list_omap].
  specialize (Hheap (item_node item)).
  destruct (Graph.heap g' !! item_node item), (Graph.heap g !! item_node item);
    try done.
  rewrite !fmap_cons. apply (inj Some) in Hheap. by rewrite IH, Hheap.
Qed.

Lemma computed_edges_forget n n' g g' :
  cache_blind calc →
  forget_cache n' = forget_cache n →
  forget_cache <$> Graph.nearby n' g' = forget_cache <$> Graph.nearby n g →
  Graph.computed_edges n' g' = Graph.computed_edges n g.
Proof.
  intros Hblind Hn Hnear. unfold Graph.computed_edges.
  change (findPrevKeyInSequence n') with (findPrevKeyInSequence (forget_cache n')).
  change (findNextKeyInSequence n') with (findNextKeyInSequence (forget_cache n')).
  change (findPrevKeyInSequence n) with (findPrevKeyInSequence (forget_cache n)).
  change (findNextKeyInSequence n) with (findNextKeyInSequence (forget_cache n)).
  rewrite (blind_sequence _ Hblind n'), (blind_potential _ Hblind n'),
    (blind_step _ Hblind n'), (blind_turn _ Hblind n'), (blind_pano _ Hblind n'),
    (blind_perspective _ Hblind n'), (blind_similar _ Hblind n').
  rewrite (blind_sequence _ Hblind n), (blind_potential _ Hblind n),
    (blind_step _ Hblind n), (blind_turn _ Hblind n), (blind_pano _ Hblind n),
    (blind_perspective _ Hblind n), (blind_similar _ Hblind n).
  by rewrite Hn, Hnear.
Qed.

(** An edge read back from the graph is stored there under the key of the
    node. *)
Lemma elem_of_getEdges node g e :
  e ∈ Graph.getEdges node g →
  ∃ outEdge d,
    (outEdge, d) ∈ graphlib._edgeLabels (Graph._graph g) ∧
    graphlib.v outEdge = key node ∧
    e = {| data := d; from := graphlib.v outEdge; to := graphlib.w outEdge |}.
Proof.
  unfold Graph.getEdges, graphlib.outEdges. intros He.
  apply list_elem_of_omap in He as (outEdge & Hin & Hsome).
  destruct (graphlib.hasNode (key node) (Graph._graph g)); simpl in Hin;
    [|by apply elem_of_nil in Hin].
  apply list_elem_of_filter in Hin as [Hv _].
  unfold graphlib.edge in Hsome.
  destruct (list_find _ _) as [[i x]|] eqn:Hfind; [|done]. simpl in Hsome.
  injection Hsome as <-.
  apply list_find_Some in Hfind as (Hx & Hfst & _).
  exists outEdge, (snd x). split; [|done].
  apply list_elem_of_lookup_2 in Hx. destruct x as [oe d]. simpl in *. by subst.
Qed.

(** The out-edges of a node after [_addEdgesToNode] are among the edges it
    was given, whatever out-edges the node had before. *)
Lemma addEdgesToNode_provenance node E g g1 e :
  Graph._addEdgesToNode node E g = Ret g1 →
  e ∈ Graph.getEdges node g1 →
  ∃ c, c ∈ E ∧ e = {| data := data c; from := key node; to := to c |}.
Proof.
  unfold Graph._addEdgesToNode, graphlib.outEdges.
  destruct (graphlib.hasNode (key node) (Graph._graph g)); [|done].
  rewrite remove_outEdges. intros [= <-] He.
  apply elem_of_getEdges in He as (outEdge & d & Hin & Hv & ->). simpl in Hin.
  pose proof (setEdges_labels (key node) (Graph.edge_name node) E
    (λ x, graphlib.v (fst x) = key node →
          ∃ c, c ∈ E ∧
               x = ({| graphlib.v := key node; graphlib.w := to c;
                       graphlib.name := Graph.edge_name node c |}, data c))) as Hlab.
  eapply Forall_forall in Hlab; [|by eauto| |exact Hin].
  - destruct (Hlab Hv) as (c & Hc & [= -> ->]). by exists c.
  - simpl. apply Forall_forall. intros x Hx Hvx.
    by apply list_elem_of_filter in Hx as [Hne _].
Qed.

End caching_facts.


(** C3: in a state that satisfies the invariant, [cacheNode] on a worthy
    node returns, and a second [cacheNode] right after it leaves the whole
    graph as the first one made it: the out-edges are replaced by the same
    ones, nothing accumulates, and the node caches the same edge list.  The
    edges cached are among the edges computed, whatever out-edges the node
    had before. *)
Theorem cacheNode_twice {calc : EdgeCalculator} (loc : nat) (node : Node) (g : Graph.t) :
  cache_blind calc → wf g →
  Graph.heap g !! loc = Some node → worthy node = true →
  ∃ g1,
    Graph.cacheNode loc g = Ret g1 ∧
    Graph.cacheNode loc g1 = Ret g1 ∧
    Graph.heap g1 !! loc = Some (cacheEdges (Graph.getEdges node g1) node) ∧
    ∀ e, e ∈ Graph.getEdges node g1 →
         ∃ c, c ∈ Graph.computed_edges node g ∧
              e = {| data := data c; from := key node; to := to c |}.
Proof.
  intros Hblind Hwf Hn Hworthy.
  assert (Hhas : graphlib.hasNode (key node) (Graph._graph g) = true).
  { pose proof (wf_worthy _ Hwf loc node Hn Hworthy) as Hloc.
    unfold Graph.getNode, graphlib.node in Hloc. apply bool_decide_eq_true.
    destruct (graphlib._nodes (Graph._graph g) !! key node); [by eexists|done]. }
  unfold Graph.cacheNode at 1. rewrite Hn. unfold Graph._computeEdges.
  rewrite Hworthy. simpl.
  destruct (Graph._addEdgesToNode node (Graph.computed_edges node g) g)
    as [g'|msg] eqn:Hadd.
  2:{ unfold Graph._addEdgesToNode, graphlib.outEdges in Hadd. by rewrite Hhas in Hadd. }
  simpl.
  assert (Hheap' : Graph.heap g' = Graph.heap g ∧ Graph._nodeIndex g' = Graph._nodeIndex g).
  { unfold Graph._addEdgesToNode in Hadd.
    destruct (graphlib.outEdges _ _); [|done]. by injection Hadd as <-. }
  destruct Hheap' as [Hheap' Hidx'].
  set (L := Graph.getEdges node g').
  set (node1 := cacheEdges L node).
  set (g1 := Graph.set_heap (<[loc := node1]> (Graph.heap g')) g').
  assert (Hn1 : Graph.heap g1 !! loc = Some node1).
  { simpl. apply list_lookup_insert_eq. rewrite Hheap'. by eapply lookup_lt_Some. }
  exists g1. split; [done|]. split; [|split; [done|]].
  - unfold Graph.cacheNode. rewrite Hn1. unfold Graph._computeEdges.
    change (worthy node1) with (worthy node). rewrite Hworthy. simpl.
    assert (HE : Graph.computed_edges node1 g1 = Graph.computed_edges node g).
    { apply computed_edges_forget; [done|done|].
      apply nearby_forget; [done|done|]. intros i. simpl. rewrite Hheap'.
      destruct (decide (i = loc)) as [->|Hne].
      - rewrite list_lookup_insert_eq by (by eapply lookup_lt_Some). by rewrite Hn.
      - by rewrite list_lookup_insert_ne. }
    rewrite HE.
    rewrite (addEdgesToNode_again node node1 _ g g' g1 Hadd); [|done|done].
    simpl. change (Graph.getEdges node1 g1) with L.
    change (cacheEdges L node1) with node1.
    by rewrite list_insert_insert_eq.
  - intros e He. change (Graph.getEdges node g1) with L in He.
    exact (addEdgesToNode_provenance node _ g g' e Hadd He).
Qed.

(** The example calculator reads keys and sequences only. *)
Lemma example_calculator_blind : cache_blind example_calculator.
Proof.
  split; try done.
  intros n ns fb. simpl. by rewrite <- list_fmap_compose.
Qed.

Lemma cacheNode_twice_witness :
  ∃ node g1,
    wf ingested ∧
    Graph.heap ingested !! 0%nat = Some node ∧ worthy node = true ∧
    Graph.cacheNode (calc := example_calculator) 0 ingested = Ret g1 ∧
    Graph.cacheNode (calc := example_calculator) 0 g1 = Ret g1.
Proof.
  assert (Hwf : wf ingested).
  { apply (addNodesFromAPI_wf (geo := flat_geo) (Some tile_payload) home_loaded
             Graph.empty); [exact wf_empty|vm_compute; reflexivity]. }
  assert (Hn : ∃ node, Graph.heap ingested !! 0%nat = Some node ∧ worthy node = true).
  { vm_compute. eexists. split; reflexivity. }
  destruct Hn as (node & Hn & Hw).
  destruct (cacheNode_twice (calc := example_calculator) 0 node ingested
              example_calculator_blind Hwf Hn Hw) as (g1 & Hfirst & Hsecond & _).
  exists node, g1.
  exact (conj Hwf (conj Hn (conj Hw (conj Hfirst Hsecond)))).
Defined.

(** ** Change notifications *)

(** A fulfilled [fetch] emits exactly one notification, carrying the graph
    as it is after the node has been added. *)
Lemma fetch_completion_notifies {lib : NewGraph.NewNodeLib} (key0 : string)
    (res : gmap string NewGraph.IFullNode) (fn : NewGraph.IFullNode) (i : nat)
    (w : NewGraph.world) :
  NewGraph.requests w !! i = Some (NewGraph.ImageByKeyFull key0) →
  res !! key0 = Some fn →
  let w' := NewGraph.settle i (NewGraph.Fulfilled res) w in
  NewGraph.changed w' = NewGraph.changed w ++ [NewGraph.this w'] ∧
  NewGraph.fetching key0 w' = false ∧
  NewGraph.hasNode (NewGraph.fn_key fn) w' = true.
Proof.
  intros Hreq Hres. unfold NewGraph.settle, NewGraph.fetch_then.
  rewrite Hreq. simpl. rewrite Hres. simpl. split; [done|]. split.
  - unfold NewGraph.fetching. simpl. apply bool_decide_eq_false.
    rewrite lookup_delete_eq. by intros [].
  - unfold NewGraph.hasNode. simpl. apply bool_decide_eq_true.
    rewrite lookup_insert_eq. by eexists.
Qed.





(** * Further properties of the code *)

(** ** More on Spatial.wrap *)

(** X2: a value returned by [wrap] is neither above [max] nor below [min],
    and wrapping it again with the same bounds returns it at the first
    test of the loop. *)
Theorem wrap_idempotent (fuel fuel' : nat) (value min max v : spec_float) :
  Spatial.wrap fuel value min max = Some (Ret v) →
  (float64.ltb max v = false ∧ float64.ltb v min = false) ∧
  Spatial.wrap (S fuel') v min max = Some (Ret v).
Proof.
  intros Hrun. apply wrap_returns in Hrun as [Hguard Hrun].
  apply wrap_loop_range in Hrun as [Hhi Hlo]. split; [done|].
  unfold Spatial.wrap. rewrite Hguard. by rewrite wrap_loop_inside.
Qed.

Lemma wrap_idempotent_witness :
  Spatial.wrap 10 (float64.make 7 (-1)) (float64.of_Z 0) (float64.of_Z 1) =
    Some (Ret (float64.make 1 (-1))) ∧
  Spatial.wrap 1 (float64.make 1 (-1)) (float64.of_Z 0) (float64.of_Z 1) =
    Some (Ret (float64.make 1 (-1))).
Proof.
  split; [vm_compute; reflexivity|].
  refine (proj2 (wrap_idempotent 10 0 (float64.make 7 (-1)) (float64.of_Z 0)
                   (float64.of_Z 1) (float64.make 1 (-1)) _)).
  vm_compute; reflexivity.
Defined.

(** ** NewGraph.fill and the requests in flight *)

Section newgraph_facts.
Import NewGraph.

Lemma fetching_true k w : fetching k w = true ↔ is_Some (_fetching (this w) !! k).
Proof. unfold fetching. by rewrite bool_decide_eq_true. Qed.
Lemma filling_true k w : filling k w = true ↔ is_Some (_filling (this w) !! k).
Proof. unfold filling. by rewrite bool_decide_eq_true. Qed.
Lemma hasNode_true k w : hasNode k w = true ↔ is_Some (_graph (this w) !! k).
Proof. unfold hasNode. by rewrite bool_decide_eq_true. Qed.

Lemma fill_returns key0 w w' :
  fill key0 w = Ret w' →
  fetching key0 w = false ∧ filling key0 w = false ∧
  ∃ loc, getNode key0 w = Some loc ∧
    (∀ node, heap w !! loc = Some node → nn_fill node = None) ∧
    w' = {| this := {| _graph := _graph (this w);
                       _fetching := _fetching (this w);
                       _filling := <[key0 := true]> (_filling (this w)) |};
            heap := heap w;
            requests := requests w ++ [ImageByKeyFill key0 loc];
            changed := changed w |}.
Proof.
  unfold fill. destruct (fetching key0 w); [done|].
  destruct (filling key0 w); [done|].
  destruct (getNode key0 w) as [loc|]; [|done].
  destruct (heap w !! loc) as [node|] eqn:Hnode; simpl.
  - destruct (nn_fill node) eqn:Hfill; [done|]. intros [= <-].
    do 2 (split; [done|]). exists loc. split; [done|]. split; [|done].
    intros ? ?. congruence.
  - intros [= <-]. do 2 (split; [done|]). exists loc. split; [done|]. split; [|done]. intros ? ?. congruence.
Qed.

(** X4: [fill(key)] throws exactly when the key is being fetched, is being
    filled, has no node in the graph, or its node already has its fill
    data; a call that returns marks the key as filling, adds one request,
    leaves the graph, the nodes and the change stream as they were, and a
    second [fill] of the key throws. *)
Theorem fill_throws_iff (key0 : string) (w : world) :
  (is_throw (fill key0 w) ↔
     fetching key0 w = true ∨ filling key0 w = true ∨ hasNode key0 w = false ∨
     ∃ loc node f, getNode key0 w = Some loc ∧ heap w !! loc = Some node ∧
                   nn_fill node = Some f) ∧
  (∀ w', fill key0 w = Ret w' →
     filling key0 w' = true ∧ fetching key0 w' = false ∧
     _graph (this w') = _graph (this w) ∧ heap w' = heap w ∧
     changed w' = changed w ∧ length (requests w') = S (length (requests w)) ∧
     is_throw (fill key0 w')).
Proof.
  split.
  - unfold fill, hasNode, getNode.
    destruct (fetching key0 w); [split; [by left|done]|].
    destruct (filling key0 w); [split; [by right; left|done]|].
    destruct (_graph (this w) !! key0) as [loc|] eqn:Hg.
    + destruct (heap w !! loc) as [node|] eqn:Hnode; simpl.
      * destruct (nn_fill node) as [f|] eqn:Hf; simpl.
        -- split; [|done]. intros _. do 3 right. by exists loc, node, f.
        -- split; [done|].
           intros [?|[?|[Hno|(l & n & f & Heq & Hn & Hf')]]];
             [done|done|done|congruence].
      * split; [done|].
        intros [?|[?|[Hno|(l & n & f & Heq & Hn & Hf')]]];
          [done|done|done|congruence].
    + split; [|done]. intros _. right; right; left.
      apply bool_decide_eq_false. by intros [? ?].
  - intros w' Hret.
    destruct (fill_returns _ _ _ Hret) as (Hf & _ & loc & Hloc & _ & ->).
    assert (Hfl : filling key0
      {| this := {| _graph := _graph (this w); _fetching := _fetching (this w);
                    _filling := <[key0:=true]> (_filling (this w)) |};
         heap := heap w; requests := requests w ++ [ImageByKeyFill key0 loc];
         changed := changed w |} = true).
    { apply filling_true. simpl. rewrite lookup_insert_eq. by eexists. }
    split; [done|]. split; [done|]. do 3 (split; [done|]).
    split; [simpl; rewrite length_app; simpl; lia|].
    unfold fill at 1. rewrite Hfl.
    change (fetching key0 _) with (fetching key0 w). by rewrite Hf.
Qed.

(** X5: when the promise of a [fill] is fulfilled, the key stops being
    filling whatever else happens.  A node that has been filled meanwhile
    is left alone and nothing is emitted.  Otherwise the entry of the
    response is handed to [makeFull], present or not: an entry makes the
    node full and one notification carrying the new state is emitted; with
    no entry, a [makeFull] that throws leaves the nodes and the stream as
    they were, and one that returns has its result stored and one
    notification emitted. *)
Theorem fill_completion {lib : NewNodeLib} (key0 : string) (loc i : nat)
    (res : gmap string IFullNode) (w : world) :
  requests w !! i = Some (ImageByKeyFill key0 loc) →
  let w' := settle i (Fulfilled res) w in
  filling key0 w' = false ∧
  _graph (this w') = _graph (this w) ∧
  _fetching (this w') = _fetching (this w) ∧
  length (requests w') = pred (length (requests w)) ∧
  ∀ node, heap w !! loc = Some node →
    match nn_fill node, res !! key0 with
    | Some _, _ => heap w' = heap w ∧ changed w' = changed w
    | None, Some fn =>
        heap w' = <[loc := makeFull (fn_fill fn) node]> (heap w) ∧
        changed w' = changed w ++ [this w']
    | None, None =>
        match makeFull_undefined node with
        | Throw _ => heap w' = heap w ∧ changed w' = changed w
        | Ret node' =>
            heap w' = <[loc := node']> (heap w) ∧
            changed w' = changed w ++ [this w']
        end
    end.
Proof.
  intros Hreq. unfold settle, fill_then. rewrite Hreq. simpl.
  assert (Hlen : length (take i (requests w) ++ drop (S i) (requests w)) =
                 pred (length (requests w))).
  { apply lookup_lt_Some in Hreq. rewrite length_app, length_take, length_drop. lia. }
  assert (Hfl : ∀ h r c, filling key0
     {| this := {| _graph := _graph (this w); _fetching := _fetching (this w);
                   _filling := delete key0 (_filling (this w)) |};
        heap := h; requests := r; changed := c |} = false).
  { intros. apply bool_decide_eq_false. simpl. rewrite lookup_delete_eq. by intros []. }
  destruct (heap w !! loc) as [node|] eqn:Hloc.
  - destruct (nn_fill node) eqn:Hfill.
    + rewrite Hfl. repeat (split; [done|]). intros ? [= <-]. by rewrite Hfill.
    + destruct (res !! key0) as [fn|] eqn:Hres.
      * rewrite Hfl. repeat (split; [done|]). intros ? [= <-]. by rewrite Hfill.
      * destruct (makeFull_undefined node) as [node'|msg] eqn:Hmake;
          rewrite Hfl; repeat (split; [done|]); intros ? [= <-];
          by rewrite Hfill, Hmake.
  - rewrite Hfl. by repeat (split; [done|]).
Qed.

Lemma fill_completion_witness :
  let w := {| this := {| _graph := {[ "k" := 0%nat ]}; _fetching := ∅;
                         _filling := {[ "k" := true ]} |};
              heap := [{| nn_key := "k"; nn_fill := None |}];
              requests := [ImageByKeyFill "k" 0];
              changed := [] |} in
  let w' := settle (lib := refusing_nodes) 0
              (Fulfilled {[ "k" := {| fn_key := "k"; fn_fill := ∅ |} ]}) w in
  requests w !! 0%nat = Some (ImageByKeyFill "k" 0) ∧
  filling "k" w' = false ∧
  heap w' = [{| nn_key := "k"; nn_fill := Some ∅ |}] ∧
  changed w' = [this w'].
Proof.
  intros w w'. split; [reflexivity|].
  destruct (fill_completion (lib := refusing_nodes) "k" 0 0
              {[ "k" := {| fn_key := "k"; fn_fill := ∅ |} ]} w eq_refl)
    as (Hf & _ & _ & _ & Hnode).
  split; [exact Hf|]. exact (Hnode _ eq_refl).
Defined.

(** X6: the node that the completion of a [fetch] stores is already full,
    so a [fill] of its key right after the completion throws. *)
Theorem fetch_then_fill_throws {lib : NewNodeLib} (key0 : string)
    (res : gmap string IFullNode) (fn : IFullNode) (i : nat) (w : world) :
  requests w !! i = Some (ImageByKeyFull key0) →
  res !! key0 = Some fn →
  let w' := settle i (Fulfilled res) w in
  (∃ loc, getNode (fn_key fn) w' = Some loc ∧
          heap w' !! loc = Some (makeFull (fn_fill fn) (new_NewNode fn))) ∧
  is_throw (fill (fn_key fn) w').
Proof.
  intros Hreq Hres. unfold settle, fetch_then. rewrite Hreq. simpl. rewrite Hres.
  split.
  - exists (length (heap w)). unfold getNode. simpl. rewrite lookup_insert_eq.
    split; [done|]. by rewrite lookup_app_r, Nat.sub_diag.
  - unfold fill. destruct (fetching _ _); [done|].
    destruct (filling _ _); [done|].
    unfold getNode. simpl. rewrite lookup_insert_eq.
    by rewrite lookup_app_r, Nat.sub_diag by done.
Qed.

Lemma fetch_then_fill_throws_witness :
  ∃ w1, fetch "k" empty = Ret w1 ∧
        is_throw (fill "k" (settle (lib := refusing_nodes) 0
          (Fulfilled {[ "k" := {| fn_key := "k"; fn_fill := ∅ |} ]}) w1)).
Proof.
  eexists. split; [reflexivity|].
  refine (proj2 (fetch_then_fill_throws (lib := refusing_nodes) "k" _
                   {| fn_key := "k"; fn_fill := ∅ |} 0 _ _ _));
    reflexivity.
Defined.


(** *** What is in flight *)

Lemma removed_request_unique (l : list request) i r :
  NoDup (request_id <$> l) → l !! i = Some r →
  Forall (λ r', request_id r' ≠ request_id r) (take i l ++ drop (S i) l) ∧
  NoDup (request_id <$> (take i l ++ drop (S i) l)).
Proof.
  intros Hnd Hi. rewrite <-(take_drop_middle l i r Hi) in Hnd.
  rewrite fmap_app, fmap_cons in Hnd.
  apply NoDup_app in Hnd as (Hnd1 & Hdisj & Hnd2).
  apply NoDup_cons in Hnd2 as [Hnot Hnd2]. split.
  - apply Forall_app. split; apply Forall_forall; intros r' Hr' Heq.
    + apply (Hdisj (request_id r')); [by apply list_elem_of_fmap_2|].
      rewrite Heq. by left.
    + apply Hnot. rewrite <-Heq. by apply list_elem_of_fmap_2.
  - rewrite fmap_app. apply NoDup_app. split; [done|]. split; [|done].
    intros x Hx Hx'. apply (Hdisj x Hx). by right.
Qed.

Lemma ifo_constructed w : constructed w → in_flight_ok w.
Proof.
  intros (Hf & Hl & Hr & _). split.
  - rewrite Hr. constructor.
  - rewrite Hr. constructor.
  - intros k Hk. apply filling_true in Hk. rewrite Hl, lookup_empty in Hk.
    by destruct Hk.
  - intros k [Hk _]. apply fetching_true in Hk. rewrite Hf, lookup_empty in Hk.
    by destruct Hk.
Qed.

Lemma ifo_fetch key0 w w' : in_flight_ok w → fetch key0 w = Ret w' → in_flight_ok w'.
Proof.
  intros [Hm Ho Hn Hx] Hret.
  destruct (fetch_returns _ _ _ Hret) as (Hnf & Hnn & ->). split; simpl.
  - apply Forall_app. split.
    + eapply Forall_impl; [exact Hm|]. intros [k|k l]; simpl; [|done].
      rewrite !fetching_true. simpl. intros Hk.
      destruct (decide (key0 = k)) as [->|Hne];
        [rewrite lookup_insert_eq; by eexists|by rewrite lookup_insert_ne].
    + constructor; [|constructor]. simpl. apply fetching_true. simpl.
      rewrite lookup_insert_eq. by eexists.
  - rewrite fmap_app. apply NoDup_app. split; [done|]. split; [|apply NoDup_singleton].
    intros x Hx' Hin. apply list_elem_of_singleton in Hin as ->.
    apply list_elem_of_fmap in Hx' as (r & Hid & Hr).
    rewrite Forall_forall in Hm. specialize (Hm r Hr).
    destruct r as [k|k l]; simpl in Hid; [|done]. injection Hid as <-.
    simpl in Hm. congruence.
  - exact Hn.
  - intros k [Hk Hl]. change (filling k w = true) in Hl.
    apply fetching_true in Hk. simpl in Hk.
    destruct (decide (key0 = k)) as [->|Hne].
    + apply Hn in Hl. congruence.
    + rewrite lookup_insert_ne in Hk by done. apply (Hx k). split; [|done].
      by apply fetching_true.
Qed.

Lemma ifo_fill key0 w w' : in_flight_ok w → fill key0 w = Ret w' → in_flight_ok w'.
Proof.
  intros [Hm Ho Hn Hx] Hret.
  destruct (fill_returns _ _ _ Hret) as (Hnf & Hnl & loc & Hloc & _ & ->).
  split; simpl.
  - apply Forall_app. split.
    + eapply Forall_impl; [exact Hm|]. intros [k|k l]; simpl; [done|].
      rewrite !filling_true. simpl. intros Hk.
      destruct (decide (key0 = k)) as [->|Hne];
        [rewrite lookup_insert_eq; by eexists|by rewrite lookup_insert_ne].
    + constructor; [|constructor]. simpl. apply filling_true. simpl.
      rewrite lookup_insert_eq. by eexists.
  - rewrite fmap_app. apply NoDup_app. split; [done|]. split; [|apply NoDup_singleton].
    intros x Hx' Hin. apply list_elem_of_singleton in Hin as ->.
    apply list_elem_of_fmap in Hx' as (r & Hid & Hr).
    rewrite Forall_forall in Hm. specialize (Hm r Hr).
    destruct r as [k|k l]; simpl in Hid; [done|]. injection Hid as <-.
    simpl in Hm. congruence.
  - intros k Hk. change (hasNode k w = true). apply filling_true in Hk. simpl in Hk.
    destruct (decide (key0 = k)) as [->|Hne].
    + apply hasNode_true. unfold getNode in Hloc. rewrite Hloc. by eexists.
    + rewrite lookup_insert_ne in Hk by done. apply Hn. by apply filling_true.
  - intros k [Hk Hl]. change (fetching k w = true) in Hk.
    apply filling_true in Hl. simpl in Hl.
    destruct (decide (key0 = k)) as [->|Hne]; [congruence|].
    rewrite lookup_insert_ne in Hl by done. apply (Hx k). split; [done|].
    by apply filling_true.
Qed.

Lemma ifo_settle {lib : NewNodeLib} i s w :
  in_flight_ok w → in_flight_ok (settle i s w).
Proof.
  intros [Hm Ho Hn Hx]. unfold settle.
  destruct (requests w !! i) as [r|] eqn:Hi; [|by split].
  destruct (removed_request_unique _ _ _ Ho Hi) as [Hother Hnd].
  assert (Hrest : Forall (marked w) (take i (requests w) ++ drop (S i) (requests w))).
  { apply Forall_app. split; [by apply Forall_take|by apply Forall_drop]. }
  destruct s as [res|reason]; [|by split].
  destruct r as [k0|k0 loc].
  - unfold fetch_then. simpl. destruct (res !! k0) as [fn|]; [|by split].
    split; simpl.
    + rewrite Forall_forall in Hrest, Hother. apply Forall_forall. intros r Hr.
      specialize (Hrest r Hr). specialize (Hother r Hr).
      destruct r as [k|k l]; simpl in *; [|done].
      apply fetching_true. simpl. apply fetching_true in Hrest.
      rewrite lookup_delete_ne; [done|congruence].
    + done.
    + intros k Hk. change (filling k w = true) in Hk. apply Hn, hasNode_true in Hk.
      apply hasNode_true. simpl.
      destruct (decide (fn_key fn = k)) as [->|Hne];
        [rewrite lookup_insert_eq; by eexists|by rewrite lookup_insert_ne].
    + intros k [Hk Hl]. change (filling k w = true) in Hl.
      apply fetching_true in Hk. simpl in Hk. apply (Hx k). split; [|done].
      apply fetching_true. destruct (decide (k0 = k)) as [->|Hne].
      * rewrite lookup_delete_eq in Hk. by destruct Hk.
      * by rewrite lookup_delete_ne in Hk.
  - assert (Hgoal : ∀ h c,
      in_flight_ok {| this := {| _graph := _graph (this w);
                                 _fetching := _fetching (this w);
                                 _filling := delete k0 (_filling (this w)) |};
                      heap := h;
                      requests := take i (requests w) ++ drop (S i) (requests w);
                      changed := c |}).
    { intros h c. split; simpl.
      - rewrite Forall_forall in Hrest, Hother. apply Forall_forall. intros r Hr.
        specialize (Hrest r Hr). specialize (Hother r Hr).
        destruct r as [k|k l]; simpl in *; [done|].
        apply filling_true. simpl. apply filling_true in Hrest.
        rewrite lookup_delete_ne; [done|congruence].
      - done.
      - intros k Hk. change (hasNode k w = true). apply Hn.
        apply filling_true in Hk. simpl in Hk. apply filling_true.
        destruct (decide (k0 = k)) as [->|Hne].
        + rewrite lookup_delete_eq in Hk. by destruct Hk.
        + by rewrite lookup_delete_ne in Hk.
      - intros k [Hk Hl]. change (fetching k w = true) in Hk.
        apply filling_true in Hl. simpl in Hl. apply (Hx k). split; [done|].
        apply filling_true. destruct (decide (k0 = k)) as [->|Hne].
        + rewrite lookup_delete_eq in Hl. by destruct Hl.
        + by rewrite lookup_delete_ne in Hl. }
    unfold fill_then. simpl. destruct (heap w !! loc) as [node|]; [|apply Hgoal].
    destruct (nn_fill node); [apply Hgoal|].
    destruct (res !! k0); [apply Hgoal|].
    destruct (makeFull_undefined node); apply Hgoal.
Qed.

(** X7: in every state reached from a freshly constructed graph by calls
    of [fetch] and [fill] and by promises settling in any order, no key is
    both fetching and filling, a key being filled has a node, no two
    requests in flight have the same kind and key, and every request in
    flight has its key marked. *)
Theorem at_most_one_in_flight {lib : NewNodeLib} (w0 w : world) :
  constructed w0 → ng_reachable w0 w →
  (∀ k, ¬ (fetching k w = true ∧ filling k w = true)) ∧
  (∀ k, filling k w = true → hasNode k w = true) ∧
  NoDup (request_id <$> requests w) ∧
  (∀ k, ImageByKeyFull k ∈ requests w → fetching k w = true) ∧
  (∀ k loc, ImageByKeyFill k loc ∈ requests w → filling k w = true).
Proof.
  intros Hc Hr.
  assert (Hok : in_flight_ok w).
  { induction Hr; eauto using ifo_constructed, ifo_fetch, ifo_fill, ifo_settle. }
  destruct Hok as [Hm Ho Hn Hx]. rewrite Forall_forall in Hm.
  repeat split; try done.
  - intros k Hk. apply (Hm _ Hk).
  - intros k loc Hk. apply (Hm _ Hk).
Qed.

Lemma at_most_one_in_flight_witness :
  ∃ w, constructed empty ∧ ng_reachable (lib := refusing_nodes) empty w ∧
       requests w = [ImageByKeyFull "k"] ∧
       ∀ k, ¬ (fetching k w = true ∧ filling k w = true).
Proof.
  eexists. split; [by repeat split|].
  assert (Hr : ng_reachable (lib := refusing_nodes) empty
    {| this := {| _graph := ∅; _fetching := <["k" := true]> ∅; _filling := ∅ |};
       heap := []; requests := [ImageByKeyFull "k"]; changed := [] |}).
  { eapply ng_fetch; [apply ng_start|reflexivity]. }
  split; [exact Hr|]. split; [reflexivity|].
  refine (proj1 (at_most_one_in_flight empty _ _ Hr)). by repeat split.
Defined.

(** *** Nodes made by [fetch] are full *)

Lemma all_full_step {lib : NewNodeLib} w0 w :
  all_full w0 → ng_reachable w0 w → all_full w.
Proof.
  intros H0 Hr. induction Hr as [|key0 w w' _ IH Hret|key0 w w' _ IH Hret|i s w _ IH].
  - done.
  - by destruct (fetch_returns _ _ _ Hret) as (_ & _ & ->).
  - by destruct (fill_returns _ _ _ Hret) as (_ & _ & loc & _ & _ & ->).
  - unfold settle. destruct (requests w !! i) as [r|]; [|done].
    destruct s as [res|reason]; [|done]. destruct r as [k0|k0 loc].
    + unfold fetch_then. simpl. destruct (res !! k0) as [fn|]; [|done].
      intros k l. unfold getNode. simpl.
      destruct (decide (fn_key fn = k)) as [->|Hne].
      * rewrite lookup_insert_eq. intros [= <-]. eexists _, _.
        by rewrite lookup_app_r, Nat.sub_diag.
      * rewrite lookup_insert_ne by done. intros Hk.
        destruct (IH k l Hk) as (node & f & Hnode & Hf). exists node, f.
        split; [|done]. by apply lookup_app_l_Some.
    + unfold fill_then. simpl. destruct (heap w !! loc) as [node|] eqn:Hloc; [|done].
      destruct (nn_fill node) eqn:Hfill; [done|].
      assert (Hkept : ∀ node' c,
        all_full {| this := {| _graph := _graph (this w);
                               _fetching := _fetching (this w);
                               _filling := delete k0 (_filling (this w)) |};
                    heap := <[loc := node']> (heap w);
                    requests := take i (requests w) ++ drop (S i) (requests w);
                    changed := c |}).
      { intros node' c k l Hk. destruct (IH k l Hk) as (node'' & f & Hnode & Hf).
        destruct (decide (l = loc)) as [->|Hne]; [congruence|].
        exists node'', f. simpl. by rewrite list_lookup_insert_ne. }
      destruct (res !! k0) as [fn|]; [apply Hkept|].
      destruct (makeFull_undefined node); [apply Hkept|done].
Qed.

(** X8: [fetch] only ever stores full nodes, so in a graph whose nodes all
    are full when it is constructed (the default empty graph among them)
    every call of [fill] throws, in every state reached afterwards. *)
Theorem fill_needs_unfilled_node {lib : NewNodeLib} (w0 w : world) (key0 : string) :
  all_full w0 → ng_reachable w0 w → is_throw (fill key0 w).
Proof.
  intros H0 Hr. pose proof (all_full_step _ _ H0 Hr) as Hfull.
  unfold fill. destruct (fetching key0 w); [done|]. destruct (filling key0 w); [done|].
  destruct (getNode key0 w) as [loc|] eqn:Hloc; [|done].
  destruct (Hfull _ _ Hloc) as (node & f & -> & Hf). simpl. by rewrite Hf.
Qed.

Lemma fill_needs_unfilled_node_witness :
  ∃ w1, fetch "k" empty = Ret w1 ∧
        is_throw (fill "k" (settle (lib := refusing_nodes) 0
          (Fulfilled {[ "k" := {| fn_key := "k"; fn_fill := ∅ |} ]}) w1)).
Proof.
  eexists. split; [reflexivity|].
  apply (fill_needs_unfilled_node (lib := refusing_nodes) empty).
  - intros k loc Hk. unfold getNode in Hk. simpl in Hk. by rewrite lookup_empty in Hk.
  - apply ng_settle. eapply ng_fetch; [apply ng_start|reflexivity].
Defined.

End newgraph_facts.

(** ** The size of the coverage set *)

Section coverage_size.
Context {geo : GeoLib}.

(** X9: the coverage set starts with the home tile and has between one
    and nine entries; when the tile is at least 40 meters wide and high in
    the local frame a position cannot be near two opposite boundaries, so
    the set has at most four entries (the home tile and up to three
    neighbours); away from all four boundaries it is the home tile
    alone. *)
Theorem computeHs_size (p sw0 ne0 : ILatLon) (h : string) (nb : string → string) :
  let hs0 := Graph._computeHs p sw0 ne0 h nb in
  hs0 !! 0%nat = Some h ∧
  (1 <= length hs0 <= 9)%nat ∧
  ((40 <= (enu ne0 sw0).1.1)%Q → (40 <= (enu ne0 sw0).1.2)%Q →
   (length hs0 <= 4)%nat) ∧
  (¬ near_north p sw0 ne0 → ¬ near_west p sw0 → ¬ near_south p sw0 →
   ¬ near_east p sw0 ne0 → hs0 = [h]).
Proof.
  intros hs0. unfold hs0. rewrite _computeHs_unfold.
  unfold near_north, near_west, near_south, near_east.
  rewrite <-!Qltb_lt.
  destruct (Qltb ((enu p sw0).1.1 - 0) 20) eqn:Hl,
           (Qltb ((enu ne0 sw0).1.1 - (enu p sw0).1.1) 20) eqn:Hr,
           (Qltb ((enu p sw0).1.2 - 0) 20) eqn:Hb,
           (Qltb ((enu ne0 sw0).1.2 - (enu p sw0).1.2) 20) eqn:Ht;
    simpl; (split; [done|]); (split; [lia|]);
    (split; [|try done; intros; exfalso; auto]);
    try (intros; lia);
    intros Hx Hy; exfalso;
    rewrite ?Qltb_lt, ?Qltb_ge in *; lra.
Qed.

End coverage_size.

Lemma computeHs_size_witness :
  let p := {| lat := 0.0005%Q; lon := 0.0001%Q |} in
  let b := geohash_bounds (GeoLib := flat_geo) "t" in
  let nb := geohash_neighbours (GeoLib := flat_geo) "t" in
  (40 <= (enu (geo := flat_geo) (ne b) (sw b)).1.1)%Q ∧
  (40 <= (enu (geo := flat_geo) (ne b) (sw b)).1.2)%Q ∧
  (length (Graph._computeHs (geo := flat_geo) p (sw b) (ne b) "t" nb) <= 4)%nat.
Proof.
  intros p b nb.
  assert (H1 : (40 <= (enu (geo := flat_geo) (ne b) (sw b)).1.1)%Q) by (vm_compute; discriminate).
  assert (H2 : (40 <= (enu (geo := flat_geo) (ne b) (sw b)).1.2)%Q) by (vm_compute; discriminate).
  split; [exact H1|]. split; [exact H2|].
  exact (proj1 (proj2 (proj2 (computeHs_size (geo := flat_geo) p (sw b) (ne b) "t" nb))) H1 H2).
Defined.

(** ** The out-edges of a node after caching *)

Section edge_facts.

Lemma string_app_inj (s a b : string) : s +:+ a = s +:+ b → a = b.
Proof. induction s as [|c s IH]; simpl; [done|]. intros [= H]. auto. Qed.

Lemma edge_id_slot node c c' :
  edge_id node c = edge_id node c' ↔ edge_slot c = edge_slot c'.
Proof.
  unfold edge_id, edge_slot, Graph.edge_name. split.
  - intros [= Hto Hname]. rewrite Hto in Hname.
    apply string_app_inj, string_app_inj, (inj pretty) in Hname. congruence.
  - intros [= -> ->]. done.
Qed.

Lemma relabel_ids e value (l : list (graphlib.Edge * IEdgeData)) :
  (graphlib.relabel e value <$> l).*1 = l.*1.
Proof.
  rewrite <-list_fmap_compose. apply list_fmap_ext. intros i x _. simpl.
  unfold graphlib.relabel. case_decide; simpl; congruence.
Qed.

Lemma setEdge_ids v0 w0 value name0 gr :
  (graphlib._edgeLabels (graphlib.setEdge v0 w0 value name0 gr)).*1 =
    add_id (graphlib._edgeLabels gr).*1
           {| graphlib.v := v0; graphlib.w := w0; graphlib.name := name0 |}.
Proof.
  unfold graphlib.setEdge, add_id. case_bool_decide; simpl.
  - apply relabel_ids.
  - destruct (setNode_default_nodes w0 (graphlib.setNode_default v0 gr))
      as (_ & _ & ->).
    destruct (setNode_default_nodes v0 gr) as (_ & _ & ->).
    by rewrite fmap_app.
Qed.

Lemma setEdges_ids node (E : list IEdge) : ∀ gr,
  (graphlib._edgeLabels
     (foldl (λ gr edge, graphlib.setEdge (key node) (to edge) (data edge)
                          (Graph.edge_name node edge) gr) gr E)).*1 =
    foldl add_id (graphlib._edgeLabels gr).*1 (edge_id node <$> E).
Proof.
  induction E as [|c E IH]; intros gr; simpl; [done|].
  by rewrite IH, setEdge_ids.
Qed.

Lemma add_ids_out k (ids : list graphlib.Edge) : ∀ l,
  Forall (λ e, graphlib.v e = k) ids →
  filter (λ e, graphlib.v e = k) (foldl add_id l ids) =
    foldl add_id (filter (λ e, graphlib.v e = k) l) ids.
Proof.
  induction ids as [|e ids IH]; intros l Hall; simpl; [done|].
  apply Forall_cons in Hall as [He Hall]. rewrite IH by done. f_equal.
  unfold add_id.
  assert (Hiff : e ∈ l ↔ e ∈ filter (λ e, graphlib.v e = k) l).
  { rewrite list_elem_of_filter. tauto. }
  do 2 case_bool_decide; try tauto.
  rewrite filter_app, filter_cons_True by done. by rewrite filter_nil.
Qed.

Lemma add_ids_NoDup (ids : list graphlib.Edge) : ∀ l,
  NoDup l → NoDup (foldl add_id l ids).
Proof.
  induction ids as [|e ids IH]; intros l Hl; simpl; [done|].
  apply IH. unfold add_id. case_bool_decide; [done|].
  apply NoDup_app. split; [done|]. split; [|apply NoDup_singleton].
  intros x Hx ->%list_elem_of_singleton. done.
Qed.

Lemma add_ids_elem (ids : list graphlib.Edge) : ∀ l e,
  e ∈ foldl add_id l ids ↔ e ∈ l ∨ e ∈ ids.
Proof.
  induction ids as [|e' ids IH]; intros l e; simpl.
  - rewrite elem_of_nil. tauto.
  - rewrite IH, elem_of_cons. unfold add_id. case_bool_decide.
    + split; [tauto|]. intros [?|[->|?]]; tauto.
    + rewrite elem_of_app, list_elem_of_singleton. tauto.
Qed.

(** The first identity with a property, when identities are added one by
    one. *)
Lemma add_ids_head (P : graphlib.Edge → Prop) `{!∀ e, Decision (P e)}
    (ids : list graphlib.Edge) : ∀ l,
  head (filter P (foldl add_id l ids)) =
    match head (filter P l) with
    | Some e => Some e
    | None => head (filter P ids)
    end.
Proof.
  induction ids as [|e ids IH]; intros l; simpl.
  - by destruct (head (filter P l)).
  - rewrite IH. unfold add_id. rewrite filter_cons. case_bool_decide as Hin.
    + destruct (head (filter P l)) as [x|] eqn:Hhd; [done|].
      case_decide as HP; [|done]. exfalso.
      assert (He : e ∈ filter P l) by (by apply list_elem_of_filter).
      destruct (filter P l); [by apply elem_of_nil in He|done].
    + rewrite filter_app. destruct (filter P l) as [|x xs]; simpl; [|done].
      rewrite filter_cons, filter_nil. by case_decide.
Qed.

Lemma out_ids_removed k gr :
  filter (λ e, graphlib.v e = k)
    (filter (λ x, graphlib.v (fst x) ≠ k) (graphlib._edgeLabels gr)).*1 = [].
Proof.
  induction (graphlib._edgeLabels gr) as [|x l IH]; [done|].
  rewrite filter_cons. case_decide as Hx; [|done].
  rewrite fmap_cons, filter_cons_False by done. exact IH.
Qed.

Lemma edge_Some e d gr :
  graphlib.edge e gr = Some d → (e, d) ∈ graphlib._edgeLabels gr.
Proof.
  unfold graphlib.edge. destruct (list_find _ _) as [[i x]|] eqn:Hfind; [|done].
  simpl. intros [= <-]. apply list_find_Some in Hfind as (Hx & Hfst & _).
  apply list_elem_of_lookup_2 in Hx. destruct x as [oe d]. simpl in *. by subst.
Qed.

Lemma edge_is_Some e gr :
  e ∈ (graphlib._edgeLabels gr).*1 → is_Some (graphlib.edge e gr).
Proof.
  intros (x & -> & Hx)%list_elem_of_fmap. unfold graphlib.edge.
  destruct (list_find_elem_of (λ y, fst y = fst x) _ x Hx eq_refl) as [y ->].
  by eexists.
Qed.

(** What [_addEdgesToNode] leaves as the out-edges of the node: the
    identities of the edges it was given, each once, in the order of their
    first occurrence; each is stored with the data of an edge of the list
    that has its identity. *)
Lemma addEdgesToNode_out node E g g1 :
  Graph._addEdgesToNode node E g = Ret g1 →
  graphlib.outEdges (key node) (Graph._graph g1) =
    Some (foldl add_id [] (edge_id node <$> E)) ∧
  ∀ oe d, (oe, d) ∈ graphlib._edgeLabels (Graph._graph g1) →
          graphlib.v oe = key node →
          ∃ c, c ∈ E ∧ oe = edge_id node c ∧ d = data c.
Proof.
  unfold Graph._addEdgesToNode, graphlib.outEdges.
  destruct (graphlib.hasNode (key node) (Graph._graph g)) eqn:Hhas; [|done].
  rewrite remove_outEdges. intros [= <-]. simpl. split.
  - set (gr1 := {| graphlib._nodes := _; graphlib._edgeLabels := _ |}).
    assert (Hhas' : graphlib.hasNode (key node)
              (foldl (λ gr edge, graphlib.setEdge (key node) (to edge) (data edge)
                                   (Graph.edge_name node edge) gr) gr1 E) = true).
    { apply bool_decide_eq_true. apply bool_decide_eq_true in Hhas as [x Hx].
      exists x. eapply lookup_weaken; [|apply setEdges_nodes_mono]. done. }
    rewrite Hhas'. f_equal. rewrite setEdges_ids, add_ids_out.
    + subst gr1. simpl. by rewrite out_ids_removed.
    + apply Forall_fmap, Forall_forall. by intros c _.
  - intros oe d Hin Hv.
    pose proof (setEdges_labels (key node) (Graph.edge_name node) E
      (λ x, graphlib.v (fst x) = key node →
            ∃ c, c ∈ E ∧ fst x = edge_id node c ∧ snd x = data c)) as Hlab.
    eapply Forall_forall in Hlab; [|by eauto| |exact Hin].
    + exact (Hlab Hv).
    + simpl. apply Forall_forall. intros x Hx Hvx.
      by apply list_elem_of_filter in Hx as [Hne _].
Qed.

Lemma getEdges_unfold node g outs :
  graphlib.outEdges (key node) (Graph._graph g) = Some outs →
  Graph.getEdges node g =
    omap (λ outEdge,
            data0 ← graphlib.edge outEdge (Graph._graph g);
            Some {| data := data0; from := graphlib.v outEdge;
                    to := graphlib.w outEdge |}) outs.
Proof. intros Hout. unfold Graph.getEdges. by rewrite Hout. Qed.

Lemma outEdges_elem k gr outs oe :
  graphlib.outEdges k gr = Some outs → oe ∈ outs →
  graphlib.v oe = k ∧ oe ∈ (graphlib._edgeLabels gr).*1.
Proof.
  unfold graphlib.outEdges. destruct (graphlib.hasNode k gr); [|done].
  intros [= <-] Hin. by apply list_elem_of_filter in Hin.
Qed.

(** Reading the first out-edge of a direction from the graph or from the
    list [getEdges] returns is the same. *)
Lemma nextKey_getEdges node dir g outs :
  graphlib.outEdges (key node) (Graph._graph g) = Some outs →
  graphlib.w <$>
    head (filter (λ outEdge,
                    direction <$> graphlib.edge outEdge (Graph._graph g) = Some dir)
                 outs) =
  to <$> head (filter (λ e, direction (data e) = dir) (Graph.getEdges node g)).
Proof.
  intros Hout. rewrite (getEdges_unfold _ _ _ Hout).
  assert (Hall : Forall (λ oe, is_Some (graphlib.edge oe (Graph._graph g))) outs).
  { apply Forall_forall. intros oe Hoe.
    destruct (outEdges_elem _ _ _ _ Hout Hoe) as [_ Hin]. by apply edge_is_Some. }
  clear Hout. induction Hall as [|oe outs [d Hd] _ IH]; [done|].
  rewrite filter_cons. cbn [omap list_omap]. rewrite Hd. cbn [mbind option_bind].
  rewrite filter_cons. simpl.
  destruct (decide (direction d = dir)) as [Hdir|Hdir].
  - rewrite decide_True by (by rewrite Hdir). done.
  - rewrite decide_False by (intros [= ?]; done). exact IH.
Qed.


Lemma head_filter_fmap {A B} (f : A → B) (P : B → Prop) (Q : A → Prop)
    `{!∀ y, Decision (P y), !∀ x, Decision (Q x)} (l : list A) :
  (∀ x, x ∈ l → P (f x) ↔ Q x) →
  head (filter P (f <$> l)) = f <$> head (filter Q l).
Proof.
  induction l as [|x l IH]; intros Hext; [done|].
  rewrite fmap_cons, !filter_cons.
  assert (Hx : P (f x) ↔ Q x) by (apply Hext; by left).
  assert (IH' := IH (λ y Hy, Hext y (list_elem_of_further _ _ _ Hy))).
  destruct (decide (P (f x))), (decide (Q x)); try tauto; done.
Qed.

Lemma NoDup_omap_fmap {A B C} (f : A → option B) (g : B → C) (l : list A) :
  (∀ x y a b, x ∈ l → y ∈ l → f x = Some a → f y = Some b → g a = g b → x = y) →
  NoDup l → NoDup (g <$> omap f l).
Proof.
  induction l as [|x l IH]; intros Hinj Hnd; [constructor|].
  apply NoDup_cons in Hnd as [Hx Hnd]. cbn [omap list_omap].
  assert (IH' : NoDup (g <$> omap f l)).
  { apply IH; [|done]. intros x' y' a b Hx' Hy'. apply Hinj; by right. }
  destruct (f x) as [a|] eqn:Hfx; [|done]. rewrite fmap_cons.
  apply NoDup_cons. split; [|done].
  intros (b & Hab & Hb)%list_elem_of_fmap.
  apply list_elem_of_omap in Hb as (y & Hy & Hfy).
  assert (x = y) as ->; [|done].
  apply (Hinj x y a b); [by left|by right|done|done|done].
Qed.

End edge_facts.

Section navigation_facts.
Context {calc : EdgeCalculator}.

(** What [cacheNode] does to a worthy node. *)
Lemma cacheNode_worthy loc node g g1 :
  Graph.heap g !! loc = Some node → worthy node = true →
  Graph.cacheNode loc g = Ret g1 →
  ∃ g', Graph._addEdgesToNode node (Graph.computed_edges node g) g = Ret g' ∧
        Graph._graph g1 = Graph._graph g' ∧
        Graph.heap g1 = <[loc := cacheEdges (Graph.getEdges node g1) node]> (Graph.heap g) ∧
        Graph._nodeIndex g1 = Graph._nodeIndex g ∧
        Graph._unWorthyNodes g1 = Graph._unWorthyNodes g ∧
        Graph._sequences g1 = Graph._sequences g ∧
        Graph._sequenceHashes g1 = Graph._sequenceHashes g.
Proof.
  intros Hn Hw. unfold Graph.cacheNode. rewrite Hn. unfold Graph._computeEdges.
  rewrite Hw. simpl.
  destruct (Graph._addEdgesToNode node _ g) as [g'|msg] eqn:Hadd; [|done].
  simpl. intros [= <-]. exists g'. split; [done|].
  destruct (addEdgesToNode_frame _ _ _ _ Hadd) as (_ & Hs & Hsh & Hi & Hu & Hh).
  simpl. by rewrite Hh.
Qed.

Lemma cacheNode_unworthy loc node g :
  Graph.heap g !! loc = Some node → worthy node = false →
  Graph.cacheNode loc g = Ret g.
Proof.
  intros Hn Hw. unfold Graph.cacheNode. rewrite Hn. unfold Graph._computeEdges.
  by rewrite Hw.
Qed.

(** X10: after [cacheNode] on a worthy node the node caches exactly the
    edges [getEdges] reads back; each of them leaves the node, no two of
    them have the same destination and direction, and every computed edge
    has its destination and direction among them. *)
Theorem cached_edges_distinct (loc : nat) (node : Node) (g g1 : Graph.t) :
  Graph.heap g !! loc = Some node → worthy node = true →
  Graph.cacheNode loc g = Ret g1 →
  let es := Graph.getEdges node g1 in
  Graph.heap g1 !! loc = Some (cacheEdges es node) ∧
  Forall (λ e, from e = key node) es ∧
  NoDup (edge_slot <$> es) ∧
  (∀ c, c ∈ Graph.computed_edges node g → edge_slot c ∈ edge_slot <$> es).
Proof.
  intros Hn Hw Hrun es.
  destruct (cacheNode_worthy _ _ _ _ Hn Hw Hrun) as (g' & Hadd & Hg & Hh & _).
  destruct (addEdgesToNode_out _ _ _ _ Hadd) as [Hout Hlab]. rewrite <-Hg in Hout, Hlab.
  split. { rewrite Hh. apply list_lookup_insert_eq. by eapply lookup_lt_Some. }
  split.
  { apply Forall_forall. intros e He.
    by apply elem_of_getEdges in He as (oe & d & _ & Hv & ->). }
  assert (Hslot : ∀ oe d, oe ∈ foldl add_id [] (edge_id node <$> Graph.computed_edges node g) →
    graphlib.edge oe (Graph._graph g1) = Some d →
    ∃ c, c ∈ Graph.computed_edges node g ∧ oe = edge_id node c ∧
         edge_slot c = (graphlib.w oe, direction d)).
  { intros oe d Hoe Hd. apply edge_Some in Hd.
    destruct (outEdges_elem _ _ _ _ Hout Hoe) as [Hv _].
    destruct (Hlab oe d Hd Hv) as (c & Hc & -> & ->). by exists c. }
  unfold es. rewrite (getEdges_unfold _ _ _ Hout). split.
  - apply NoDup_omap_fmap; [|apply add_ids_NoDup; constructor].
    intros x y a b Hx Hy Hfx Hfy Hab.
    destruct (graphlib.edge x _) as [dx|] eqn:Hdx; [|done].
    destruct (graphlib.edge y _) as [dy|] eqn:Hdy; [|done].
    simpl in Hfx, Hfy. injection Hfx as <-. injection Hfy as <-.
    destruct (Hslot x dx Hx Hdx) as (cx & _ & -> & Hcx).
    destruct (Hslot y dy Hy Hdy) as (cy & _ & -> & Hcy).
    apply edge_id_slot. unfold edge_slot in *. simpl in *. congruence.
  - intros c Hc.
    assert (Hin : edge_id node c ∈
              foldl add_id [] (edge_id node <$> Graph.computed_edges node g)).
    { apply add_ids_elem. right. by apply list_elem_of_fmap_2. }
    destruct (outEdges_elem _ _ _ _ Hout Hin) as [_ Hids].
    destruct (edge_is_Some _ _ Hids) as [d Hd].
    destruct (Hslot _ d Hin Hd) as (c' & _ & Hid & Hc').
    apply list_elem_of_fmap.
    exists {| data := d; from := graphlib.v (edge_id node c);
              to := graphlib.w (edge_id node c) |}.
    split.
    + apply edge_id_slot in Hid. rewrite Hid, Hc'. done.
    + apply list_elem_of_omap. exists (edge_id node c). split; [done|].
      by rewrite Hd.
Qed.

(** X11: after [cacheNode] on a worthy node, [nextKey(node, dir)] returns
    the destination of the first computed edge of direction [dir], and
    [null] when no computed edge has that direction. *)
Theorem nextKey_after_cacheNode (loc : nat) (node : Node) (g g1 : Graph.t)
    (dir : EdgeDirection) :
  Graph.heap g !! loc = Some node → worthy node = true →
  Graph.cacheNode loc g = Ret g1 →
  Graph.nextKey node dir g1 =
    Ret (to <$> head (filter (λ c, direction (data c) = dir)
                             (Graph.computed_edges node g))).
Proof.
  intros Hn Hw Hrun.
  destruct (cacheNode_worthy _ _ _ _ Hn Hw Hrun) as (g' & Hadd & Hg & _).
  destruct (addEdgesToNode_out _ _ _ _ Hadd) as [Hout Hlab]. rewrite <-Hg in Hout, Hlab.
  unfold Graph.nextKey. rewrite Hout. f_equal.
  set (E := Graph.computed_edges node g) in *.
  set (P' := λ oe : graphlib.Edge,
         graphlib.name oe = key node +:+ graphlib.w oe +:+ pretty dir).
  rewrite (filter_ext_in _ P').
  - rewrite add_ids_head. simpl.
    rewrite (head_filter_fmap (edge_id node) P' (λ c, direction (data c) = dir)).
    + by destruct (head (filter _ E)).
    + intros c _. unfold P', edge_id, Graph.edge_name. simpl. split.
      * intros H. by apply string_app_inj, string_app_inj, (inj pretty) in H.
      * by intros ->.
  - intros oe Hoe.
    destruct (outEdges_elem _ _ _ _ Hout Hoe) as [Hv Hids].
    destruct (edge_is_Some _ _ Hids) as [d Hd]. rewrite Hd. simpl.
    destruct (Hlab oe d (edge_Some _ _ _ Hd) Hv) as (c & _ & -> & ->).
    unfold P', edge_id, Graph.edge_name. simpl. split.
    + by intros [= ->].
    + intros H. by apply string_app_inj, string_app_inj, (inj pretty) in H as ->.
Qed.

End navigation_facts.

(** X12: [nextKey] throws exactly when the key of the node is not a node
    of the graph; when it returns, the result is the destination of the
    first edge of [getEdges(node)] with the direction asked for, or [null]
    when there is none, and [nextNode] returns the node stored under that
    key. *)
Theorem nextKey_first_edge (node : Node) (dir : EdgeDirection) (g : Graph.t) :
  let first := to <$> head (filter (λ e, direction (data e) = dir)
                                   (Graph.getEdges node g)) in
  (is_throw (Graph.nextKey node dir g) ↔
     graphlib.hasNode (key node) (Graph._graph g) = false) ∧
  (∀ r, Graph.nextKey node dir g = Ret r → r = first) ∧
  (∀ r, Graph.nextNode node dir g = Ret r → r = first ≫= λ k, Graph.getNode k g).
Proof.
  intros first. unfold Graph.nextNode, Graph.nextKey.
  destruct (graphlib.outEdges (key node) (Graph._graph g)) as [outs|] eqn:Hout.
  - rewrite (nextKey_getEdges _ _ _ _ Hout). fold first. simpl.
    unfold graphlib.outEdges in Hout.
    destruct (graphlib.hasNode _ _); [|done].
    split; [done|]. split; by intros r [= <-].
  - unfold graphlib.outEdges in Hout.
    destruct (graphlib.hasNode _ _); [done|]. simpl. by repeat split.
Qed.

(** X13: in a state that satisfies the invariant, a node returned by
    [nextNode] is the object stored under the destination key of an
    out-edge of the given node with the direction asked for. *)
Theorem nextNode_follows_edge (node : Node) (dir : EdgeDirection) (g : Graph.t)
    (loc : nat) :
  wf g → Graph.nextNode node dir g = Ret (Some loc) →
  ∃ e n, e ∈ Graph.getEdges node g ∧ from e = key node ∧
         direction (data e) = dir ∧
         Graph.nextKey node dir g = Ret (Some (to e)) ∧
         Graph.getNode (to e) g = Some loc ∧
         Graph.heap g !! loc = Some n ∧ key n = to e.
Proof.
  intros Hwf. unfold Graph.nextNode, Graph.nextKey.
  destruct (graphlib.outEdges (key node) (Graph._graph g)) as [outs|] eqn:Hout;
    [|done].
  rewrite (nextKey_getEdges _ _ _ _ Hout). simpl.
  destruct (head _) as [e|] eqn:Hhd; [|done]. simpl. intros [= Hloc].
  assert (He : e ∈ filter (λ e, direction (data e) = dir) (Graph.getEdges node g)).
  { destruct (filter _ _); [done|]. injection Hhd as ->. by left. }
  apply list_elem_of_filter in He as [Hdir He].
  destruct (wf_keyed _ Hwf _ _ Hloc) as (n & Hn & Hk).
  exists e, n. split; [done|]. split; [|done].
  by apply elem_of_getEdges in He as (oe & d & _ & Hv & ->).
Qed.

Lemma cached_edges_distinct_witness :
  ∃ node g1,
    Graph.heap ingested !! 0%nat = Some node ∧ worthy node = true ∧
    Graph.cacheNode (calc := example_calculator) 0 ingested = Ret g1 ∧
    NoDup (edge_slot <$> Graph.getEdges node g1).
Proof.
  assert (Hn : ∃ node, Graph.heap ingested !! 0%nat = Some node ∧ worthy node = true).
  { vm_compute. eexists. split; reflexivity. }
  destruct Hn as (node & Hn & Hw).
  assert (Hc : ∃ g1, Graph.cacheNode (calc := example_calculator) 0 ingested = Ret g1).
  { vm_compute. eexists. reflexivity. }
  destruct Hc as (g1 & Hc).
  exists node, g1.
  exact (conj Hn (conj Hw (conj Hc (proj1 (proj2 (proj2
    (cached_edges_distinct (calc := example_calculator) 0 node ingested g1 Hn Hw Hc))))))).
Defined.

Lemma nextKey_after_cacheNode_witness :
  ∃ node g1,
    Graph.heap ingested !! 0%nat = Some node ∧ worthy node = true ∧
    Graph.cacheNode (calc := example_calculator) 0 ingested = Ret g1 ∧
    Graph.nextKey node 0%N g1 =
      Ret (to <$> head (filter (λ c, direction (data c) = 0%N)
                               (Graph.computed_edges (calc := example_calculator)
                                  node ingested))).
Proof.
  assert (Hn : ∃ node, Graph.heap ingested !! 0%nat = Some node ∧ worthy node = true).
  { vm_compute. eexists. split; reflexivity. }
  destruct Hn as (node & Hn & Hw).
  assert (Hc : ∃ g1, Graph.cacheNode (calc := example_calculator) 0 ingested = Ret g1).
  { vm_compute. eexists. reflexivity. }
  destruct Hc as (g1 & Hc).
  exists node, g1.
  exact (conj Hn (conj Hw (conj Hc
    (nextKey_after_cacheNode (calc := example_calculator) 0 node ingested g1 0%N Hn Hw Hc)))).
Defined.

Lemma nextNode_follows_edge_witness :
  ∃ node g1 loc,
    wf g1 ∧ Graph.nextNode node 0%N g1 = Ret (Some loc) ∧
    ∃ e n, e ∈ Graph.getEdges node g1 ∧ from e = key node ∧
           direction (data e) = 0%N ∧
           Graph.nextKey node 0%N g1 = Ret (Some (to e)) ∧
           Graph.getNode (to e) g1 = Some loc ∧
           Graph.heap g1 !! loc = Some n ∧ key n = to e.
Proof.
  assert (Hwf : wf ingested).
  { apply (addNodesFromAPI_wf (geo := flat_geo) (Some tile_payload) home_loaded
             Graph.empty); [exact wf_empty|vm_compute; reflexivity]. }
  assert (Hc : ∃ g1 node, Graph.cacheNode (calc := example_calculator) 0 ingested = Ret g1 ∧
                     Graph.heap ingested !! 0%nat = Some node ∧
                     Graph.nextNode node 0%N g1 = Ret (Some 1%nat)).
  { vm_compute. eexists _, _. repeat split; reflexivity. }
  destruct Hc as (g1 & node & Hc & Hn & Hnext).
  pose proof (cacheNode_wf (calc := example_calculator) 0 ingested g1 Hwf Hc) as Hwf1.
  exists node, g1, 1%nat.
  exact (conj Hwf1 (conj Hnext (nextNode_follows_edge node 0%N g1 1 Hwf1 Hnext))).
Defined.

(** ** What a call keeps *)

Section shape.
Context {geo : GeoLib}.

Lemma make_node_fields h hsh g nodes im :
  Forall is_Some hsh →
  ∃ node,
    Graph.make_node (geohash_bounds h) h (geohash_neighbours h) hsh (g, nodes) im =
      Ret (Graph.set_unWorthyNodes (<[im_key im := true]> (Graph._unWorthyNodes g))
             (Graph.set_heap (Graph.heap g ++ [node]) g),
           nodes ++ [length (Graph.heap g)]) ∧
    image_node h hsh im node.
Proof.
  intros Hh. unfold Graph.make_node.
  destruct (find_sequence_returns (im_key im) _ Hh) as [s Hs]. rewrite Hs. simpl.
  eexists. split; [done|]. by repeat split.
Qed.

Lemma make_nodes_fields h hsh ims : ∀ g nodes,
  Forall is_Some hsh →
  ∃ g2 news,
    Graph.make_nodes (geohash_bounds h) h (geohash_neighbours h) hsh ims (g, nodes) =
      Ret (g2, nodes ++ seq (length (Graph.heap g)) (length ims)) ∧
    Graph.heap g2 = Graph.heap g ++ news ∧
    Forall2 (image_node h hsh) ims news.
Proof.
  induction ims as [|im ims IH]; intros g nodes Hh.
  - exists g, []. simpl. rewrite !app_nil_r. repeat split; done.
  - destruct (make_node_fields h hsh g nodes im Hh) as (node & Hmk & Hnode).
    cbn [Graph.make_nodes]. rewrite Hmk. cbn [mbind outcome_bind].
    set (g1 := Graph.set_unWorthyNodes _ _).
    destruct (IH g1 (nodes ++ [length (Graph.heap g)]) Hh)
      as (g2 & news & Hrun & Hheap & Hnew).
    exists g2, (node :: news). rewrite Hrun.
    assert (Hh1 : Graph.heap g1 = Graph.heap g ++ [node]) by done.
    split.
    { rewrite Hh1, length_app, <- app_assoc. simpl. by rewrite Nat.add_1_r. }
    split. { by rewrite Hheap, Hh1, <- app_assoc. }
    by apply Forall2_cons.
Qed.

(** The whole call in one equation: the sequences are read, the node
    objects are built and appended to the store, the new keys are inserted
    and the sweep runs. *)
Lemma addNodesFromAPI_shape d tiles g h :
  wf g → data_hs d !! 0%nat = Some h →
  ∃ g1 hsh g2 news,
    let g3 := Graph._insertNodes
                (seq (length (Graph.heap g)) (length (data_ims d))) g2 in
    foldl Graph.add_sequence (g, []) (data_ss d) = (g1, hsh) ∧
    Forall is_Some hsh ∧
    Graph._sequences g2 = Graph._sequences g1 ∧
    Graph._sequenceHashes g2 = Graph._sequenceHashes g1 ∧
    Graph._graph g2 = Graph._graph g ∧
    Graph._nodeIndex g2 = Graph._nodeIndex g ∧
    Graph.heap g2 = Graph.heap g ++ news ∧
    Forall2 (image_node h hsh) (data_ims d) news ∧
    (∀ k, Graph._unWorthyNodes g2 !! k =
            if bool_decide (k ∈ im_key <$> data_ims d) then Some true
            else Graph._unWorthyNodes g !! k) ∧
    sweep_inv g3 ∧
    Graph.addNodesFromAPI (Some d) tiles g = Ret (swept tiles g3).
Proof.
  intros Hwf Hh. unfold Graph.addNodesFromAPI. rewrite Hh.
  assert (Hok : hashes_ok (g, [])) by (split; [apply Hwf|done]).
  destruct (add_sequences_spec (data_ss d) (g, []) Hok)
    as ([Hseq Hsome] & Hg1 & Hi1 & Hu1 & Hh1).
  destruct (foldl Graph.add_sequence (g, []) (data_ss d)) as [g1 hsh].
  simpl in *.
  destruct (make_nodes_spec (geohash_bounds h) h (geohash_neighbours h) hsh
              (data_ims d) g1 [] Hsome)
    as (g2 & news & Hrun & Hs2 & Hsh2 & Hg2 & Hi2 & Hheap2 & Hnew & Hu2).
  destruct (make_nodes_fields h hsh (data_ims d) g1 [] Hsome)
    as (g2' & news' & Hrun' & Hheap2' & Hnew').
  rewrite Hrun in Hrun'. injection Hrun' as <-.
  rewrite Hheap2 in Hheap2'. apply app_inv_head in Hheap2' as <-.
  exists g1, hsh, g2, news. rewrite Hrun. simpl. rewrite Hh1 in *.
  assert (Hg2' : Graph._graph g2 = Graph._graph g) by congruence.
  assert (Hu2' : ∀ k, Graph._unWorthyNodes g2 !! k =
            if bool_decide (k ∈ im_key <$> data_ims d) then Some true
            else Graph._unWorthyNodes g !! k).
  { intros k. by rewrite Hu2, Hu1. }
  pose proof (sweep_inv_after_insert d g g2 news Hwf Hg2' Hheap2 Hnew Hu2') as Hinv.
  split; [done|]. split; [done|]. split; [done|]. split; [done|].
  split; [done|]. split; [congruence|]. split; [done|]. split; [done|].
  split; [done|]. split; [done|].
  by apply makeNodesWorthy_swept.
Qed.

Lemma swept_lookup tiles g loc :
  Graph.heap (swept tiles g) !! loc =
    (λ node, if promoted_by tiles g loc node then makeWorthy node else node)
      <$> Graph.heap g !! loc.
Proof. unfold swept, swept_heap. simpl. by rewrite list_lookup_imap. Qed.

Lemma insertNodes_labels ns : ∀ g,
  graphlib._edgeLabels (Graph._graph (Graph._insertNodes ns g)) =
    graphlib._edgeLabels (Graph._graph g).
Proof.
  induction ns as [|loc ns IH]; intros g; [done|].
  unfold Graph._insertNodes in *. simpl. rewrite IH.
  unfold Graph._insertNode. destruct (Graph.heap g !! loc); [|done].
  by destruct (Graph.getNode _ g).
Qed.

End shape.

Section stability.
Context {geo : GeoLib} {calc : EdgeCalculator}.

Lemma same_identity_refl node : same_identity node node.
Proof. by repeat split. Qed.

Lemma same_identity_makeWorthy node : same_identity node (makeWorthy node).
Proof. by repeat split. Qed.

Lemma same_identity_cacheEdges es node :
  worthy node = true → same_identity node (cacheEdges es node).
Proof. intros Hw. repeat split; try done. simpl. congruence. Qed.

Lemma same_identity_key node node' : same_identity node node' → key node' = key node.
Proof. intros (Ha & _). unfold key. by rewrite Ha. Qed.

Lemma swept_evolves tiles g : Forall2 same_identity (Graph.heap g) (Graph.heap (swept tiles g)).
Proof.
  apply Forall2_same_length_lookup_2.
  - unfold swept, swept_heap. simpl. by rewrite length_imap.
  - intros loc node node' Hn. rewrite swept_lookup, Hn. simpl. intros [= <-].
    destruct (promoted_by _ _ _ _);
      [apply same_identity_makeWorthy|apply same_identity_refl].
Qed.

Lemma add_sequence_keeps st s skey s0 :
  Graph._sequences st.1 !! skey = Some s0 →
  Graph._sequences (Graph.add_sequence st s).1 !! skey = Some s0.
Proof.
  destruct st as [g l]. unfold Graph.add_sequence. simpl. intros Hs.
  case_bool_decide as Hin; [done|]. simpl.
  rewrite lookup_insert_ne; [done|]. intros Heq. apply Hin. rewrite Heq. by eexists.
Qed.

Lemma add_sequences_keep ss : ∀ st skey s0,
  Graph._sequences st.1 !! skey = Some s0 →
  Graph._sequences (foldl Graph.add_sequence st ss).1 !! skey = Some s0.
Proof.
  induction ss as [|s ss IH]; intros st skey s0 Hs; simpl; [done|].
  by apply IH, add_sequence_keeps.
Qed.

Lemma insertNode_index loc g :
  Graph._nodeIndex g `prefix_of` Graph._nodeIndex (Graph._insertNode loc g).
Proof.
  unfold Graph._insertNode. destruct (Graph.heap g !! loc); [|done].
  destruct (Graph.getNode _ g); [done|]. simpl. by apply prefix_app_r.
Qed.

Lemma insertNodes_index ns : ∀ g,
  Graph._nodeIndex g `prefix_of` Graph._nodeIndex (Graph._insertNodes ns g).
Proof.
  induction ns as [|loc ns IH]; intros g; [done|].
  unfold Graph._insertNodes in *. simpl.
  etrans; [apply insertNode_index|apply IH].
Qed.

(** What a call of [addNodesFromAPI] with a payload keeps. *)
Lemma addNodesFromAPI_keeps d tiles g g' :
  wf g → Graph.addNodesFromAPI (Some d) tiles g = Ret g' →
  (∃ news, Forall2 same_identity (Graph.heap g ++ news) (Graph.heap g') ∧
           length news = length (data_ims d) ∧
           Forall (λ n, worthy n = false ∧ edges n = None) news) ∧
  (∀ k loc, Graph.getNode k g = Some loc → Graph.getNode k g' = Some loc) ∧
  (∀ skey s, Graph._sequences g !! skey = Some s →
             Graph._sequences g' !! skey = Some s) ∧
  Graph._nodeIndex g `prefix_of` Graph._nodeIndex g' ∧
  graphlib._edgeLabels (Graph._graph g') = graphlib._edgeLabels (Graph._graph g).
Proof.
  intros Hwf Hrun.
  destruct (data_hs d !! 0%nat) as [h|] eqn:Hh;
    [|by unfold Graph.addNodesFromAPI in Hrun; rewrite Hh in Hrun].
  destruct (addNodesFromAPI_shape d tiles g h Hwf Hh)
    as (g1 & hsh & g2 & news & Hss & Hsome & Hs2 & Hsh2 & Hg2 & Hi2 & Hheap2 & Hnew
        & Hu2 & Hinv & Hrun').
  rewrite Hrun in Hrun'. injection Hrun' as ->. cbv zeta.
  set (ns := seq (length (Graph.heap g)) (length (data_ims d))) in *.
  destruct (insertNodes_frame ns g2) as (Hs3 & Hsh3 & Hu3 & Hheap3).
  split; [|split; [|split; [|split]]].
  - exists news. split; [|split].
    + rewrite <-Hheap2, <-Hheap3. apply swept_evolves.
    + symmetry. by eapply Forall2_length.
    + apply Forall_forall. intros n Hn. apply list_elem_of_lookup in Hn as [i Hi].
      destruct (Forall2_lookup_r _ _ _ _ _ Hnew Hi) as (im & _ & _ & Hw & He & _).
      done.
  - intros k loc Hloc. change (Graph.getNode k (Graph._insertNodes ns g2) = Some loc).
    apply insertNodes_mono. unfold Graph.getNode in *. by rewrite Hg2.
  - intros skey s Hsk. simpl. rewrite Hs3, Hs2.
    pose proof (add_sequences_keep (data_ss d) (g, []) skey s Hsk) as Hk.
    by rewrite Hss in Hk.
  - simpl. rewrite <-Hi2. apply insertNodes_index.
  - simpl. by rewrite insertNodes_labels, Hg2.
Qed.

(** What a call of [cacheNode] keeps. *)
Lemma cacheNode_keeps loc g g' :
  Graph.cacheNode loc g = Ret g' →
  (∀ k, Graph.getNode k g' = Graph.getNode k g) ∧
  Graph._nodeIndex g' = Graph._nodeIndex g ∧
  Graph._sequences g' = Graph._sequences g ∧
  Graph._sequenceHashes g' = Graph._sequenceHashes g ∧
  Graph._unWorthyNodes g' = Graph._unWorthyNodes g ∧
  Forall2 same_identity (Graph.heap g) (Graph.heap g') ∧
  (∀ oe d, (oe, d) ∈ graphlib._edgeLabels (Graph._graph g') →
     (oe, d) ∈ graphlib._edgeLabels (Graph._graph g) ∨
     ∃ node, Graph.heap g !! loc = Some node ∧ worthy node = true ∧
             graphlib.v oe = key node).
Proof.
  intros Hrun.
  assert (Hsame : ∀ g0 : Graph.t, Forall2 same_identity (Graph.heap g0) (Graph.heap g0)).
  { intros g0. apply Forall2_same_length_lookup_2; [done|].
    intros i x y Hx Hy. rewrite Hx in Hy. injection Hy as <-. apply same_identity_refl. }
  destruct (Graph.heap g !! loc) as [node|] eqn:Hn.
  2:{ unfold Graph.cacheNode in Hrun. rewrite Hn in Hrun. injection Hrun as <-.
      repeat split; auto. }
  destruct (worthy node) eqn:Hw.
  2:{ rewrite (cacheNode_unworthy _ _ _ Hn Hw) in Hrun. injection Hrun as <-.
      repeat split; auto. }
  destruct (cacheNode_worthy _ _ _ _ Hn Hw Hrun)
    as (g1 & Hadd & Hg & Hh & Hi & Hu & Hs & Hsh).
  destruct (addEdgesToNode_frame _ _ _ _ Hadd) as (Hget & _).
  split. { intros k. unfold Graph.getNode in *. by rewrite Hg, Hget. }
  do 4 (split; [done|]). split.
  - rewrite Hh. apply Forall2_same_length_lookup_2; [by rewrite length_insert|].
    intros l x y Hx. destruct (decide (l = loc)) as [->|Hne].
    + rewrite list_lookup_insert_eq by (by eapply lookup_lt_Some).
      intros [= <-]. rewrite Hn in Hx. injection Hx as <-.
      by apply same_identity_cacheEdges.
    + rewrite list_lookup_insert_ne by done. rewrite Hx. intros [= <-].
      apply same_identity_refl.
  - intros oe d Hin. rewrite Hg in Hin.
    destruct (decide (graphlib.v oe = key node)) as [Hv|Hv]; [right; by exists node|].
    left. unfold Graph._addEdgesToNode, graphlib.outEdges in Hadd.
    destruct (graphlib.hasNode (key node) (Graph._graph g)); [|done].
    rewrite remove_outEdges in Hadd. injection Hadd as <-. simpl in Hin.
    assert (Hin' : (oe, d) ∈ filter (λ x, graphlib.v (fst x) ≠ key node)
              (graphlib._edgeLabels
                 (foldl (λ gr edge, graphlib.setEdge (key node) (to edge) (data edge)
                                      (Graph.edge_name node edge) gr)
                    {| graphlib._nodes := graphlib._nodes (Graph._graph g);
                       graphlib._edgeLabels :=
                         filter (λ x, graphlib.v (fst x) ≠ key node)
                                (graphlib._edgeLabels (Graph._graph g)) |}
                    (Graph.computed_edges node g))))
      by (by apply list_elem_of_filter).
    rewrite setEdges_filter_other in Hin'. simpl in Hin'.
    apply list_elem_of_filter in Hin' as [_ Hin'].
    by apply list_elem_of_filter in Hin' as [_ Hin'].
Qed.

(** X14: neither [addNodesFromAPI] nor [cacheNode] forgets anything: every
    node object stays at its place with its key, position, compass angle,
    coverage set and sequence, a worthy object stays worthy, the cache of
    an object that is still unworthy is untouched, every key keeps its
    node, every sequence key keeps its sequence, and the spatial index
    only gains entries. *)
Theorem graph_never_forgets (g g' : Graph.t) :
  wf g → step g g' →
  (∀ loc node, Graph.heap g !! loc = Some node →
     ∃ node', Graph.heap g' !! loc = Some node' ∧ same_identity node node') ∧
  (∀ k loc, Graph.getNode k g = Some loc → Graph.getNode k g' = Some loc) ∧
  (∀ skey s, Graph._sequences g !! skey = Some s →
             Graph._sequences g' !! skey = Some s) ∧
  Graph._nodeIndex g `prefix_of` Graph._nodeIndex g'.
Proof.
  intros Hwf Hstep. destruct Hstep as [[d|] tiles g0 g0' Hrun|loc g0 g0' Hrun].
  - destruct (addNodesFromAPI_keeps d tiles g0 g0' Hwf Hrun)
      as ((news & Hev & _) & Hget & Hseq & Hidx & _).
    split; [|done]. intros loc node Hn.
    apply (Forall2_lookup_l _ _ _ loc node Hev). by apply lookup_app_l_Some.
  - injection Hrun as <-. split; [|done]. intros loc node Hn. exists node.
    split; [done|apply same_identity_refl].
  - destruct (cacheNode_keeps _ _ _ Hrun) as (Hget & Hi & Hs & _ & _ & Hev & _).
    split; [|split; [|split]].
    + intros l n Hl. exact (Forall2_lookup_l _ _ _ l n Hev Hl).
    + intros k l. by rewrite Hget.
    + by rewrite Hs.
    + by rewrite Hi.
Qed.

End stability.

(** ** The spatial index, and edges of unworthy nodes *)

Section index_facts.
Context {geo : GeoLib} {calc : EdgeCalculator}.

Lemma index_ok_ext g g' :
  index_ok g →
  (∀ k, Graph.getNode k g' = Graph.getNode k g) →
  Graph._nodeIndex g' = Graph._nodeIndex g →
  (∀ loc node, Graph.heap g !! loc = Some node →
     ∃ node', Graph.heap g' !! loc = Some node' ∧ same_identity node node') →
  index_ok g'.
Proof.
  intros [Hitem Hnode Honce] Hget Hidx Hheap. split.
  - intros item Hin. rewrite Hidx in Hin.
    destruct (Hitem item Hin) as (node & Hn & Hk & Hlat & Hlon).
    destruct (Hheap _ _ Hn) as (node' & Hn' & Hid).
    exists node'. rewrite (same_identity_key _ _ Hid), Hget.
    destruct Hid as (_ & -> & _). done.
  - intros k loc. rewrite Hget, Hidx. apply Hnode.
  - by rewrite Hidx.
Qed.

Lemma index_ok_insertNode loc g : index_ok g → index_ok (Graph._insertNode loc g).
Proof.
  intros Hok. pose proof Hok as [Hitem Hnode Honce].
  pose proof (insertNode_getNode loc g) as Hget.
  destruct (insertNode_frame loc g) as (_ & _ & _ & Hheap).
  unfold Graph._insertNode in *.
  destruct (Graph.heap g !! loc) as [node|] eqn:Hn; [|done].
  destruct (Graph.getNode (key node) g) as [l|] eqn:Hl; [done|].
  simpl in Hheap. split; simpl.
  - intros item [Hin| ->%list_elem_of_singleton]%elem_of_app.
    + destruct (Hitem item Hin) as (node0 & Hn0 & Hk0 & Hll).
      exists node0. split; [done|]. split; [|done]. by rewrite Hget, Hk0.
    + exists node. simpl. split; [done|]. split; [|by split].
      rewrite Hget, Hl. by rewrite decide_True.
  - intros k l0. rewrite Hget.
    destruct (Graph.getNode k g) as [l1|] eqn:Hk.
    + intros [= <-]. destruct (Hnode _ _ Hk) as (item & Hin & Hloc).
      exists item. split; [|done]. apply elem_of_app. by left.
    + case_decide; [|done]. intros [= <-].
      exists {| item_lat := lat (latLon node); item_lon := lon (latLon node);
                item_node := loc |}. split; [|done].
      apply elem_of_app. right. by apply list_elem_of_singleton.
  - unfold rbush.insert. rewrite fmap_app. apply NoDup_app. split; [done|].
    split; [|apply NoDup_singleton]. simpl.
    intros l0 (item & -> & Hin)%list_elem_of_fmap Heq%list_elem_of_singleton.
    destruct (Hitem item Hin) as (node0 & Hn0 & Hk0 & _).
    rewrite Heq in Hn0, Hk0. congruence.
Qed.

Lemma index_ok_insertNodes ns : ∀ g, index_ok g → index_ok (Graph._insertNodes ns g).
Proof.
  induction ns as [|loc ns IH]; intros g Hok; [done|].
  unfold Graph._insertNodes in *. simpl. by apply IH, index_ok_insertNode.
Qed.

Lemma index_ok_addNodesFromAPI data0 tiles g g' :
  wf g → index_ok g → Graph.addNodesFromAPI data0 tiles g = Ret g' → index_ok g'.
Proof.
  intros Hwf Hok Hrun. destruct data0 as [d|]; [|by injection Hrun as <-].
  destruct (data_hs d !! 0%nat) as [h|] eqn:Hh;
    [|by unfold Graph.addNodesFromAPI in Hrun; rewrite Hh in Hrun].
  destruct (addNodesFromAPI_shape d tiles g h Hwf Hh)
    as (g1 & hsh & g2 & news & Hss & Hsome & Hs2 & Hsh2 & Hg2 & Hi2 & Hheap2 & Hnew
        & Hu2 & Hinv & Hrun').
  rewrite Hrun in Hrun'. injection Hrun' as ->. cbv zeta.
  apply (index_ok_ext (Graph._insertNodes
           (seq (length (Graph.heap g)) (length (data_ims d))) g2)); [|done|done|].
  - apply index_ok_insertNodes. apply (index_ok_ext g); [done| |done|].
    + intros k. unfold Graph.getNode. by rewrite Hg2.
    + intros loc node Hn. exists node. split; [|apply same_identity_refl].
      rewrite Hheap2. by apply lookup_app_l_Some.
  - intros loc node Hn. exact (Forall2_lookup_l _ _ _ loc node (swept_evolves tiles _) Hn).
Qed.

Lemma index_ok_cacheNode loc g g' :
  wf g → index_ok g → Graph.cacheNode loc g = Ret g' → index_ok g'.
Proof.
  intros Hwf Hok Hrun.
  destruct (cacheNode_keeps _ _ _ Hrun) as (Hget & Hi & _ & _ & _ & Hev & _).
  apply (index_ok_ext g); [done|done|done|].
  intros l n Hl. exact (Forall2_lookup_l _ _ _ l n Hev Hl).
Qed.

End index_facts.

Section index_theorems.
Context {geo : GeoLib} {calc : EdgeCalculator}.

Lemma index_ok_empty : index_ok Graph.empty.
Proof.
  split; simpl.
  - by intros item ?%elem_of_nil.
  - intros k loc Hloc. unfold Graph.getNode, graphlib.node in Hloc. simpl in Hloc.
    by rewrite lookup_empty in Hloc.
  - constructor.
Qed.



(** X15: in every reachable state the spatial index and the graph hold
    the same nodes: each entry of the index points to the object that is
    the node of its key, at the position of that object, every node of the
    graph has an entry, and no object is entered twice. *)
Theorem index_matches_graph (g : Graph.t) :
  reachable g →
  (∀ item, item ∈ Graph._nodeIndex g →
     ∃ node, Graph.heap g !! item_node item = Some node ∧
             Graph.getNode (key node) g = Some (item_node item) ∧
             item_lat item = lat (latLon node) ∧ item_lon item = lon (latLon node)) ∧
  (∀ k loc, Graph.getNode k g = Some loc →
     ∃ item, item ∈ Graph._nodeIndex g ∧ item_node item = loc) ∧
  NoDup (item_node <$> Graph._nodeIndex g).
Proof.
  intros Hr.
  assert (Hok : index_ok g).
  { induction Hr as [|data0 tiles g g' Hr IH Hrun|loc g g' Hr IH Hrun].
    - exact index_ok_empty.
    - exact (index_ok_addNodesFromAPI data0 tiles g g' (reachable_wf g Hr) IH Hrun).
    - exact (index_ok_cacheNode loc g g' (reachable_wf g Hr) IH Hrun). }
  destruct Hok as [Hitem Hnode Honce]. split; [exact Hitem|]. split; [exact Hnode|].
  exact Honce.
Qed.


End index_theorems.

Section edge_invariant.
Context {geo : GeoLib} {calc : EdgeCalculator}.

Lemma edges_ok_empty : edges_ok Graph.empty.
Proof.
  split; simpl.
  - by intros oe d ?%elem_of_nil.
  - intros loc node Hn. by rewrite lookup_nil in Hn.
Qed.

Lemma edges_ok_addNodesFromAPI data0 tiles g g' :
  wf g → edges_ok g → Graph.addNodesFromAPI data0 tiles g = Ret g' → edges_ok g'.
Proof.
  intros Hwf Hok Hrun. destruct data0 as [d|]; [|by injection Hrun as <-].
  destruct (addNodesFromAPI_keeps d tiles g g' Hwf Hrun)
    as ((news & Hev & _ & Hnews) & Hget & _ & _ & Hlab).
  destruct Hok as [Hsrc Hunc]. split.
  - intros oe d0 Hin. rewrite Hlab in Hin.
    destruct (Hsrc oe d0 Hin) as (loc & node & Hloc & Hn & Hw).
    destruct (Forall2_lookup_l _ _ _ loc node Hev) as (node' & Hn' & Hid);
      [by apply lookup_app_l_Some|].
    exists loc, node'. split; [by apply Hget|]. split; [done|].
    by apply Hid.
  - intros loc node' Hn' Hw'.
    destruct (Forall2_lookup_r _ _ _ loc node' Hev Hn') as (node & Hn & Hid).
    destruct Hid as (_ & _ & _ & _ & _ & Hmono & Hedges).
    rewrite (Hedges Hw').
    assert (Hw : worthy node = false).
    { destruct (worthy node); [|done]. rewrite Hmono in Hw'; done. }
    apply lookup_app_Some in Hn as [Hn|[_ Hn]]; [by apply (Hunc loc)|].
    rewrite Forall_forall in Hnews.
    apply list_elem_of_lookup_2 in Hn. by apply (Hnews node) in Hn as [_ ?].
Qed.

Lemma edges_ok_cacheNode loc g g' :
  wf g → edges_ok g → Graph.cacheNode loc g = Ret g' → edges_ok g'.
Proof.
  intros Hwf [Hsrc Hunc] Hrun.
  destruct (cacheNode_keeps _ _ _ Hrun) as (Hget & _ & _ & _ & _ & Hev & Hlab).
  split.
  - intros oe d Hin.
    assert (Hold : ∃ l n, Graph.getNode (graphlib.v oe) g = Some l ∧
                          Graph.heap g !! l = Some n ∧ worthy n = true).
    { destruct (Hlab oe d Hin) as [Hin'|(node & Hn & Hw & Hv)]; [by apply (Hsrc oe d)|].
      exists loc, node. rewrite Hv. split; [|done]. by apply (wf_worthy _ Hwf). }
    destruct Hold as (l & n & Hl & Hn & Hw).
    destruct (Forall2_lookup_l _ _ _ l n Hev Hn) as (n' & Hn' & Hid).
    exists l, n'. rewrite Hget. split; [done|]. split; [done|]. by apply Hid.
  - intros l n' Hn' Hw'.
    destruct (Forall2_lookup_r _ _ _ l n' Hev Hn') as (n & Hn & Hid).
    destruct Hid as (_ & _ & _ & _ & _ & Hmono & Hedges).
    rewrite (Hedges Hw'). apply (Hunc l); [done|].
    destruct (worthy n); [|done]. rewrite Hmono in Hw'; done.
Qed.

Lemma reachable_edges_ok g : reachable g → edges_ok g.
Proof.
  induction 1 as [|data0 tiles g g' Hr IH Hrun|loc g g' Hr IH Hrun].
  - exact edges_ok_empty.
  - exact (edges_ok_addNodesFromAPI data0 tiles g g' (reachable_wf g Hr) IH Hrun).
  - exact (edges_ok_cacheNode loc g g' (reachable_wf g Hr) IH Hrun).
Qed.

(** X17: in every reachable state a node of the graph that is not worthy
    has no cached edges and no out-edges: [getEdges] returns the empty
    list, [nextKey] returns [null] for every direction, and [cacheNode]
    leaves the state as it is. *)
Theorem unworthy_has_no_edges (g : Graph.t) (k : string) (loc : nat) (node : Node)
    (dir : EdgeDirection) :
  reachable g →
  Graph.getNode k g = Some loc → Graph.heap g !! loc = Some node →
  worthy node = false →
  edges node = None ∧ Graph.getEdges node g = [] ∧
  Graph.nextKey node dir g = Ret None ∧ Graph.cacheNode loc g = Ret g.
Proof.
  intros Hr Hloc Hn Hw. destruct (reachable_edges_ok g Hr) as [Hsrc Hunc].
  pose proof (reachable_wf g Hr) as Hwf.
  destruct (wf_keyed _ Hwf _ _ Hloc) as (node0 & Hn0 & Hk).
  rewrite Hn in Hn0. injection Hn0 as <-. subst k.
  assert (Hout : graphlib.outEdges (key node) (Graph._graph g) = Some []).
  { unfold graphlib.outEdges.
    assert (Hhas : graphlib.hasNode (key node) (Graph._graph g) = true).
    { apply bool_decide_eq_true. unfold Graph.getNode, graphlib.node in Hloc.
      destruct (graphlib._nodes (Graph._graph g) !! key node); [by eexists|done]. }
    rewrite Hhas. f_equal.
    destruct (filter _ _) as [|oe l] eqn:Hf; [done|]. exfalso.
    assert (Hoe : oe ∈ filter (λ e, graphlib.v e = key node)
                    (graphlib._edgeLabels (Graph._graph g)).*1)
      by (rewrite Hf; by left).
    apply list_elem_of_filter in Hoe as [Hv Hoe].
    apply list_elem_of_fmap in Hoe as ([oe' d] & -> & Hin). simpl in Hv.
    destruct (Hsrc _ _ Hin) as (l' & n' & Hl' & Hn' & Hw'). simpl in Hl'.
    rewrite Hv in Hl'. congruence. }
  split; [by apply (Hunc loc)|]. split.
  - by rewrite (getEdges_unfold _ _ _ Hout).
  - split; [unfold Graph.nextKey; by rewrite Hout|].
    by apply (cacheNode_unworthy loc node).
Qed.

End edge_invariant.

(** ** Sequences of the nodes *)

Section sequence_facts.
Context {geo : GeoLib} {calc : EdgeCalculator}.

Lemma seq_hash_lookup (s0 : Sequence) (ks : list string) : ∀ (sh : SequenceHash) k s',
  foldl (λ sh k, <[k := s0]> sh) sh ks !! k = Some s' →
  (s' = s0 ∧ k ∈ ks) ∨ sh !! k = Some s'.
Proof.
  induction ks as [|k0 ks IH]; intros sh k s'; simpl; [by right|].
  intros [[-> Hin]|Hl]%IH.
  - left. split; [done|]. by right.
  - destruct (decide (k0 = k)) as [->|Hne].
    + rewrite lookup_insert_eq in Hl. injection Hl as <-. left. split; [done|]. by left.
    + rewrite lookup_insert_ne in Hl by done. by right.
Qed.

Lemma seq_ok_empty : seq_ok Graph.empty.
Proof.
  split; simpl.
  - intros skey sh Hs. by rewrite lookup_empty in Hs.
  - intros skey s Hs. by rewrite lookup_empty in Hs.
  - intros loc node s Hn. by rewrite lookup_nil in Hn.
Qed.

Lemma add_sequence_seq_ok st s :
  seq_ok st.1 → hashes_ok st → hashes_known st →
  seq_ok (Graph.add_sequence st s).1 ∧ hashes_known (Graph.add_sequence st s).
Proof.
  destruct st as [g hsh]. intros [Hhash Hkey Hnode] [Hh _] Hknown.
  unfold Graph.add_sequence, hashes_known in *. simpl in *.
  case_bool_decide as Hin; simpl.
  - split; [by split|]. apply Forall_app. split; [done|]. apply Forall_singleton.
    destruct (Hh _ Hin) as [sh Hsh]. exists sh, (s_key s). by rewrite Hsh.
  - assert (Hfresh : ∀ skey, is_Some (Graph._sequences g !! skey) → s_key s ≠ skey).
    { intros skey Hs Heq. apply Hin. by rewrite Heq. }
    split; [split; simpl|].
    + intros skey sh. destruct (decide (s_key s = skey)) as [<-|Hne].
      * rewrite !lookup_insert_eq. intros [= <-]. exists (new_Sequence s).
        split; [done|]. intros k s' Hl.
        apply seq_hash_lookup in Hl as [Hl|Hl]; [done|by rewrite lookup_empty in Hl].
      * rewrite !lookup_insert_ne by done. apply Hhash.
    + intros skey s0. destruct (decide (s_key s = skey)) as [<-|Hne].
      * rewrite lookup_insert_eq. by intros [= <-].
      * rewrite lookup_insert_ne by done. apply Hkey.
    + intros loc node s0 Hn Hs. destruct (Hnode loc node s0 Hn Hs) as [Hk Hs0].
      split; [done|]. rewrite lookup_insert_ne; [done|]. apply Hfresh. by eexists.
    + apply Forall_app. split.
      * eapply Forall_impl; [exact Hknown|]. intros o (sh & skey & -> & Hsh).
        exists sh, skey. split; [done|]. rewrite lookup_insert_ne; [done|].
        apply Hfresh. destruct (Hhash _ _ Hsh) as (s0 & Hs0 & _). by eexists.
      * apply Forall_singleton. eexists _, (s_key s). split; [done|].
        by rewrite lookup_insert_eq.
Qed.

Lemma add_sequences_seq_ok ss : ∀ st,
  seq_ok st.1 → hashes_ok st → hashes_known st →
  seq_ok (foldl Graph.add_sequence st ss).1 ∧
  hashes_known (foldl Graph.add_sequence st ss).
Proof.
  induction ss as [|s ss IH]; intros st Hok Hh Hk; simpl; [done|].
  destruct (add_sequence_seq_ok st s Hok Hh Hk) as [Hok' Hk'].
  apply IH; [done|by apply add_sequence_hashes|done].
Qed.

Lemma find_sequence_Some k hsh s :
  Graph.find_sequence k hsh = Ret (Some s) →
  ∃ sh, Some sh ∈ hsh ∧ sh !! k = Some s.
Proof.
  induction hsh as [|[ts|] hsh IH]; simpl; [done| |done].
  destruct (ts !! k) as [s'|] eqn:Hl.
  - intros [= ->]. exists ts. split; [by left|done].
  - intros (sh & Hin & Hsh)%IH. exists sh. split; [by right|done].
Qed.

Lemma seq_ok_addNodesFromAPI data0 tiles g g' :
  wf g → seq_ok g → Graph.addNodesFromAPI data0 tiles g = Ret g' → seq_ok g'.
Proof.
  intros Hwf Hok Hrun. destruct data0 as [d|]; [|by injection Hrun as <-].
  destruct (data_hs d !! 0%nat) as [h|] eqn:Hh;
    [|by unfold Graph.addNodesFromAPI in Hrun; rewrite Hh in Hrun].
  destruct (addNodesFromAPI_shape d tiles g h Hwf Hh)
    as (g1 & hsh & g2 & news & Hss & Hsome & Hs2 & Hsh2 & Hg2 & Hi2 & Hheap2 & Hnew
        & Hu2 & Hinv & Hrun').
  rewrite Hrun in Hrun'. injection Hrun' as ->. cbv zeta.
  set (ns := seq (length (Graph.heap g)) (length (data_ims d))) in *.
  destruct (insertNodes_frame ns g2) as (Hs3 & Hsh3 & Hu3 & Hheap3).
  assert (Hhok : hashes_ok (g, [])) by (split; [apply Hwf|done]).
  destruct (add_sequences_seq_ok (data_ss d) (g, []) Hok Hhok) as [Hok1 Hknown];
    [constructor|].
  destruct (add_sequences_spec (data_ss d) (g, []) Hhok) as (_ & _ & _ & _ & Hheap1).
  rewrite Hss in Hok1, Hknown, Hheap1. simpl in Hok1, Hknown, Hheap1.
  destruct Hok1 as [Hhash Hkey Hnode]. unfold hashes_known in Hknown. simpl in Hknown.
  split; simpl; rewrite ?Hs3, ?Hsh3, ?Hs2, ?Hsh2; [done|done|].
  intros loc node' s Hn' Hs'.
  destruct (Forall2_lookup_r _ _ _ loc node' (swept_evolves tiles _) Hn')
    as (node & Hn & Hid).
  rewrite (same_identity_key _ _ Hid).
  destruct Hid as (_ & _ & _ & _ & Hseq & _). rewrite Hseq in Hs'.
  rewrite Hheap3, Hheap2 in Hn.
  apply lookup_app_Some in Hn as [Hn|[_ Hn]].
  - apply (Hnode loc); [by rewrite Hheap1|done].
  - destruct (Forall2_lookup_r _ _ _ _ _ Hnew Hn) as (im & _ & Him).
    destruct Him as (Hk & _ & _ & _ & _ & _ & _ & _ & Hfind).
    rewrite Hs' in Hfind. apply find_sequence_Some in Hfind as (sh & Hin & Hsh).
    rewrite Forall_forall in Hknown.
    destruct (Hknown _ Hin) as (sh' & skey & [= <-] & Hknow).
    destruct (Hhash _ _ Hknow) as (s0 & Hs0 & Hall).
    destruct (Hall _ _ Hsh) as [-> Hkin]. rewrite Hk.
    split; [done|]. by rewrite (Hkey _ _ Hs0).
Qed.

Lemma seq_ok_cacheNode loc g g' :
  seq_ok g → Graph.cacheNode loc g = Ret g' → seq_ok g'.
Proof.
  intros [Hhash Hkey Hnode] Hrun.
  destruct (cacheNode_keeps _ _ _ Hrun) as (_ & _ & Hs & Hsh & _ & Hev & _).
  split; rewrite ?Hs, ?Hsh; [done|done|].
  intros l n' s Hn' Hs'.
  destruct (Forall2_lookup_r _ _ _ l n' Hev Hn') as (n & Hn & Hid).
  rewrite (same_identity_key _ _ Hid).
  destruct Hid as (_ & _ & _ & _ & Hseq & _). rewrite Hseq in Hs'.
  by apply (Hnode l).
Qed.

(** X18: in every reachable state the sequence of a node lists the key of
    the node, and it is the sequence the graph holds under its own
    key. *)
Theorem node_sequence_lists_key (g : Graph.t) (loc : nat) (node : Node) (s : Sequence) :
  reachable g →
  Graph.heap g !! loc = Some node → sequence node = Some s →
  key node ∈ sequence_keys s ∧
  Graph._sequences g !! sequence_key s = Some s.
Proof.
  intros Hr Hn Hs.
  assert (Hok : seq_ok g).
  { clear Hn Hs. induction Hr as [|data0 tiles g g' Hr IH Hrun|loc' g g' Hr IH Hrun].
    - exact seq_ok_empty.
    - exact (seq_ok_addNodesFromAPI data0 tiles g g' (reachable_wf g Hr) IH Hrun).
    - exact (seq_ok_cacheNode loc' g g' IH Hrun). }
  exact (so_node g Hok loc node s Hn Hs).
Qed.

End sequence_facts.

(** ** New images, and more on the sweep *)

Section new_image.
Context {geo : GeoLib}.

Lemma insertNode_item loc node g :
  Graph.heap g !! loc = Some node → Graph.getNode (key node) g = None →
  {| item_lat := lat (latLon node); item_lon := lon (latLon node); item_node := loc |}
    ∈ Graph._nodeIndex (Graph._insertNode loc g).
Proof.
  intros Hn Hk. unfold Graph._insertNode. rewrite Hn, Hk. simpl.
  apply elem_of_app. right. by apply list_elem_of_singleton.
Qed.

(** The first object of a key among those inserted becomes the node of the
    key. *)
Lemma insertNodes_first ns1 : ∀ g loc node ns2,
  Graph.getNode (key node) g = None →
  Graph.heap g !! loc = Some node →
  Forall (λ l, ∀ n, Graph.heap g !! l = Some n → key n ≠ key node) ns1 →
  Graph.getNode (key node) (Graph._insertNodes (ns1 ++ loc :: ns2) g) = Some loc ∧
  {| item_lat := lat (latLon node); item_lon := lon (latLon node); item_node := loc |}
    ∈ Graph._nodeIndex (Graph._insertNodes (ns1 ++ loc :: ns2) g).
Proof.
  induction ns1 as [|l ns1 IH]; intros g loc node ns2 Hk Hn Hall.
  - unfold Graph._insertNodes. simpl. split.
    + apply insertNodes_mono. rewrite insertNode_getNode, Hk, Hn.
      by rewrite decide_True.
    + eapply elem_of_prefix; [|apply insertNodes_index]. by apply insertNode_item.
  - apply Forall_cons in Hall as [Hl Hall]. unfold Graph._insertNodes in *. simpl.
    destruct (insertNode_frame l g) as (_ & _ & _ & Hheap).
    apply IH.
    + rewrite insertNode_getNode, Hk. destruct (Graph.heap g !! l) as [n|] eqn:Hnl; [|done].
      rewrite decide_False; [done|]. by apply Hl.
    + by rewrite Hheap.
    + by rewrite Hheap.
Qed.

(** X19: an image whose key is new to the graph, and that is the first of
    its key in the payload, becomes the node of its key: the node takes the
    corrected position and compass angle where the payload has them and the
    raw ones otherwise, the altitude defaults to 2, the coverage set is
    computed from that position and the bounds of the tile, the node is
    worthy exactly when every tile of the coverage set is loaded, it has no
    cached edges, and the spatial index holds it at that position. *)
Theorem new_image_becomes_node (d : IAPINavIm) (tiles : gmap string bool)
    (g : Graph.t) (h : string) (i : nat) (im : IAPINavImIm) :
  wf g → data_hs d !! 0%nat = Some h → data_ims d !! i = Some im →
  Graph.getNode (im_key im) g = None →
  (∀ j im', (j < i)%nat → data_ims d !! j = Some im' → im_key im' ≠ im_key im) →
  let loc := (length (Graph.heap g) + i)%nat in
  ∃ g' node,
    Graph.addNodesFromAPI (Some d) tiles g = Ret g' ∧
    Graph.getNode (im_key im) g' = Some loc ∧
    Graph.heap g' !! loc = Some node ∧
    key node = im_key im ∧
    latLon node = {| lat := default (im_lat im) (im_clat im);
                     lon := default (im_lon im) (im_clon im) |} ∧
    ca node = default (im_ca im) (im_cca im) ∧
    im_calt (apiNavImIm node) = Some (default 2%Q (im_calt im)) ∧
    hs node = Graph._computeHs (latLon node) (sw (geohash_bounds h))
                (ne (geohash_bounds h)) h (geohash_neighbours h) ∧
    worthy node = Graph.all_loaded tiles (hs node) ∧
    edges node = None ∧
    {| item_lat := lat (latLon node); item_lon := lon (latLon node); item_node := loc |}
      ∈ Graph._nodeIndex g'.
Proof.
  intros Hwf Hh Hi Hk Hfirst loc.
  destruct (addNodesFromAPI_shape d tiles g h Hwf Hh)
    as (g1 & hsh & g2 & news & Hss & Hsome & Hs2 & Hsh2 & Hg2 & Hi2 & Hheap2 & Hnew
        & Hu2 & Hinv & Hrun).
  cbv zeta in Hrun, Hinv.
  set (ns := seq (length (Graph.heap g)) (length (data_ims d))) in *.
  destruct (insertNodes_frame ns g2) as (Hs3 & Hsh3 & Hu3 & Hheap3).
  destruct (Forall2_lookup_l _ _ _ _ _ Hnew Hi) as (node & Hnode & Him).
  destruct Him as (Hkey & Hw & He & Hll & Hca & Hcalt & _ & Hhs & _).
  assert (Hn2 : Graph.heap g2 !! loc = Some node).
  { rewrite Hheap2, lookup_app_r by (unfold loc; lia).
    by replace (loc - length (Graph.heap g))%nat with i by (unfold loc; lia). }
  assert (Hsplit : ns = seq (length (Graph.heap g)) i ++
                        loc :: seq (S loc) (length (data_ims d) - S i)).
  { unfold ns. apply lookup_lt_Some in Hi.
    replace (length (data_ims d)) with (i + S (length (data_ims d) - S i))%nat at 1 by lia.
    by rewrite seq_app. }
  destruct (insertNodes_first (seq (length (Graph.heap g)) i) g2 loc node
              (seq (S loc) (length (data_ims d) - S i))) as [Hget Hitem].
  { rewrite Hkey. unfold Graph.getNode in *. by rewrite Hg2. }
  { done. }
  { apply Forall_forall. intros l Hl n Hn. apply elem_of_seq in Hl.
    rewrite Hheap2, lookup_app_r in Hn by lia.
    destruct (Forall2_lookup_r _ _ _ _ _ Hnew Hn) as (im' & Him' & Hk' & _).
    rewrite Hk', Hkey. apply (Hfirst (l - length (Graph.heap g))%nat); [lia|done]. }
  rewrite <-Hsplit in Hget, Hitem. rewrite Hkey in Hget.
  assert (Hu : Graph._unWorthyNodes (Graph._insertNodes ns g2) !! key node = Some true).
  { rewrite Hu3, Hu2, Hkey. rewrite bool_decide_eq_true_2; [done|].
    apply list_elem_of_fmap_2. by eapply list_elem_of_lookup_2. }
  eexists _, _. split; [exact Hrun|]. split; [exact Hget|].
  rewrite swept_lookup, Hheap3, Hn2. simpl. split; [done|].
  unfold promoted_by. rewrite Hkey in *.
  rewrite (bool_decide_eq_true_2 _ Hget), (bool_decide_eq_true_2 _ Hu). simpl.
  destruct (Graph.all_loaded tiles (hs node)) eqn:Hal; simpl;
    rewrite ?Hal; repeat split; done.
Qed.

End new_image.

Lemma new_image_becomes_node_witness :
  ∃ g' node,
    Graph.addNodesFromAPI (geo := flat_geo) (Some tile_payload) home_loaded Graph.empty
      = Ret g' ∧
    Graph.getNode "b" g' = Some 1%nat ∧ Graph.heap g' !! 1%nat = Some node ∧
    worthy node = Graph.all_loaded home_loaded (hs node).
Proof.
  destruct (new_image_becomes_node (geo := flat_geo) tile_payload home_loaded
              Graph.empty "t" 1 (image "b" 0.0005%Q 0.0001%Q) wf_empty eq_refl eq_refl
              eq_refl)
    as (g' & node & Hrun & Hget & Hn & _ & _ & _ & _ & _ & Hw & _).
  { intros [|j] im' Hj; [|lia]. intros [= <-]. done. }
  exists g', node. exact (conj Hrun (conj Hget (conj Hn Hw))).
Defined.

Section sweep_more.

(** X20: the sweep of [_makeNodesWorthy] does not depend on the order in
    which the tracked keys are visited: any two enumerations without
    repetition give the same state, the one the model computes, and the
    sweep does not throw. *)
Theorem sweep_order_irrelevant (tiles : gmap string bool) (ks1 ks2 : list string)
    (g : Graph.t) :
  wf g →
  NoDup ks1 → (∀ k, k ∈ ks1 ↔ is_Some (Graph._unWorthyNodes g !! k)) →
  NoDup ks2 → (∀ k, k ∈ ks2 ↔ is_Some (Graph._unWorthyNodes g !! k)) →
  Graph._makeNodesWorthy_in tiles ks1 g = Graph._makeNodesWorthy_in tiles ks2 g ∧
  Graph._makeNodesWorthy_in tiles ks1 g = Graph._makeNodesWorthy tiles g ∧
  ¬ is_throw (Graph._makeNodesWorthy_in tiles ks1 g).
Proof.
  intros Hwf Hnd1 Hks1 Hnd2 Hks2.
  assert (Hinv : sweep_inv g) by (split; [apply Hwf|exact (wf_keyed _ Hwf)]).
  rewrite (makeNodesWorthy_in_swept tiles ks1 g Hnd1 Hks1 Hinv).
  rewrite (makeNodesWorthy_in_swept tiles ks2 g Hnd2 Hks2 Hinv).
  rewrite (makeNodesWorthy_swept tiles g Hinv).
  split; [done|]. split; [done|]. by intros [].
Qed.

Lemma sweep_inv_swept tiles g : sweep_inv g → sweep_inv (swept tiles g).
Proof.
  intros [Htr Hkeyed]. split.
  - intros k [v Hv]. apply Htr. simpl in Hv. unfold swept_unWorthyNodes in Hv.
    rewrite map_lookup_imap in Hv.
    destruct (Graph._unWorthyNodes g !! k); [by eexists|done].
  - intros k loc Hloc. destruct (Hkeyed k loc Hloc) as (node & Hn & Hk).
    destruct (Forall2_lookup_l _ _ _ loc node (swept_evolves tiles g) Hn)
      as (node' & Hn' & Hid).
    exists node'. split; [done|]. by rewrite (same_identity_key _ _ Hid).
Qed.

Lemma swept_swept tiles g : sweep_inv g → swept tiles (swept tiles g) = swept tiles g.
Proof.
  intros Hinv. pose proof Hinv as [Htr Hkeyed]. apply graph_t_ext; try done.
  - apply map_eq. intros k. simpl. unfold swept_unWorthyNodes at 1.
    rewrite map_lookup_imap.
    change (Graph._unWorthyNodes (swept tiles g)) with (swept_unWorthyNodes tiles g).
    destruct (swept_unWorthyNodes tiles g !! k) as [v|] eqn:Hv; [|done]. simpl.
    unfold swept_unWorthyNodes in Hv. rewrite map_lookup_imap in Hv.
    destruct (Graph._unWorthyNodes g !! k) as [[]|] eqn:Hu; simpl in Hv; [|done..].
    destruct (Htr k) as [loc Hloc]; [by rewrite Hu|].
    destruct (Hkeyed _ _ Hloc) as (node & Hn & Hkey).
    rewrite Hloc in Hv. simpl in Hv. rewrite Hn in Hv.
    destruct (Graph.all_loaded tiles (hs node)) eqn:Hal; [done|]. injection Hv as <-.
    change (Graph.getNode k (swept tiles g)) with (Graph.getNode k g). rewrite Hloc.
    cbn [mbind option_bind]. unfold swept_heap. rewrite list_lookup_imap, Hn. simpl.
    destruct (promoted_by tiles g loc node); simpl; by rewrite Hal.
  - apply list_eq. intros loc. rewrite swept_lookup.
    destruct (Graph.heap (swept tiles g) !! loc) as [node'|] eqn:Hn'; [|done]. simpl.
    f_equal. unfold promoted_by.
    change (Graph.getNode (key node') (swept tiles g))
      with (Graph.getNode (key node') g).
    change (Graph._unWorthyNodes (swept tiles g)) with (swept_unWorthyNodes tiles g).
    destruct (decide (Graph.getNode (key node') g = Some loc)) as [Hloc|Hloc];
      [|by rewrite (bool_decide_eq_false_2 _ Hloc)].
    destruct (swept_unWorthyNodes tiles g !! key node') as [v|] eqn:Hv;
      [|by rewrite andb_false_r].
    unfold swept_unWorthyNodes in Hv. rewrite map_lookup_imap in Hv.
    destruct (Graph._unWorthyNodes g !! key node') as [[]|] eqn:Hu; simpl in Hv;
      [|done..].
    rewrite Hloc in Hv. simpl in Hv.
    rewrite swept_lookup in Hn'.
    destruct (Graph.heap g !! loc) as [node|] eqn:Hn; [|done]. simpl in Hn'.
    destruct (Graph.all_loaded tiles (hs node)) eqn:Hal; [done|].
    assert (Hhs : hs node' = hs node).
    { injection Hn' as <-. by destruct (promoted_by _ _ _ _). }
    rewrite Hhs, Hal. by rewrite andb_false_r.
Qed.

(** X21: the sweep of [_makeNodesWorthy] is idempotent: a second sweep
    with the same tile set right after the first changes nothing. *)
Theorem sweep_idempotent (tiles : gmap string bool) (g : Graph.t) :
  wf g →
  ∃ g1, Graph._makeNodesWorthy tiles g = Ret g1 ∧
        Graph._makeNodesWorthy tiles g1 = Ret g1.
Proof.
  intros Hwf.
  assert (Hinv : sweep_inv g) by (split; [apply Hwf|exact (wf_keyed _ Hwf)]).
  exists (swept tiles g). split; [by apply makeNodesWorthy_swept|].
  rewrite (makeNodesWorthy_swept tiles _ (sweep_inv_swept tiles g Hinv)).
  by rewrite swept_swept.
Qed.

End sweep_more.

(** ** Caching one node leaves the others alone *)

Section other_edges.
Context {geo : GeoLib} {calc : EdgeCalculator}.

Lemma find_label_by_source k e (L : list (graphlib.Edge * IEdgeData)) :
  graphlib.v e = k →
  (λ x, snd (snd x)) <$> list_find (λ x, fst x = e) L =
  (λ x, snd (snd x)) <$> list_find (λ x, fst x = e)
                           (filter (λ x, graphlib.v (fst x) = k) L).
Proof.
  intros Hv. induction L as [|x L IH]; [done|].
  assert (Hstep : ∀ L', fst x ≠ e →
            (λ y : nat * (graphlib.Edge * IEdgeData), snd (snd y)) <$>
              list_find (λ y, fst y = e) (x :: L') =
            (λ y, snd (snd y)) <$> list_find (λ y, fst y = e) L').
  { intros L' Hx. simpl. rewrite decide_False by done.
    by destruct (list_find _ L') as [[i y]|]. }
  destruct (decide (fst x = e)) as [Hx|Hx].
  - rewrite filter_cons_True by (by rewrite Hx). simpl. by rewrite !decide_True.
  - rewrite Hstep, IH by done. rewrite filter_cons. case_decide; [by rewrite Hstep|done].
Qed.

Lemma filter_ids k (L : list (graphlib.Edge * IEdgeData)) :
  filter (λ e, graphlib.v e = k) L.*1 = (filter (λ x, graphlib.v (fst x) = k) L).*1.
Proof.
  induction L as [|x L IH]; [done|].
  rewrite fmap_cons, !filter_cons. simpl. case_decide; [|done]. by rewrite fmap_cons, IH.
Qed.

Lemma omap_ext_in {A B} (f f' : A → option B) (l : list A) :
  (∀ x, x ∈ l → f x = f' x) → omap f l = omap f' l.
Proof.
  induction l as [|x l IH]; intros Hext; [done|]. cbn [omap list_omap].
  rewrite (Hext x) by (by left). rewrite IH; [done|].
  intros y Hy. apply Hext. by right.
Qed.

(** [getEdges] reads the labels stored for the key of the node only. *)
Lemma getEdges_by_source n g g' :
  filter (λ x, graphlib.v (fst x) = key n) (graphlib._edgeLabels (Graph._graph g')) =
    filter (λ x, graphlib.v (fst x) = key n) (graphlib._edgeLabels (Graph._graph g)) →
  graphlib.hasNode (key n) (Graph._graph g') = graphlib.hasNode (key n) (Graph._graph g) ∨
    filter (λ x, graphlib.v (fst x) = key n) (graphlib._edgeLabels (Graph._graph g)) = [] →
  Graph.getEdges n g' = Graph.getEdges n g.
Proof.
  intros HL Hnode. unfold Graph.getEdges, graphlib.outEdges.
  rewrite !filter_ids, HL.
  assert (Hf : ∀ oe, oe ∈ (filter (λ x, graphlib.v (fst x) = key n)
                             (graphlib._edgeLabels (Graph._graph g))).*1 →
             graphlib.edge oe (Graph._graph g') = graphlib.edge oe (Graph._graph g)).
  { intros oe (x & -> & Hx)%list_elem_of_fmap.
    apply list_elem_of_filter in Hx as [Hv _]. unfold graphlib.edge.
    rewrite (find_label_by_source (key n) _ (graphlib._edgeLabels (Graph._graph g'))),
            (find_label_by_source (key n) _ (graphlib._edgeLabels (Graph._graph g)))
      by done.
    by rewrite HL. }
  destruct Hnode as [->|Hnil].
  - destruct (graphlib.hasNode _ _); [|done]. simpl.
    apply omap_ext_in. intros oe Hoe. by rewrite (Hf oe Hoe).
  - rewrite Hnil. by do 2 destruct (graphlib.hasNode _ _).
Qed.

Lemma addEdgesToNode_other node E g g1 :
  Graph._addEdgesToNode node E g = Ret g1 →
  filter (λ x, graphlib.v (fst x) ≠ key node)
         (graphlib._edgeLabels (Graph._graph g1)) =
    filter (λ x, graphlib.v (fst x) ≠ key node)
           (graphlib._edgeLabels (Graph._graph g)) ∧
  graphlib._nodes (Graph._graph g) ⊆ graphlib._nodes (Graph._graph g1).
Proof.
  unfold Graph._addEdgesToNode, graphlib.outEdges.
  destruct (graphlib.hasNode (key node) (Graph._graph g)); [|done].
  rewrite remove_outEdges. intros [= <-]. simpl. split.
  - rewrite setEdges_filter_other. simpl. apply list_filter_filter_r. done.
  - etrans; [|apply setEdges_nodes_mono]. done.
Qed.

(** X22: in every reachable state, [cacheNode] on one node leaves the
    edges [getEdges] returns for every node with another key as they
    were. *)
Theorem cacheNode_leaves_other_edges (loc : nat) (node n : Node) (g g' : Graph.t) :
  reachable g →
  Graph.heap g !! loc = Some node → Graph.cacheNode loc g = Ret g' →
  key n ≠ key node →
  Graph.getEdges n g' = Graph.getEdges n g.
Proof.
  intros Hr Hn Hrun Hne.
  destruct (worthy node) eqn:Hw;
    [|by rewrite (cacheNode_unworthy _ _ _ Hn Hw) in Hrun; injection Hrun as <-].
  destruct (cacheNode_worthy _ _ _ _ Hn Hw Hrun) as (g1 & Hadd & Hg & _).
  destruct (addEdgesToNode_other _ _ _ _ Hadd) as [Hother Hnodes].
  rewrite <-Hg in Hother, Hnodes.
  apply getEdges_by_source.
  - rewrite <-(list_filter_filter_l (λ x, graphlib.v (fst x) = key n)
                 (λ x, graphlib.v (fst x) ≠ key node)
                 (graphlib._edgeLabels (Graph._graph g'))) by (intros x Hx; simpl in *; congruence).
    rewrite Hother. apply list_filter_filter_l. intros x Hx; simpl in *; congruence.
  - destruct (graphlib.hasNode (key n) (Graph._graph g)) eqn:Hhas.
    + left. apply bool_decide_eq_true. apply bool_decide_eq_true in Hhas as [x Hx].
      exists x. by eapply lookup_weaken.
    + right.
      remember (filter (λ x : graphlib.Edge * IEdgeData, graphlib.v (fst x) = key n)
                  (graphlib._edgeLabels (Graph._graph g))) as F eqn:Hf.
      symmetry in Hf. destruct F as [|[oe d] l]; [done|].
      exfalso.
      assert (Hin : (oe, d) ∈ filter (λ x, graphlib.v (fst x) = key n)
                       (graphlib._edgeLabels (Graph._graph g)))
        by (rewrite Hf; by left).
      apply list_elem_of_filter in Hin as [Hv Hin]. simpl in Hv.
      destruct (reachable_edges_ok g Hr) as [Hsrc _].
      destruct (Hsrc _ _ Hin) as (l' & n' & Hl' & _). rewrite Hv in Hl'.
      apply bool_decide_eq_false in Hhas. apply Hhas.
      unfold Graph.getNode, graphlib.node in Hl'.
      destruct (graphlib._nodes (Graph._graph g) !! key n); [by eexists|done].
Qed.

End other_edges.

(** ** SequenceDOMRenderer.render *)

Section renderer_facts.
Import SequenceDOMRenderer.
Variables Next Prev : EdgeDirection.

Lemma scan_edges_last (es : list IEdge) :
  scan_edges Next Prev es =
    (to <$> last (filter (λ e, direction (data e) = Next) es),
     to <$> last (filter (λ e, direction (data e) = Prev) es)).
Proof.
  unfold scan_edges.
  assert (Hgen : ∀ acc,
    foldl (λ keys edge,
             (if decide (direction (data edge) = Next) then Some (to edge) else keys.1,
              if decide (direction (data edge) = Prev) then Some (to edge) else keys.2))
          acc es =
      (match last (filter (λ e, direction (data e) = Next) es) with
       | Some e => Some (to e) | None => acc.1 end,
       match last (filter (λ e, direction (data e) = Prev) es) with
       | Some e => Some (to e) | None => acc.2 end)).
  { induction es as [|e es IH]; intros acc; [by destruct acc|].
    cbn [foldl]. rewrite IH. rewrite !filter_cons. simpl.
    f_equal.
    - case_decide; [|done].
      destruct (filter (λ e0 : IEdge, direction (data e0) = Next) es)
        as [|x xs] eqn:Hf; [done|].
      rewrite last_cons_cons. destruct (last (x :: xs)) eqn:Hl; [done|].
      by apply last_None in Hl.
    - case_decide; [|done].
      destruct (filter (λ e0 : IEdge, direction (data e0) = Prev) es)
        as [|x xs] eqn:Hf; [done|].
      rewrite last_cons_cons. destruct (last (x :: xs)) eqn:Hl; [done|].
      by apply last_None in Hl. }
  rewrite Hgen. reflexivity.
Qed.


Lemma last_filter_is_Some (P : IEdge → Prop) `{!∀ e, Decision (P e)} (es : list IEdge) :
  is_Some (last (filter P es)) ↔ ∃ e, e ∈ es ∧ P e.
Proof.
  split.
  - intros [e He]. apply last_Some in He as [l He]. exists e.
    assert (Hin : e ∈ filter P es) by (rewrite He, elem_of_app; right; by left).
    by apply list_elem_of_filter in Hin as [? ?].
  - intros (e & He & HP).
    assert (Hin : e ∈ filter P es) by (by apply list_elem_of_filter).
    destruct (last (filter P es)) eqn:Hl; [by eexists|].
    apply last_None in Hl. rewrite Hl in Hin. by apply elem_of_nil in Hin.
Qed.

(** X23: [render] returns the empty container when the configuration
    hides the controls; otherwise it throws exactly when the node has no
    cached edges, and when it returns the container has exactly three
    children (the two step arrows and the play button). *)
Theorem render_needs_cached_edges (node : Node) (configuration : ISequenceConfiguration) :
  (visible configuration = Some false →
   render Next Prev node configuration = Ret (h "div.SequenceContainer" no_properties [])) ∧
  (is_throw (render Next Prev node configuration) ↔
     visible configuration ≠ Some false ∧ edges node = None) ∧
  (∀ v, visible configuration ≠ Some false →
        render Next Prev node configuration = Ret v →
        selector_of v = "div.SequenceContainer" ∧
        ∃ next prev button, children_of v = [next; prev; button]).
Proof.
  unfold render. split; [|split].
  - intros ->. done.
  - case_bool_decide as Hv; [simpl; tauto|].
    destruct (edges node) as [es|]; [|simpl; tauto].
    destruct (scan_edges Next Prev es). simpl. split; [done|]. by intros [_ ?].
  - intros v Hv. rewrite bool_decide_eq_false_2 by done.
    destruct (edges node) as [es|]; [|done].
    destruct (scan_edges Next Prev es). intros [= <-]. simpl. split; [done|].
    by eexists _, _, _.
Qed.

(** X24: the play button is the last child of the container; it is
    enabled exactly when the configured direction is [Next] or [Prev] and
    the node has a cached edge of that direction; its click handler stops
    the component while playing, starts it when not playing and enabled,
    and is absent when not playing and disabled. *)
Theorem play_button_enabled_iff (node : Node) (configuration : ISequenceConfiguration)
    (es : list IEdge) (v : VNode) :
  edges node = Some es →
  render Next Prev node configuration = Ret v →
  visible configuration ≠ Some false →
  ∃ button, last (children_of v) = Some button ∧
    let canPlay := ∃ dir e, config_direction configuration = Some dir ∧
                            (dir = Next ∨ dir = Prev) ∧
                            e ∈ es ∧ direction (data e) = dir in
    (selector_of button = "div.SequencePlay" ↔ canPlay) ∧
    (selector_of button = "div.SequencePlayDisabled" ↔ ¬ canPlay) ∧
    (onclick (properties_of button) = Some ComponentStop ↔ playing configuration = true) ∧
    (onclick (properties_of button) = Some ComponentPlay ↔
       playing configuration = false ∧ canPlay) ∧
    (onclick (properties_of button) = None ↔
       playing configuration = false ∧ ¬ canPlay).
Proof.
  intros Hes Hrun Hv. unfold render in Hrun.
  rewrite bool_decide_eq_false_2, Hes, scan_edges_last in Hrun by done.
  injection Hrun as <-. eexists. split; [done|]. intros canPlay.
  unfold _createPlayingButton. simpl.
  set (b := _ || _).
  assert (Hb : b = true ↔ canPlay).
  { unfold b, canPlay. rewrite orb_true_iff, !andb_true_iff, !bool_decide_eq_true.
    rewrite !fmap_is_Some, !last_filter_is_Some. split.
    - intros [[Hd (e & He & Hdir)]|[Hd (e & He & Hdir)]].
      + exists Next, e. auto.
      + exists Prev, e. auto.
    - intros (dir & e & Hd & [->| ->] & He & Hdir); [left|right]; eauto. }
  destruct b.
  - assert (Hc : canPlay) by (by apply Hb).
    destruct (playing configuration); simpl; intuition (try congruence; try done).
  - assert (Hc : ¬ canPlay) by (intros Hc; by apply Hb in Hc).
    destruct (playing configuration); simpl; intuition (try congruence; try done).
Qed.

(** X25: each step arrow follows the last cached edge of its direction:
    it is disabled exactly when the node has no such edge, highlighted
    exactly when the destination of the last such edge is the highlighted
    key, and its click handler moves in its direction exactly when there is
    such an edge. *)
Theorem step_arrows_follow_last_edge (node : Node) (configuration : ISequenceConfiguration)
    (es : list IEdge) (v : VNode) :
  Next ≠ Prev →
  edges node = Some es →
  render Next Prev node configuration = Ret v →
  visible configuration ≠ Some false →
  let nextKey := to <$> last (filter (λ e, direction (data e) = Next) es) in
  let prevKey := to <$> last (filter (λ e, direction (data e) = Prev) es) in
  ∃ next prev button, children_of v = [next; prev; button] ∧
    (selector_of next = "div.SequenceStepNextDisabled" ↔ nextKey = None) ∧
    (selector_of next = "div.SequenceStepNextHighlight" ↔
       is_Some nextKey ∧ highlightKey configuration = nextKey) ∧
    (selector_of next = "div.SequenceStepNext" ↔
       is_Some nextKey ∧ highlightKey configuration ≠ nextKey) ∧
    (selector_of prev = "div.SequenceStepPrevDisabled" ↔ prevKey = None) ∧
    (selector_of prev = "div.SequenceStepPrevHighlight" ↔
       is_Some prevKey ∧ highlightKey configuration = prevKey) ∧
    (selector_of prev = "div.SequenceStepPrev" ↔
       is_Some prevKey ∧ highlightKey configuration ≠ prevKey) ∧
    (onclick (properties_of next) = Some (NavigatorMoveDir Next) ↔
       ∃ e, e ∈ es ∧ direction (data e) = Next) ∧
    (onclick (properties_of next) = None ↔
       ¬ ∃ e, e ∈ es ∧ direction (data e) = Next) ∧
    (onclick (properties_of prev) = Some (NavigatorMoveDir Prev) ↔
       ∃ e, e ∈ es ∧ direction (data e) = Prev) ∧
    (onclick (properties_of prev) = None ↔
       ¬ ∃ e, e ∈ es ∧ direction (data e) = Prev).
Proof.
  intros Hne Hes Hrun Hv nextKey prevKey. unfold render in Hrun.
  rewrite bool_decide_eq_false_2, Hes, scan_edges_last in Hrun by done.
  injection Hrun as <-. eexists _, _, _. split; [done|]. simpl.
  fold nextKey prevKey.
  assert (Hn : is_Some nextKey ↔ ∃ e, e ∈ es ∧ direction (data e) = Next).
  { unfold nextKey. by rewrite fmap_is_Some, last_filter_is_Some. }
  assert (Hp : is_Some prevKey ↔ ∃ e, e ∈ es ∧ direction (data e) = Prev).
  { unfold prevKey. by rewrite fmap_is_Some, last_filter_is_Some. }
  rewrite <-Hn, <-Hp. clear Hn Hp. unfold _getStepClassName.
  rewrite (decide_True (P := Next = Next)) by done.
  rewrite (decide_False (P := Prev = Next)) by done.
  destruct nextKey as [nk|], prevKey as [pk|]; simpl;
    repeat case_bool_decide; simpl;
    repeat split; intros; destruct_and?; try done;
    try (by exfalso; eapply is_Some_None); try congruence;
    try (exfalso; match goal with H : ¬ is_Some (Some _) |- _ => apply H; by eexists end).
Qed.

End renderer_facts.

(** ** Examples *)

Lemma reachable_ingested :
  reachable (geo := flat_geo) (calc := example_calculator) ingested.
Proof.
  apply (reachable_addNodesFromAPI (Some tile_payload) home_loaded Graph.empty);
    [apply reachable_empty|vm_compute; reflexivity].
Qed.

Lemma graph_never_forgets_witness :
  ∃ g', wf ingested ∧
    step (geo := flat_geo) (calc := example_calculator) ingested g' ∧
    Graph.getNode "a" g' = Some 0%nat ∧ Graph.getNode "b" g' = Some 1%nat ∧
    length (Graph._nodeIndex ingested) = 2%nat ∧
    Graph._nodeIndex ingested `prefix_of` Graph._nodeIndex g' ∧
    edges <$> Graph.heap ingested !! 0%nat = Some None ∧
    is_Some (Graph.heap g' !! 0%nat ≫= edges).
Proof.
  assert (Hwf : wf ingested) by apply (reachable_wf _ reachable_ingested).
  destruct (Graph.cacheNode (calc := example_calculator) 0 ingested)
    as [g'|msg] eqn:Hrun; [|vm_compute in Hrun; discriminate].
  assert (Hstep : step (geo := flat_geo) (calc := example_calculator) ingested g')
    by apply (step_cacheNode 0 _ _ Hrun).
  destruct (graph_never_forgets (geo := flat_geo) (calc := example_calculator)
              ingested g' Hwf Hstep) as (_ & Hget & _ & Hidx).
  exists g'. split; [exact Hwf|]. split; [exact Hstep|].
  split; [apply Hget; reflexivity|]. split; [apply Hget; reflexivity|].
  split; [reflexivity|]. split; [exact Hidx|].
  vm_compute in Hrun. injection Hrun as <-. split; [reflexivity|]. by eexists.
Defined.

Lemma index_matches_graph_witness :
  reachable (geo := flat_geo) (calc := example_calculator) ingested ∧
  NoDup (item_node <$> Graph._nodeIndex ingested).
Proof.
  exact (conj reachable_ingested (proj2 (proj2
    (index_matches_graph (geo := flat_geo) (calc := example_calculator)
       ingested reachable_ingested)))).
Defined.


Lemma unworthy_has_no_edges_witness :
  ∃ node,
    reachable (geo := flat_geo) (calc := example_calculator) ingested ∧
    Graph.getNode "b" ingested = Some 1%nat ∧
    Graph.heap ingested !! 1%nat = Some node ∧ worthy node = false ∧
    Graph.nextKey node 0%N ingested = Ret None.
Proof.
  assert (Hn : ∃ node, Graph.getNode "b" ingested = Some 1%nat ∧
                       Graph.heap ingested !! 1%nat = Some node ∧ worthy node = false).
  { vm_compute. eexists. repeat split; reflexivity. }
  destruct Hn as (node & Hk & Hn & Hw). exists node.
  exact (conj reachable_ingested (conj Hk (conj Hn (conj Hw
    (proj1 (proj2 (proj2
      (unworthy_has_no_edges (geo := flat_geo) (calc := example_calculator)
         ingested "b" 1 node 0%N reachable_ingested Hk Hn Hw)))))))).
Defined.

Lemma node_sequence_lists_key_witness :
  ∃ node s,
    reachable (geo := flat_geo) (calc := example_calculator) ingested ∧
    Graph.heap ingested !! 0%nat = Some node ∧ sequence node = Some s ∧
    key node ∈ sequence_keys s.
Proof.
  assert (Hn : ∃ node s, Graph.heap ingested !! 0%nat = Some node ∧
                         sequence node = Some s).
  { vm_compute. eexists _, _. split; reflexivity. }
  destruct Hn as (node & s & Hn & Hs). exists node, s.
  exact (conj reachable_ingested (conj Hn (conj Hs (proj1
    (node_sequence_lists_key (geo := flat_geo) (calc := example_calculator)
       ingested 0 node s reachable_ingested Hn Hs))))).
Defined.

Lemma wf_unswept : wf unswept.
Proof.
  apply (addNodesFromAPI_wf (geo := flat_geo) (Some tile_payload) ∅ Graph.empty);
    [exact wf_empty|vm_compute; reflexivity].
Qed.

Lemma tracked_unswept k :
  k ∈ ["a"; "b"] ↔ is_Some (Graph._unWorthyNodes unswept !! k).
Proof.
  assert (Hu : Graph._unWorthyNodes unswept = <["a" := true]> (<["b" := true]> ∅))
    by (vm_compute; reflexivity).
  rewrite Hu. destruct (decide (k = "a")) as [->|Ha].
  { rewrite lookup_insert_eq. split; [by eexists|]. intros _. by left. }
  destruct (decide (k = "b")) as [->|Hb].
  { rewrite lookup_insert_ne, lookup_insert_eq by done.
    split; [by eexists|]. intros _. right. by left. }
  rewrite !lookup_insert_ne, lookup_empty by done. split; [|by intros []].
  intros [?|[?|?%elem_of_nil]%elem_of_cons]%elem_of_cons; done.
Qed.

Lemma sweep_order_irrelevant_witness :
  wf unswept ∧ NoDup ["a"; "b"] ∧ NoDup ["b"; "a"] ∧
  Graph._makeNodesWorthy_in home_loaded ["a"; "b"] unswept =
    Graph._makeNodesWorthy_in home_loaded ["b"; "a"] unswept.
Proof.
  assert (Hnd1 : NoDup ["a"; "b"]) by (apply (bool_decide_unpack _); vm_compute; exact I).
  assert (Hnd2 : NoDup ["b"; "a"]) by (apply (bool_decide_unpack _); vm_compute; exact I).
  assert (Hks2 : ∀ k, k ∈ ["b"; "a"] ↔ is_Some (Graph._unWorthyNodes unswept !! k)).
  { intros k. rewrite <-tracked_unswept, !elem_of_cons. tauto. }
  exact (conj wf_unswept (conj Hnd1 (conj Hnd2 (proj1
    (sweep_order_irrelevant home_loaded ["a"; "b"] ["b"; "a"] unswept wf_unswept
       Hnd1 tracked_unswept Hnd2 Hks2))))).
Defined.

Lemma sweep_idempotent_witness :
  wf unswept ∧
  ∃ g1, Graph._makeNodesWorthy home_loaded unswept = Ret g1 ∧
        Graph._makeNodesWorthy home_loaded g1 = Ret g1.
Proof.
  exact (conj wf_unswept (sweep_idempotent home_loaded unswept wf_unswept)).
Defined.

Lemma cacheNode_leaves_other_edges_witness :
  ∃ node n g1,
    reachable (geo := flat_geo) (calc := example_calculator) ingested ∧
    Graph.heap ingested !! 0%nat = Some node ∧
    Graph.cacheNode (calc := example_calculator) 0 ingested = Ret g1 ∧
    key n ≠ key node ∧
    Graph.getEdges n g1 = Graph.getEdges n ingested.
Proof.
  assert (Hn : ∃ node n g1, Graph.heap ingested !! 0%nat = Some node ∧
                 Graph.heap ingested !! 1%nat = Some n ∧
                 Graph.cacheNode (calc := example_calculator) 0 ingested = Ret g1 ∧
                 bool_decide (key n ≠ key node) = true).
  { vm_compute. eexists _, _, _. repeat split; reflexivity. }
  destruct Hn as (node & n & g1 & Hn & _ & Hc & Hne).
  apply bool_decide_eq_true in Hne. exists node, n, g1.
  exact (conj reachable_ingested (conj Hn (conj Hc (conj Hne
    (cacheNode_leaves_other_edges (geo := flat_geo) (calc := example_calculator)
       0 node n ingested g1 reachable_ingested Hn Hc Hne))))).
Defined.

Lemma play_button_enabled_iff_witness :
  ∃ v button,
    edges cached_node = Some [example_edge 0%N cached_node "b"] ∧
    SequenceDOMRenderer.render 0%N 1%N cached_node forward = Ret v ∧
    SequenceDOMRenderer.visible forward ≠ Some false ∧
    last (SequenceDOMRenderer.children_of v) = Some button ∧
    SequenceDOMRenderer.selector_of button = "div.SequencePlay".
Proof.
  assert (He : edges cached_node = Some [example_edge 0%N cached_node "b"])
    by reflexivity.
  assert (Hr : ∃ v, SequenceDOMRenderer.render 0%N 1%N cached_node forward = Ret v).
  { vm_compute. eexists. reflexivity. }
  destruct Hr as (v & Hr).
  assert (Hv : SequenceDOMRenderer.visible forward ≠ Some false) by discriminate.
  destruct (play_button_enabled_iff 0%N 1%N cached_node forward _ v He Hr Hv)
    as (button & Hlast & Hsel & _).
  exists v, button.
  refine (conj He (conj Hr (conj Hv (conj Hlast (proj2 Hsel _))))).
  exists 0%N, (example_edge 0%N cached_node "b").
  split; [reflexivity|]. split; [by left|]. split; [by left|reflexivity].
Defined.

Lemma step_arrows_follow_last_edge_witness :
  ∃ v next prev button,
    0%N ≠ 1%N ∧
    edges cached_node = Some [example_edge 0%N cached_node "b"] ∧
    SequenceDOMRenderer.render 0%N 1%N cached_node forward = Ret v ∧
    SequenceDOMRenderer.visible forward ≠ Some false ∧
    SequenceDOMRenderer.children_of v = [next; prev; button] ∧
    SequenceDOMRenderer.selector_of next = "div.SequenceStepNextHighlight" ∧
    SequenceDOMRenderer.selector_of prev = "div.SequenceStepPrevDisabled".
Proof.
  assert (Hne : 0%N ≠ 1%N) by discriminate.
  assert (He : edges cached_node = Some [example_edge 0%N cached_node "b"])
    by reflexivity.
  assert (Hr : ∃ v, SequenceDOMRenderer.render 0%N 1%N cached_node forward = Ret v).
  { vm_compute. eexists. reflexivity. }
  destruct Hr as (v & Hr).
  assert (Hv : SequenceDOMRenderer.visible forward ≠ Some false) by discriminate.
  destruct (step_arrows_follow_last_edge 0%N 1%N cached_node forward _ v Hne He Hr Hv)
    as (next & prev & button & Hch & _ & Hhi & _ & Hdis & _).
  exists v, next, prev, button.
  refine (conj Hne (conj He (conj Hr (conj Hv (conj Hch
    (conj (proj2 Hhi _) (proj2 Hdis _))))))).
  - split; [by eexists|reflexivity].
  - reflexivity.
Defined.

(** ** The invariant, run-time errors and tracking *)

Section all_states.
Context {geo : GeoLib} {calc : EdgeCalculator}.

(** X26: every reachable state satisfies the invariant of the graph: a
    tracked key has a node, a node of the graph is an object stored under
    its own key, a known sequence has its hash, and a worthy object is the
    node of its key. *)
Theorem invariant_in_every_state (g : Graph.t) :
  reachable g →
  (∀ k, is_Some (Graph._unWorthyNodes g !! k) → is_Some (Graph.getNode k g)) ∧
  (∀ k loc, Graph.getNode k g = Some loc →
     ∃ node, Graph.heap g !! loc = Some node ∧ key node = k) ∧
  (∀ skey, is_Some (Graph._sequences g !! skey) →
     is_Some (Graph._sequenceHashes g !! skey)) ∧
  (∀ loc node, Graph.heap g !! loc = Some node → worthy node = true →
     Graph.getNode (key node) g = Some loc).
Proof.
  intros Hr.
  assert (Hwf : wf g).
  { induction Hr as [|data0 tiles g g' _ IH Hrun|loc g g' _ IH Hrun].
    - exact wf_empty.
    - exact (addNodesFromAPI_wf data0 tiles g g' IH Hrun).
    - exact (cacheNode_wf loc g g' IH Hrun). }
  destruct Hwf as [H1 H2 H3 H4]. split; [exact H1|]. split; [exact H2|].
  split; [exact H3|exact H4].
Qed.

Lemma hasNode_of_getNode k loc g :
  Graph.getNode k g = Some loc → graphlib.hasNode k (Graph._graph g) = true.
Proof.
  unfold Graph.getNode, graphlib.node. intros Hk. apply bool_decide_eq_true.
  destruct (graphlib._nodes (Graph._graph g) !! k); [by eexists|done].
Qed.

(** X27: in a reachable state the methods meet none of their run-time type
    errors: [cacheNode] returns for every object, [addNodesFromAPI] returns
    for every payload that names its tile, the sweep returns, and [nextKey]
    and [nextNode] return for every node of the graph. *)
Theorem no_type_errors (g : Graph.t) :
  reachable g →
  (∀ loc, ∃ g', Graph.cacheNode loc g = Ret g') ∧
  (∀ d tiles, data_hs d ≠ [] → ∃ g', Graph.addNodesFromAPI (Some d) tiles g = Ret g') ∧
  (∀ tiles, ∃ g', Graph._makeNodesWorthy tiles g = Ret g') ∧
  (∀ k loc node dir,
     Graph.getNode k g = Some loc → Graph.heap g !! loc = Some node →
     (∃ r, Graph.nextKey node dir g = Ret r) ∧
     (∃ r, Graph.nextNode node dir g = Ret r)).
Proof.
  intros Hr. pose proof (reachable_wf g Hr) as Hwf.
  split; [|split; [|split]].
  - intros loc. unfold Graph.cacheNode, Graph._computeEdges.
    destruct (Graph.heap g !! loc) as [node|] eqn:Hn; [|by eexists].
    destruct (worthy node) eqn:Hw; simpl; [|by eexists].
    pose proof (hasNode_of_getNode _ _ _ (wf_worthy _ Hwf loc node Hn Hw)) as Hhas.
    unfold Graph._addEdgesToNode, graphlib.outEdges. rewrite Hhas. simpl. by eexists.
  - intros d tiles Hd.
    destruct (addNodesFromAPI_spec d tiles g Hwf Hd) as (g' & Hrun & _). by exists g'.
  - intros tiles. exists (swept tiles g). apply makeNodesWorthy_swept.
    split; [apply Hwf|exact (wf_keyed _ Hwf)].
  - intros k loc node dir Hk Hn.
    destruct (wf_keyed _ Hwf _ _ Hk) as (node0 & Hn0 & Hkey).
    rewrite Hn in Hn0. injection Hn0 as <-. subst k.
    pose proof (hasNode_of_getNode _ _ _ Hk) as Hhas.
    unfold Graph.nextNode, Graph.nextKey, graphlib.outEdges. rewrite Hhas. simpl.
    split; by eexists.
Qed.

Lemma insertNodes_new ns : ∀ g k loc,
  Graph.getNode k g = None → Graph.getNode k (Graph._insertNodes ns g) = Some loc →
  loc ∈ ns ∧ ∃ node, Graph.heap g !! loc = Some node ∧ key node = k.
Proof.
  induction ns as [|l ns IH]; intros g k loc Hk Hloc.
  - unfold Graph._insertNodes in Hloc. simpl in Hloc. congruence.
  - unfold Graph._insertNodes in *. simpl in Hloc.
    destruct (insertNode_frame l g) as (_ & _ & _ & Hheap).
    destruct (Graph.getNode k (Graph._insertNode l g)) as [l'|] eqn:Hl.
    + pose proof (insertNodes_mono ns _ _ _ Hl) as Hmono.
      unfold Graph._insertNodes in Hmono. rewrite Hmono in Hloc. injection Hloc as <-.
      rewrite insertNode_getNode, Hk in Hl.
      destruct (Graph.heap g !! l) as [node|] eqn:Hn; [|done].
      case_decide as Hkey; [|done]. injection Hl as <-.
      split; [by left|]. by exists node.
    + destruct (IH _ _ _ Hl Hloc) as (Hin & node & Hn & Hkey).
      split; [by right|]. exists node. by rewrite <-Hheap.
Qed.

Lemma tracking_ok_empty : tracking_ok Graph.empty.
Proof.
  split.
  - intros k v Hv. simpl in Hv. by rewrite lookup_empty in Hv.
  - intros k loc node Hk. unfold Graph.getNode, graphlib.node in Hk. simpl in Hk.
    by rewrite lookup_empty in Hk.
Qed.

Lemma tracking_ok_addNodesFromAPI data0 tiles g g' :
  wf g → tracking_ok g → Graph.addNodesFromAPI data0 tiles g = Ret g' → tracking_ok g'.
Proof.
  intros Hwf [Htrue Htracked] Hrun. destruct data0 as [d|]; [|by injection Hrun as <-].
  destruct (data_hs d !! 0%nat) as [h|] eqn:Hh;
    [|by unfold Graph.addNodesFromAPI in Hrun; rewrite Hh in Hrun].
  destruct (addNodesFromAPI_shape d tiles g h Hwf Hh)
    as (g1 & hsh & g2 & news & Hss & Hsome & Hs2 & Hsh2 & Hg2 & Hi2 & Hheap2 & Hnew
        & Hu2 & Hinv & Hrun').
  rewrite Hrun in Hrun'. injection Hrun' as ->. cbv zeta in *.
  set (ns := seq (length (Graph.heap g)) (length (data_ims d))) in *.
  set (g3 := Graph._insertNodes ns g2) in *.
  destruct (insertNodes_frame ns g2) as (Hs3 & Hsh3 & Hu3 & Hheap3).
  fold g3 in Hs3, Hsh3, Hu3, Hheap3.
  destruct Hinv as [Htr Hkeyed].
  assert (Hu3' : ∀ k v, Graph._unWorthyNodes g3 !! k = Some v → v = true).
  { intros k v. rewrite Hu3, Hu2. case_bool_decide; [by intros [= <-]|apply Htrue]. }
  split.
  - intros k v. simpl. unfold swept_unWorthyNodes. rewrite map_lookup_imap.
    destruct (Graph._unWorthyNodes g3 !! k) as [[]|]; simpl; [|done..].
    destruct (_ ≫= _) as [node|]; [|by intros [= <-]].
    destruct (Graph.all_loaded tiles (hs node)); [done|by intros [= <-]].
  - intros k loc node'. change (Graph.getNode k (swept tiles g3)) with (Graph.getNode k g3).
    intros Hk Hn' Hw'. rewrite swept_lookup in Hn'.
    destruct (Graph.heap g3 !! loc) as [node|] eqn:Hn; [|done]. simpl in Hn'.
    injection Hn' as Hn'.
    destruct (Hkeyed _ _ Hk) as (node0 & Hn0 & Hkey).
    rewrite Hn in Hn0. injection Hn0 as <-.
    assert (Hw : worthy node = false).
    { subst node'. by destruct (promoted_by tiles g3 loc node). }
    assert (Hu : Graph._unWorthyNodes g3 !! k = Some true).
    { rewrite Hu3, Hu2. case_bool_decide as Hin; [done|].
      destruct (Graph.getNode k g) as [loc0|] eqn:Hk0.
      - assert (Hk3 : Graph.getNode k g3 = Some loc0).
        { apply insertNodes_mono. unfold Graph.getNode in *. by rewrite Hg2. }
        rewrite Hk in Hk3. injection Hk3 as <-.
        destruct (wf_keyed _ Hwf _ _ Hk0) as (nodeg & Hng & _).
        rewrite Hheap3, Hheap2, (lookup_app_l_Some _ _ _ _ Hng) in Hn.
        injection Hn as <-. by apply (Htracked k loc nodeg).
      - assert (Hk2 : Graph.getNode k g2 = None)
          by (unfold Graph.getNode in *; by rewrite Hg2).
        destruct (insertNodes_new ns g2 k loc Hk2 Hk) as (Hloc & node2 & Hn2 & Hkey2).
        apply elem_of_seq in Hloc. rewrite Hheap2, lookup_app_r in Hn2 by lia.
        destruct (Forall2_lookup_r _ _ _ _ _ Hnew Hn2) as (im & Him & Hkim & _).
        destruct Hin. rewrite <-Hkey2, Hkim. apply list_elem_of_fmap_2.
        by eapply list_elem_of_lookup_2. }
    unfold tracked. simpl. unfold swept_unWorthyNodes. rewrite map_lookup_imap, Hu.
    simpl. rewrite Hk. simpl. rewrite Hn.
    destruct (Graph.all_loaded tiles (hs node)) eqn:Hal; [|done]. exfalso.
    unfold promoted_by in Hn'. rewrite Hkey, Hal in Hn'.
    rewrite (bool_decide_eq_true_2 _ Hk), (bool_decide_eq_true_2 _ Hu) in Hn'.
    simpl in Hn'. by subst node'.
Qed.

Lemma tracking_ok_cacheNode loc g g' :
  tracking_ok g → Graph.cacheNode loc g = Ret g' → tracking_ok g'.
Proof.
  intros [Htrue Htracked] Hrun.
  destruct (cacheNode_keeps _ _ _ Hrun) as (Hget & _ & _ & _ & Hu & Hev & _).
  split.
  - intros k v. rewrite Hu. apply Htrue.
  - intros k l n' Hk Hn' Hw'. unfold tracked. rewrite Hu. rewrite Hget in Hk.
    destruct (Forall2_lookup_r _ _ _ l n' Hev Hn') as (n & Hn & Hid).
    apply (Htracked k l n); [done|done|].
    destruct Hid as (_ & _ & _ & _ & _ & Hmono & _).
    destruct (worthy n); [|done]. rewrite Hmono in Hw'; done.
Qed.

(** X28: in every reachable state the tracking dictionary holds [true]
    only (the [false] marks of the sweep do not outlive it), and every node
    of the graph that is not worthy has its key tracked, so that a later
    sweep can still promote it. *)
Theorem unworthy_nodes_are_tracked (g : Graph.t) :
  reachable g →
  (∀ k v, Graph._unWorthyNodes g !! k = Some v → v = true) ∧
  (∀ k loc node,
     Graph.getNode k g = Some loc → Graph.heap g !! loc = Some node →
     worthy node = false → tracked k g).
Proof.
  intros Hr.
  assert (Hok : tracking_ok g).
  { induction Hr as [|data0 tiles g g' Hr IH Hrun|loc g g' Hr IH Hrun].
    - exact tracking_ok_empty.
    - exact (tracking_ok_addNodesFromAPI data0 tiles g g' (reachable_wf g Hr) IH Hrun).
    - exact (tracking_ok_cacheNode loc g g' IH Hrun). }
  destruct Hok as [H1 H2]. split; [exact H1|exact H2].
Qed.

End all_states.

Lemma invariant_in_every_state_witness :
  reachable (geo := flat_geo) (calc := example_calculator) ingested ∧
  ∀ loc node, Graph.heap ingested !! loc = Some node → worthy node = true →
              Graph.getNode (key node) ingested = Some loc.
Proof.
  exact (conj reachable_ingested (proj2 (proj2 (proj2
    (invariant_in_every_state (geo := flat_geo) (calc := example_calculator)
       ingested reachable_ingested))))).
Defined.

Lemma no_type_errors_witness :
  reachable (geo := flat_geo) (calc := example_calculator) ingested ∧
  ∀ loc, ∃ g', Graph.cacheNode (calc := example_calculator) loc ingested = Ret g'.
Proof.
  exact (conj reachable_ingested (proj1
    (no_type_errors (geo := flat_geo) (calc := example_calculator)
       ingested reachable_ingested))).
Defined.

Lemma unworthy_nodes_are_tracked_witness :
  reachable (geo := flat_geo) (calc := example_calculator) ingested ∧
  ∀ k v, Graph._unWorthyNodes ingested !! k = Some v → v = true.
Proof.
  exact (conj reachable_ingested (proj1
    (unworthy_nodes_are_tracked (geo := flat_geo) (calc := example_calculator)
       ingested reachable_ingested))).
Defined.
